(** * surgical-sim: segment detection and causal trajectory correction

    A shallow embedding of [lib/pathutils.py] ([_detect_segments],
    [normalize_time], [rate_segments], [trim_path] and the assertion of
    [display_path]), of [tests/pathplanning/path_correction.py]
    ([generate_gate_pos], [main]) and of the training loop of
    [lib/network.py] ([train_lt_network]).  What matplotlib, PyBrain and
    the console do is an input of the embedding: the events of the user,
    the fitness values of the trainer and the lines typed.

    The Python code works on numpy [float64] arrays.  The embedding is
    written once, over an interface [Scalar] of the scalar operations the code
    uses, and is read at two instances:
    - [float_scalar]: IEEE-754 binary64 (Rocq's primitive floats), the
      arithmetic the program runs on; division by zero yields an infinity or
      a NaN and raises nothing, as numpy does for [float64] operands;
    - [real_scalar]: the real numbers, the exact arithmetic in which the
      algebraic properties of the recurrence are stated.

    The module [surgicalsim.lib.constants] is not part of the sources; its
    values are the fields of the record [constants]. *)

From Stdlib Require Import List Arith Lia Bool ZArith Reals Lra Floats.
Import ListNotations.

Set Implicit Arguments.

(** ** Exceptions and results *)

(** The two exceptions the modelled code can raise: numpy's [IndexError]
    (an index out of bounds) and [ValueError] (shapes that do not broadcast,
    [cdist] on matrices of different widths, [argmin] of an empty array). *)
Inductive exn : Type :=
| IndexError
| ValueError.

Inductive result (A : Type) : Type :=
| Ok (a : A)
| Raise (e : exn).

Arguments Ok {A} a.
Arguments Raise {A} e.

Definition rbind {A B : Type} (r : result A) (k : A -> result B) : result B :=
  match r with
  | Ok a => k a
  | Raise e => Raise e
  end.

Declare Scope result_scope.
Delimit Scope result_scope with result.
Notation "x <- r ;; k" := (rbind r (fun x => k))
  (at level 61, r at next level, right associativity) : result_scope.

(** ** Scalars *)

(** The operations of a numpy [float64] scalar that the code uses.
    [flit n d] is the literal whose decimal notation denotes [n/d]. *)
Class Scalar (F : Type) : Type := {
  fzero : F;
  fadd : F -> F -> F;
  fsub : F -> F -> F;
  fmul : F -> F -> F;
  fdiv : F -> F -> F;
  fopp : F -> F;
  fsqrt : F -> F;
  fltb : F -> F -> bool;
  fleb : F -> F -> bool;
  fisnan : F -> bool;
  flit : Z -> Z -> F
}.

(** ** [surgicalsim.lib.constants] *)

(** Column layout of a path sample and the number of gates. *)
Record constants : Type := {
  G_TIME_IDX : nat;
  G_GATE_IDX : nat;
  G_NUM_GATE_DIMS : nat;
  G_NUM_GATES : nat;
  G_POS_IDX : nat;
  G_NUM_POS_DIMS : nat
}.

(** The numeric settings of [path_correction.py]: [t_total] (module level),
    [a_max] (in [main]), and the amplitude and frequency written in
    [generate_gate_pos]. *)
Record params (F : Type) : Type := {
  t_total : F;
  a_max : F;
  gate_amp : F;
  gate_freq : F
}.

Section Numpy.

Context {F : Type} {SF : Scalar F}.

(** A one-dimensional array and a matrix given by its rows. *)
Definition ndarray : Type := list F.
Definition matrix : Type := list ndarray.

(** [xs[a:b]] for non-negative [a], [b]: out-of-range bounds are clipped. *)
Definition slice {A : Type} (a b : nat) (xs : list A) : list A :=
  firstn (b - a) (skipn a xs).

(** [m.shape[1]]; a matrix without rows is given width 0. *)
Definition ncols (m : matrix) : nat :=
  match m with
  | [] => 0
  | r :: _ => length r
  end.

Fixpoint zip_with (op : F -> F -> F) (xs ys : ndarray) : ndarray :=
  match xs, ys with
  | x :: xs', y :: ys' => op x y :: zip_with op xs' ys'
  | _, _ => []
  end.

(** An elementwise binary operation on one-dimensional arrays, with numpy's
    broadcasting: equal lengths, or one operand of length 1. *)
Definition broadcast (op : F -> F -> F) (xs ys : ndarray) : result ndarray :=
  if length xs =? length ys then Ok (zip_with op xs ys)
  else if length xs =? 1 then Ok (map (op (hd fzero xs)) ys)
  else if length ys =? 1 then Ok (map (fun x => op x (hd fzero ys)) xs)
  else Raise ValueError.

Definition np_add : ndarray -> ndarray -> result ndarray := broadcast fadd.
Definition np_sub : ndarray -> ndarray -> result ndarray := broadcast fsub.

(** [xs += ys]: the broadcast result must have the shape of [xs]. *)
Definition np_iadd (xs ys : ndarray) : result ndarray :=
  (r <- np_add xs ys ;;
   if length r =? length xs then Ok r else Raise ValueError)%result.

(** [xs * k] and [xs / k] for a scalar [k]. *)
Definition np_scale (xs : ndarray) (k : F) : ndarray :=
  map (fun x => fmul x k) xs.
Definition np_divide (xs : ndarray) (k : F) : ndarray :=
  map (fun x => fdiv x k) xs.

(** [np.linalg.norm] of a one-dimensional array: [sqrt(dot(x, x))].  The
    squares are summed from the left; the order in which numpy's [dot] sums
    them is that of its BLAS, and its float result can differ in the last
    bit. *)
Definition sum_squares (xs : ndarray) : F :=
  fold_left (fun acc x => fadd acc (fmul x x)) xs fzero.
Definition np_linalg_norm (xs : ndarray) : F := fsqrt (sum_squares xs).

(** [np.clip(x, lo, hi)] is [min(max(x, lo), hi)], a NaN [x] being kept. *)
Definition np_maximum (a b : F) : F :=
  if fisnan a then a else if fltb b a then a else b.
Definition np_minimum (a b : F) : F :=
  if fisnan a then a else if fltb a b then a else b.
Definition np_clip (x lo hi : F) : F := np_minimum (np_maximum x lo) hi.

(** [np.argmin]: the scan keeps the first index of the least value seen;
    an element replaces the current minimum [mp] when [not (x >= mp)], and
    the scan stops at the first NaN. *)
Fixpoint argmin_from (xs : ndarray) (i min_ind : nat) (mp : F) : nat :=
  match xs with
  | [] => min_ind
  | x :: rest =>
      if negb (fleb mp x)
      then if fisnan x then i else argmin_from rest (S i) i x
      else argmin_from rest (S i) min_ind mp
  end.

Definition np_argmin (xs : ndarray) : result nat :=
  match xs with
  | [] => Raise ValueError
  | x :: rest => Ok (if fisnan x then 0 else argmin_from rest 1 0 x)
  end.

(** The Euclidean distance of [scipy.spatial.distance.cdist]. *)
Definition sq_diff_sum (u v : ndarray) : F :=
  fold_left (fun acc ab => fadd acc (fmul (fsub (fst ab) (snd ab))
                                          (fsub (fst ab) (snd ab))))
            (combine u v) fzero.
Definition euclidean (u v : ndarray) : F := fsqrt (sq_diff_sum u v).

(** [cdist(XA, XB, metric='euclidean')[:,0]]: [cdist] refuses matrices of
    different widths; column 0 of its result holds the distance of every
    row of [XA] to the first row of [XB], and does not exist when [XB] has
    no row. *)
Definition cdist_col0 (XA XB : matrix) : result ndarray :=
  if ncols XA =? ncols XB
  then match XB with
       | [] => Raise IndexError
       | b0 :: _ => Ok (map (fun a => euclidean a b0) XA)
       end
  else Raise ValueError.

End Numpy.

(** ** [pathutils._detect_segments] *)

Section Pathutils.

Context {F : Type} {SF : Scalar F}.
Variable c : constants.

Local Open Scope result_scope.

(** One iteration of the loop over the gates: the segment end of
    [cur_gate]. *)
Definition gate_segment_end (data : matrix) (cur_gate : nat) : result nat :=
  if cur_gate =? G_NUM_GATES c - 1
  then Ok (length data)
  else
    let cur_gate_start := G_GATE_IDX c + cur_gate * 3 in
    let cur_gate_end := cur_gate_start + G_NUM_GATE_DIMS c in
    dist <- cdist_col0 (map (skipn (G_POS_IDX c)) data)
                       (map (slice cur_gate_start cur_gate_end) data) ;;
    np_argmin dist.

Fixpoint detect_loop (data : matrix) (gates : list nat)
         (segment_ends : list nat) : result (list nat) :=
  match gates with
  | [] => Ok segment_ends
  | cur_gate :: rest =>
      closest_epoch <- gate_segment_end data cur_gate ;;
      detect_loop data rest (segment_ends ++ [closest_epoch])
  end.

Definition _detect_segments (data : matrix) : result (list nat) :=
  detect_loop data (seq 0 (G_NUM_GATES c)) [].

End Pathutils.

(** ** [path_correction.py] *)

(** The path loaded by [main] is the one array that other arrays can alias:
    a basic slice of it is a view, and an in-place operation on a view writes
    into the path.  Computations of [path_correction.py] are therefore run
    over the current contents of the path: a computation takes the path and
    either raises or returns a value with the path as it then is. *)
Definition M (F A : Type) : Type :=
  @matrix F -> result (A * @matrix F).

Definition ret {F A : Type} (a : A) : M F A := fun path => Ok (a, path).

Definition bind {F A B : Type} (m : M F A) (k : A -> M F B) : M F B :=
  fun path =>
    match m path with
    | Ok (a, path') => k a path'
    | Raise e => Raise e
    end.

Definition lift {F A : Type} (r : result A) : M F A :=
  fun path =>
    match r with
    | Ok a => Ok (a, path)
    | Raise e => Raise e
    end.

Definition get_path {F : Type} : M F (@matrix F) := fun path => Ok (path, path).
Definition put_path {F : Type} (m : @matrix F) : M F unit := fun _ => Ok (tt, m).

Declare Scope np_scope.
Delimit Scope np_scope with np.
Notation "x <- m ;; k" := (bind m (fun x => k))
  (at level 61, m at next level, right associativity) : np_scope.
Notation "m ;;; k" := (bind m (fun _ => k))
  (at level 61, right associativity) : np_scope.

(** What [new_path] holds: [None] before the first step, the first corrected
    position (a one-dimensional array) after it, and from the second step on
    the matrix built by [np.vstack]. *)
Inductive stacked (F : Type) : Type :=
| Vec (x : @ndarray F)
| Stack (rows : @matrix F).

Arguments Vec {F} x.
Arguments Stack {F} rows.

(** One-dimensional arrays that may alias the path: an array with data of its
    own, or the view [path[i, a:b]]. *)
Inductive array1 (F : Type) : Type :=
| Owned (xs : @ndarray F)
| RowView (i a b : nat).

Arguments Owned {F} xs.
Arguments RowView {F} i a b.

(** The same for matrices: data of its own, or the view [path[lo:hi]]. *)
Inductive array2 (F : Type) : Type :=
| Owned2 (rows : @matrix F)
| RowsView (lo hi : nat).

Arguments Owned2 {F} rows.
Arguments RowsView {F} lo hi.

(** The state of the loop of [main]. *)
Record loop_state (F : Type) : Type := {
  new_path : option (stacked F);
  x_path_offset : @ndarray F;
  v_curr : @ndarray F
}.

Section Arrays.

Context {F : Type} {SF : Scalar F}.

Local Open Scope np_scope.

(** [old[a : a + len(new)] = new], on lists. *)
Definition splice {A : Type} (a : nat) (new old : list A) : list A :=
  firstn a old ++ new ++ skipn (a + length new) old.

Fixpoint update_row (i : nat) (f : @ndarray F -> @ndarray F) (m : @matrix F)
  : @matrix F :=
  match m, i with
  | [], _ => []
  | r :: rest, 0 => f r :: rest
  | r :: rest, S i' => r :: update_row i' f rest
  end.

(** [xs[i]] on a Python list or along an axis of an array. *)
Definition list_item {A : Type} (xs : list A) (i : nat) : result A :=
  match nth_error xs i with
  | Some x => Ok x
  | None => Raise IndexError
  end.

(** [path[i, col]] *)
Definition path_item (i col : nat) : M F F :=
  path <- get_path ;;
  row <- lift (list_item path i) ;;
  lift (list_item row col).

(** [path[i, a:b]], a view. *)
Definition path_row_slice (i a b : nat) : M F (array1 F) :=
  path <- get_path ;;
  if i <? length path then ret (RowView i a b) else lift (Raise IndexError).

(** [path[:-1]], a view. *)
Definition path_but_last : M F (array2 F) :=
  path <- get_path ;;
  ret (RowsView 0 (length path - 1)).

Definition contents (x : array1 F) : M F (@ndarray F) :=
  match x with
  | Owned xs => ret xs
  | RowView i a b => path <- get_path ;; ret (slice a b (nth i path []))
  end.

Definition contents2 (x : array2 F) : M F (@matrix F) :=
  match x with
  | Owned2 rows => ret rows
  | RowsView lo hi => path <- get_path ;; ret (slice lo hi path)
  end.

(** [x.copy()] *)
Definition np_copy (x : array1 F) : M F (array1 F) :=
  xs <- contents x ;; ret (Owned xs).
Definition np_copy2 (x : array2 F) : M F (array2 F) :=
  rows <- contents2 x ;; ret (Owned2 rows).

(** Writing the elements of an array: into its own data, or through a view
    into the path. *)
Definition store (x : array1 F) (r : @ndarray F) : M F (array1 F) :=
  match x with
  | Owned _ => ret (Owned r)
  | RowView i a b =>
      path <- get_path ;;
      put_path (update_row i (splice a r) path) ;;;
      ret x
  end.

Definition store2 (x : array2 F) (rows : @matrix F) : M F (array2 F) :=
  match x with
  | Owned2 _ => ret (Owned2 rows)
  | RowsView lo hi =>
      path <- get_path ;;
      put_path (splice lo rows path) ;;;
      ret x
  end.

(** [x += ys] *)
Definition iadd (x : array1 F) (ys : @ndarray F) : M F (array1 F) :=
  xs <- contents x ;;
  r <- lift (np_iadd xs ys) ;;
  store x r.

(** [np.vstack((new_path, x_new))] *)
Definition np_vstack (np : stacked F) (x_new : @ndarray F)
  : result (stacked F) :=
  match np with
  | Vec u =>
      if length u =? length x_new then Ok (Stack [u; x_new])
      else Raise ValueError
  | Stack rows =>
      if ncols rows =? length x_new then Ok (Stack (rows ++ [x_new]))
      else Raise ValueError
  end.

(** The rows of [new_path]. *)
Definition positions (np : option (stacked F)) : @matrix F :=
  match np with
  | None => []
  | Some (Vec x) => [x]
  | Some (Stack rows) => rows
  end.

(** A row of a value broadcast to the width [w] of the target. *)
Definition fit_width (w : nat) (u : @ndarray F) : result (@ndarray F) :=
  if length u =? w then Ok u
  else if length u =? 1 then Ok (repeat (hd fzero u) w)
  else Raise ValueError.

Fixpoint fit_rows (w : nat) (vs : @matrix F) : result (@matrix F) :=
  match vs with
  | [] => Ok []
  | v :: rest =>
      (v' <- fit_width w v ;;
       rest' <- fit_rows w rest ;;
       Ok (v' :: rest'))%result
  end.

Fixpoint splice_rows (a : nat) (vs rows : @matrix F) : @matrix F :=
  match vs, rows with
  | v :: vs', r :: rows' => splice a v r :: splice_rows a vs' rows'
  | _, _ => []
  end.

(** [rows[:, a:b] = value], the value being broadcast to the target.
    A [None] value is modelled for a target without rows only, which is
    the one case in which [main] assigns it. *)
Definition assign_cols (a b : nat) (rows : @matrix F)
           (value : option (stacked F)) : result (@matrix F) :=
  let w := length (slice a b (hd [] rows)) in
  match value with
  | None =>
      match rows with
      | [] => Ok []
      | _ :: _ => Raise ValueError
      end
  | Some (Vec u) =>
      (u' <- fit_width w u ;; Ok (map (splice a u') rows))%result
  | Some (Stack vs) =>
      (vs' <- fit_rows w vs ;;
       if length vs' =? length rows then Ok (splice_rows a vs' rows)
       else if length vs' =? 1 then Ok (map (splice a (hd [] vs')) rows)
       else Raise ValueError)%result
  end.

(** [x[:, a:b] = value] *)
Definition setitem_cols (x : array2 F) (a b : nat)
           (value : option (stacked F)) : M F (array2 F) :=
  rows <- contents2 x ;;
  rows' <- lift (assign_cols a b rows value) ;;
  store2 x rows'.

End Arrays.

Section PathCorrection.

Context {F : Type} {SF : Scalar F}.

(** [np.sin] and [np.pi]. *)
Variable np_sin : F -> F.
Variable np_pi : F.

Variable c : constants.
Variable p : params F.

Local Open Scope np_scope.

(** The displacement added to the gate position at time [t]:
    [np.array([0.0, 0.02*np.sin(2.0*np.pi*f*t/t_total), 0.0])]. *)
Definition oscillation (t : F) : @ndarray F :=
  let f := gate_freq p in
  [fzero;
   fmul (gate_amp p)
        (np_sin (fdiv (fmul (fmul (fmul (flit 2 1) np_pi) f) t)
                      (t_total p)));
   fzero].

(** [generate_gate_pos(t, path, segment_num)] *)
Definition generate_gate_pos (t : F) (segment_num : nat) : M F (@ndarray F) :=
  let gate_start_col := G_GATE_IDX c + G_NUM_GATE_DIMS c * segment_num in
  let gate_end_col := gate_start_col + G_NUM_POS_DIMS c in
  view <- path_row_slice 0 gate_start_col gate_end_col ;;
  gate_pos <- np_copy view ;;
  gate_pos <- iadd gate_pos (oscillation t) ;;
  contents gate_pos.

(** The search for the current segment: the first [j] with
    [i <= segments[j]], and 0 when there is none. *)
Fixpoint find_segment (segments : list nat) (i j : nat) : nat :=
  match segments with
  | [] => 0
  | s :: rest => if i <=? s then j else find_segment rest i (S j)
  end.

Definition current_segment (segments : list nat) (i : nat) : nat :=
  find_segment segments i 0.

(** The limitation of the acceleration: the norm is clipped and the vector
    is scaled by the ratio of the clipped norm to the norm. *)
Definition limit_acceleration (a_new : @ndarray F) : @ndarray F :=
  let a_new_norm := np_linalg_norm a_new in
  let a_new_norm_clipped :=
    np_clip a_new_norm (fopp (a_max p)) (a_max p) in
  let ratio_unclipped := fdiv a_new_norm_clipped a_new_norm in
  np_scale a_new ratio_unclipped.

(** [path[i, pos_start_col:pos_end_col] + x_path_offset] *)
Definition position_at (i : nat) (offset : @ndarray F) : M F (@ndarray F) :=
  let pos_start_col := G_POS_IDX c in
  let pos_end_col := pos_start_col + G_NUM_POS_DIMS c in
  view <- path_row_slice i pos_start_col pos_end_col ;;
  xs <- contents view ;;
  lift (np_add xs offset).

(** The acceleration computed before it is limited. *)
Definition acceleration (x_new x_curr v_cur : @ndarray F) (dt : F)
  : result (@ndarray F) :=
  (d <- np_sub x_new x_curr ;;
   let v_new := np_divide d dt in
   dv <- np_sub v_new v_cur ;;
   Ok (np_divide dv dt))%result.

(** [segments[seg_idx]], the index at which the target of step [i] is
    read. *)
Definition target_index (segments : list nat) (i : nat) : result nat :=
  list_item segments (current_segment segments i).

(** What a step holds when it has computed the new acceleration. *)
Record kinematics : Type := {
  k_x_curr : @ndarray F;
  k_dx : @ndarray F;
  k_dt : F;
  k_a_new : @ndarray F
}.

(** The body of the loop of [main] for a sample [i] that is not the last
    one, up to the new acceleration. *)
Definition step_kinematics (segments : list nat) (i : nat)
           (st : loop_state F) : M F kinematics :=
  let seg_idx := current_segment segments i in
  ti <- path_item i (G_TIME_IDX c) ;;
  let t_curr := fmul ti (t_total p) in
  tn <- path_item (i + 1) (G_TIME_IDX c) ;;
  let t_next := fmul tn (t_total p) in
  x_curr <- position_at i (x_path_offset st) ;;
  x_next <- position_at (i + 1) (x_path_offset st) ;;
  let dt := fsub t_next t_curr in
  dx <- lift (np_sub x_next x_curr) ;;
  let v := np_divide dx dt in
  seg_end <- lift (target_index segments i) ;;
  x_target <- position_at seg_end (x_path_offset st) ;;
  x_gate <- generate_gate_pos t_curr seg_idx ;;
  shift <- lift (np_sub x_gate x_target) ;;
  x_new <- lift (np_add x_next shift) ;;
  a_new <- lift (acceleration x_new x_curr (v_curr st) dt) ;;
  ret {| k_x_curr := x_curr; k_dx := dx; k_dt := dt; k_a_new := a_new |}.

(** The rest of the body: the acceleration is limited, velocity and
    position are integrated again, and the state is updated. *)
Definition step_update (st : loop_state F) (k : kinematics)
  : result (loop_state F) :=
  (let x_curr := k_x_curr k in
   let dx := k_dx k in
   let dt := k_dt k in
   let a_new := limit_acceleration (k_a_new k) in
   let dv_new := np_scale a_new dt in
   v_new <- np_add (v_curr st) dv_new ;;
   let dx_new := np_scale v_new dt in
   x_new <- np_add x_curr dx_new ;;
   new_path' <- match new_path st with
                | None => Ok (Vec x_new)
                | Some np => np_vstack np x_new
                end ;;
   delta <- np_sub dx_new dx ;;
   offset' <- np_iadd (x_path_offset st) delta ;;
   Ok {| new_path := Some new_path';
         x_path_offset := offset';
         v_curr := v_new |})%result.

Definition correction_step (segments : list nat) (i : nat)
           (st : loop_state F) : M F (loop_state F) :=
  k <- step_kinematics segments i st ;;
  lift (step_update st k).

(** [for i, _ in enumerate(path)], the last sample being skipped. *)
Fixpoint main_loop (segments : list nat) (n : nat) (indices : list nat)
         (st : loop_state F) : M F (loop_state F) :=
  match indices with
  | [] => ret st
  | i :: rest =>
      if i =? n - 1
      then main_loop segments n rest st
      else st' <- correction_step segments i st ;;
           main_loop segments n rest st'
  end.

Definition initial_state : loop_state F :=
  {| new_path := None;
     x_path_offset := [fzero; fzero; fzero];
     v_curr := [fzero; fzero; fzero] |}.

(** [main], from the loaded path on and up to the assignment to
    [full_path]: the result is [new_path] and the matrix [full_path] handed
    to [display_path].  The call of [display_path] that follows is in
    [main_with_display]. *)
Definition main : M F (option (stacked F) * @matrix F) :=
  path <- get_path ;;
  segments <- lift (_detect_segments c path) ;;
  let pos_start_col := G_POS_IDX c in
  let pos_end_col := pos_start_col + G_NUM_POS_DIMS c in
  st <- main_loop segments (length path) (seq 0 (length path))
                  initial_state ;;
  view <- path_but_last ;;
  full_path <- np_copy2 view ;;
  full_path <- setitem_cols full_path pos_start_col pos_end_col
                            (new_path st) ;;
  rows <- contents2 full_path ;;
  ret (new_path st, rows).

End PathCorrection.

(** ** The two arithmetics *)

Definition float_of_Z (z : Z) : float :=
  if (z <? 0)%Z
  then PrimFloat.opp (PrimFloat.of_uint63 (Uint63.of_Z (- z)))
  else PrimFloat.of_uint63 (Uint63.of_Z z).

(** IEEE-754 binary64. *)
#[export] Instance float_scalar : Scalar float := {
  fzero := 0%float;
  fadd := PrimFloat.add;
  fsub := PrimFloat.sub;
  fmul := PrimFloat.mul;
  fdiv := PrimFloat.div;
  fopp := PrimFloat.opp;
  fsqrt := PrimFloat.sqrt;
  fltb := PrimFloat.ltb;
  fleb := PrimFloat.leb;
  fisnan := PrimFloat.is_nan;
  flit := fun n d => PrimFloat.div (float_of_Z n) (float_of_Z d)
}.

(** The real numbers. *)
#[export] Instance real_scalar : Scalar R := {
  fzero := 0%R;
  fadd := Rplus;
  fsub := Rminus;
  fmul := Rmult;
  fdiv := Rdiv;
  fopp := Ropp;
  fsqrt := R_sqrt.sqrt;
  fltb := fun x y => if Rlt_dec x y then true else false;
  fleb := fun x y => if Rle_dec x y then true else false;
  fisnan := fun _ => false;
  flit := fun n d => (IZR n / IZR d)%R
}.

(** The settings written in [path_correction.py]: [t_total = 20.0],
    [a_max = 1.0], amplitude [0.02], [f = 4.0]. *)
Definition source_params {F : Type} {SF : Scalar F} : params F :=
  {| t_total := flit 20 1;
     a_max := flit 1 1;
     gate_amp := flit 2 100;
     gate_freq := flit 4 1 |}.

(** ** The widths of the column slices *)

(** In a matrix of width [w], the width of the slice
    [data[:, G_POS_IDX:]] and of the slice of gate [g] that
    [_detect_segments] hands to [cdist]: a slice that runs past the last
    column is cut there. *)
Definition tooltip_width (c : constants) (w : nat) : nat := w - G_POS_IDX c.

Definition gate_width (c : constants) (w g : nat) : nat :=
  Nat.min (G_NUM_GATE_DIMS c) (w - (G_GATE_IDX c + g * 3)).

(** ** The recurrence when nothing raises *)

Section Recurrence.

Context {F : Type} {SF : Scalar F}.
Variable np_sin : F -> F.
Variable np_pi : F.
Variable c : constants.
Variable p : params F.
Variable path : @matrix F.

(** The tooltip position, the time and the position of gate [s] recorded
    in a sample. *)
Definition tooltip_of (i : nat) : @ndarray F :=
  slice (G_POS_IDX c) (G_POS_IDX c + G_NUM_POS_DIMS c) (nth i path []).

Definition time_of (i : nat) : F :=
  nth (G_TIME_IDX c) (nth i path []) fzero.

Definition gate_of (i s : nat) : @ndarray F :=
  slice (G_GATE_IDX c + G_NUM_GATE_DIMS c * s)
        (G_GATE_IDX c + G_NUM_GATE_DIMS c * s + G_NUM_POS_DIMS c)
        (nth i path []).

(** Every sample holds the time, three coordinates for each gate and three
    coordinates for the tooltip at the configured columns. *)
Definition wf_layout : Prop :=
  G_NUM_POS_DIMS c = 3 /\
  Forall (fun row : @ndarray F =>
            G_TIME_IDX c < length row
            /\ G_POS_IDX c + 3 <= length row
            /\ forall s, s < G_NUM_GATES c ->
                  G_GATE_IDX c + G_NUM_GATE_DIMS c * s + 3 <= length row)
         path.

(** The distance that [_detect_segments] computes for gate [g] and sample
    [j]: from the columns of sample [j] from [G_POS_IDX] on to the slice of
    gate [g] in the first sample. *)
Definition gate_distance (g j : nat) : F :=
  euclidean (skipn (G_POS_IDX c) (nth j path []))
            (slice (G_GATE_IDX c + g * 3)
                   (G_GATE_IDX c + g * 3 + G_NUM_GATE_DIMS c)
                   (nth 0 path [])).

(** The recorded position of sample [i + 1], moved by the difference
    between the recorded position of the gate of step [i] and the recorded
    tooltip position at the end of its segment. *)
Definition shifted_position (segments : list nat) (i : nat) : @ndarray F :=
  let seg_idx := current_segment segments i in
  zip_with fadd (tooltip_of (i + 1))
           (zip_with fsub (gate_of 0 seg_idx)
                     (tooltip_of (nth seg_idx segments 0))).

(** A step is in range when its successor and its target are samples. *)
Definition in_range (segments : list nat) (i : nat) : Prop :=
  i + 1 < length path
  /\ exists e, target_index segments i = Ok e /\ e < length path.

(** [step_kinematics] for a step whose target is read at index [seg_end],
    on arrays of three coordinates. *)
Definition pure_kinematics (segments : list nat) (i seg_end : nat)
           (st : loop_state F) : kinematics :=
  let seg_idx := current_segment segments i in
  let t_curr := fmul (time_of i) (t_total p) in
  let t_next := fmul (time_of (i + 1)) (t_total p) in
  let x_curr := zip_with fadd (tooltip_of i) (x_path_offset st) in
  let x_next := zip_with fadd (tooltip_of (i + 1)) (x_path_offset st) in
  let dt := fsub t_next t_curr in
  let dx := zip_with fsub x_next x_curr in
  let x_target := zip_with fadd (tooltip_of seg_end) (x_path_offset st) in
  let x_gate :=
    zip_with fadd (gate_of 0 seg_idx) (oscillation np_sin np_pi p t_curr) in
  let x_new := zip_with fadd x_next (zip_with fsub x_gate x_target) in
  let v_new := np_divide (zip_with fsub x_new x_curr) dt in
  let a_new := np_divide (zip_with fsub v_new (v_curr st)) dt in
  {| k_x_curr := x_curr; k_dx := dx; k_dt := dt; k_a_new := a_new |}.

(** [new_path] with one more position. *)
Definition push_position (np : option (stacked F)) (x : @ndarray F)
  : stacked F :=
  match np with
  | None => Vec x
  | Some (Vec u) => Stack [u; x]
  | Some (Stack rows) => Stack (rows ++ [x])
  end.

(** The velocity and the position integrated again from the limited
    acceleration. *)
Definition pure_velocity (st : loop_state F) (k : kinematics) : @ndarray F :=
  zip_with fadd (v_curr st)
           (np_scale (limit_acceleration p (k_a_new k)) (k_dt k)).

Definition pure_position (st : loop_state F) (k : kinematics) : @ndarray F :=
  zip_with fadd (k_x_curr k) (np_scale (pure_velocity st k) (k_dt k)).

(** [step_update] on arrays of three coordinates. *)
Definition pure_update (st : loop_state F) (k : kinematics) : loop_state F :=
  let v_new := pure_velocity st k in
  let dx_new := np_scale v_new (k_dt k) in
  {| new_path := Some (push_position (new_path st) (pure_position st k));
     x_path_offset :=
       zip_with fadd (x_path_offset st) (zip_with fsub dx_new (k_dx k));
     v_curr := v_new |}.

(** The rows of [new_path] are positions of three coordinates. *)
Definition positions_wf (np : option (stacked F)) : Prop :=
  match np with
  | None => True
  | Some (Vec u) => length u = 3
  | Some (Stack rows) => ncols rows = 3 /\ Forall (fun x => length x = 3) rows
  end.

Definition state_wf (st : loop_state F) : Prop :=
  length (x_path_offset st) = 3 /\ length (v_curr st) = 3
  /\ positions_wf (new_path st).

End Recurrence.

(** ** The limitation left inactive *)

(** The settings of the scenario with a gate that does not move:
    [t_total = 20.0], [a_max = 100.0], amplitude [0.0], [f = 4.0]. *)
Definition still_gate_params {F : Type} {SF : Scalar F} : params F :=
  {| t_total := flit 20 1;
     a_max := flit 100 1;
     gate_amp := fzero;
     gate_freq := flit 4 1 |}.

(** In exact arithmetic: every step of the loop over [indices] computes,
    with a time step that is not zero, an acceleration whose norm is
    positive and at most [a_max], so that the limitation changes nothing. *)
Fixpoint clamp_inactive (c : constants) (p : params R) (segments : list nat)
         (n : nat) (indices : list nat) (st : loop_state R)
         (path : @matrix R) : Prop :=
  match indices with
  | [] => True
  | i :: rest =>
      if i =? n - 1
      then clamp_inactive c p segments n rest st path
      else
        match step_kinematics Rtrigo_def.sin PI c p segments i st path with
        | Ok (k, _) =>
            k_dt k <> 0%R
            /\ (0 < np_linalg_norm (k_a_new k) <= a_max p)%R
            /\ match step_update p st k with
               | Ok st' => clamp_inactive c p segments n rest st' path
               | Raise _ => False
               end
        | Raise _ => False
        end
  end.

(** ** Sample configurations and paths *)

(** The layout [[time, gate_1 .. gate_G (3 each), tooltip position (3)]] for
    one gate and for two gates. *)
Definition one_gate : constants :=
  {| G_TIME_IDX := 0; G_GATE_IDX := 1; G_NUM_GATE_DIMS := 3;
     G_NUM_GATES := 1; G_POS_IDX := 4; G_NUM_POS_DIMS := 3 |}.

Definition two_gates : constants :=
  {| G_TIME_IDX := 0; G_GATE_IDX := 1; G_NUM_GATE_DIMS := 3;
     G_NUM_GATES := 2; G_POS_IDX := 7; G_NUM_POS_DIMS := 3 |}.

(** Three samples at times 0, 0.5, 1, one gate at the origin, the tooltip
    moving from (0,0,0) over (1,0,0) to (2,0,0). *)
Definition straight_path : @matrix float :=
  [ [0; 0; 0; 0; 0; 0; 0];
    [0.5; 0; 0; 0; 1; 0; 0];
    [1; 0; 0; 0; 2; 0; 0] ]%float.

(** The same tooltip path with two gates: the first gate at the origin, where
    the tooltip starts, the second at (2,0,0), where it ends. *)
Definition two_gate_path : @matrix float :=
  [ [0; 0; 0; 0; 2; 0; 0; 0; 0; 0];
    [0.5; 0; 0; 0; 2; 0; 0; 1; 0; 0];
    [1; 0; 0; 0; 2; 0; 0; 2; 0; 0] ]%float.

(** Two samples at times [t0] and [t1] with two gates, the first gate at
    (0,1,0), the tooltip moving from (0,0,0) to (1,0,0). *)
Definition two_sample_path (t0 t1 : R) : @matrix R :=
  [ [t0; 0; 1; 0; 9; 9; 9; 0; 0; 0];
    [t1; 0; 1; 0; 9; 9; 9; 1; 0; 0] ]%R.

(** Three samples with two gates; samples 1 and 2 are at the same distance
    from the first gate, and nearer to it than sample 0. *)
Definition tie_path : @matrix float :=
  [ [0; 0; 0; 0; 9; 9; 9; 5; 0; 0];
    [0.5; 0; 0; 0; 9; 9; 9; 0; 1; 0];
    [1; 0; 0; 0; 9; 9; 9; 1; 0; 0] ]%float.

(** The path with the tie over the real numbers. *)
Definition tie_path_real : @matrix R :=
  [ [0; 0; 0; 0; 9; 9; 9; 5; 0; 0];
    [1 / 2; 0; 0; 0; 9; 9; 9; 0; 1; 0];
    [1; 0; 0; 0; 9; 9; 9; 1; 0; 0] ]%R.

(** A zero of either sign. *)
Definition signed_zero (negative : bool) : float :=
  if negative then (-0)%float else 0%float.

(** ** When [main] returns *)

(** A gate other than the last whose segment ends at one of the last two
    samples of the path. *)
Definition late_gate {F : Type} (c : constants) (path : @matrix F)
           (segments : list nat) : Prop :=
  exists g e, g + 1 < G_NUM_GATES c /\ nth_error segments g = Some e
              /\ length path - 2 <= e.

(** Two samples with two gates; the first gate is at (1,0,0), the position
    that the tooltip reaches at sample 1. *)
Definition gate_reached_path : @matrix R :=
  [ [0; 1; 0; 0; 9; 9; 9; 0; 0; 0];
    [1; 1; 0; 0; 9; 9; 9; 1; 0; 0] ]%R.

(** ** [pathutils.normalize_time] *)

Section NormalizeTime.

Context {F : Type} {SF : Scalar F}.

Local Open Scope np_scope.

(** [np.min] and [np.max] of a one-dimensional array: the reductions of
    [np.minimum] and of [np.maximum] from the left, which keep a NaN once
    they have met one; an array without elements has no minimum and no
    maximum. *)
Definition np_min (xs : @ndarray F) : result F :=
  match xs with
  | [] => Raise ValueError
  | x :: rest => Ok (fold_left np_minimum rest x)
  end.

Definition np_max (xs : @ndarray F) : result F :=
  match xs with
  | [] => Raise ValueError
  | x :: rest => Ok (fold_left np_maximum rest x)
  end.

(** [data[:, col]].  A matrix without rows has no width here and is given
    the width 0, so that no index is one of its columns; numpy keeps the
    width of such a matrix, and on a column that exists it is [np.min] that
    raises, with [ValueError]. *)
Definition column (data : @matrix F) (col : nat) : result (@ndarray F) :=
  if col <? ncols data
  then Ok (map (fun row => nth col row fzero) data)
  else Raise IndexError.

(** [data[:, col] = values], for an array [values] of one value for each
    row, as the column of [data] itself gives it. *)
Definition set_column (col : nat) (values : @ndarray F) (data : @matrix F)
  : @matrix F :=
  splice_rows col (map (fun x => [x]) values) data.

(** [normalize_time(data, t_col)], run with the array [data] as the store:
    the function writes twice into the column [t_col] of the array it is
    given and returns that array. *)
Definition normalize_time (t_col : nat) : M F (@matrix F) :=
  data <- get_path ;;
  col <- lift (column data t_col) ;;
  lo <- lift (np_min col) ;;
  put_path (set_column t_col (map (fun x => fsub x lo) col) data) ;;;
  data <- get_path ;;
  col <- lift (column data t_col) ;;
  hi <- lift (np_max col) ;;
  put_path (set_column t_col (map (fun x => fdiv x hi) col) data) ;;;
  get_path.

End NormalizeTime.

(** Two samples of two columns, the time in column 0: the times 2 and 4. *)
Definition two_times : @matrix R := [ [2; 5]; [4; 6] ]%R.

(** ** The training loop of [network.train_lt_network] *)

(** The variables of the loop: the fitness values seen so far, the greatest
    of them with the iteration that gave it, the index of the iteration and
    the count of consecutive iterations over the threshold. *)
Record training (F : Type) : Type := {
  fitness_list : list F;
  max_fitness : option F;
  max_fitness_epoch : option nat;
  idx : nat;
  current_convergence_streak : nat
}.

Section Training.

Context {F : Type} {SF : Scalar F}.

(** The parameters of the convergence test. *)
Definition MAX_ITERATIONS : nat := 30.
Definition CONVERGENCE_THRESHOLD : F := fopp (flit 5 100000).
Definition REQUIRED_CONVERGENCE_STREAK : nat := 10.

(** The trainer, the network and the plot are PyBrain's and matplotlib's.
    The loop is run over [fitness], the value that
    [trainer.evaluation.max_fitness] has after the call of [trainer.train()]
    in the iteration of each index. *)
Variable fitness : nat -> F.

(** One iteration of [while True]: the state it leaves, and whether the
    loop is left by one of the two [break]s. *)
Definition train_iteration (st : training F) : training F * bool :=
  let current_fitness := fitness (idx st) in
  let fitness_list' := fitness_list st ++ [current_fitness] in
  let is_max :=
    match max_fitness st with
    | None => true
    | Some m => fltb m current_fitness
    end in
  let max_fitness' :=
    if is_max then Some current_fitness else max_fitness st in
  let max_fitness_epoch' :=
    if is_max then Some (idx st) else max_fitness_epoch st in
  let streak :=
    if fltb CONVERGENCE_THRESHOLD current_fitness
    then current_convergence_streak st + 1
    else 0 in
  let st' := {| fitness_list := fitness_list';
                max_fitness := max_fitness';
                max_fitness_epoch := max_fitness_epoch';
                idx := idx st;
                current_convergence_streak := streak |} in
  if streak =? REQUIRED_CONVERGENCE_STREAK then (st', true)
  else if idx st =? MAX_ITERATIONS - 1 then (st', true)
  else ({| fitness_list := fitness_list';
           max_fitness := max_fitness';
           max_fitness_epoch := max_fitness_epoch';
           idx := idx st + 1;
           current_convergence_streak := streak |}, false).

(** The loop, for at most [fuel] iterations. *)
Fixpoint train_loop (fuel : nat) (st : training F) : option (training F) :=
  match fuel with
  | 0 => None
  | S fuel' =>
      let (st', stop) := train_iteration st in
      if stop then Some st' else train_loop fuel' st'
  end.

Definition initial_training : training F :=
  {| fitness_list := [];
     max_fitness := None;
     max_fitness_epoch := None;
     idx := 0;
     current_convergence_streak := 0 |}.

(** The fitness of iteration [j] is over the threshold. *)
Definition above_threshold (j : nat) : Prop :=
  fltb CONVERGENCE_THRESHOLD (fitness j) = true.

(** Iteration [n] ends a run of [REQUIRED_CONVERGENCE_STREAK] iterations
    whose fitness is over the threshold. *)
Definition converged_at (n : nat) : Prop :=
  REQUIRED_CONVERGENCE_STREAK <= n + 1
  /\ forall j, n + 1 - REQUIRED_CONVERGENCE_STREAK <= j -> j <= n ->
               above_threshold j.

(** What holds at the head of an iteration. *)
Definition training_inv (st : training F) : Prop :=
  idx st < MAX_ITERATIONS
  /\ fitness_list st = map fitness (seq 0 (idx st))
  /\ current_convergence_streak st < REQUIRED_CONVERGENCE_STREAK
  /\ current_convergence_streak st <= idx st
  /\ (forall j, idx st - current_convergence_streak st <= j -> j < idx st ->
                above_threshold j)
  /\ (current_convergence_streak st < idx st ->
      ~ above_threshold (idx st - current_convergence_streak st - 1))
  /\ (forall n, n < idx st -> ~ converged_at n)
  /\ match max_fitness_epoch st with
     | None => idx st = 0 /\ max_fitness st = None
     | Some e => e < idx st /\ max_fitness st = Some (fitness e)
     end.

(** What holds when the loop is left. *)
Definition training_end (st : training F) : Prop :=
  idx st < MAX_ITERATIONS
  /\ fitness_list st = map fitness (seq 0 (idx st + 1))
  /\ (converged_at (idx st) \/ idx st = MAX_ITERATIONS - 1)
  /\ (current_convergence_streak st = REQUIRED_CONVERGENCE_STREAK
      <-> converged_at (idx st))
  /\ (forall n, n < idx st -> ~ converged_at n)
  /\ exists e, max_fitness_epoch st = Some e /\ e <= idx st
               /\ max_fitness st = Some (fitness e).

End Training.

(** ** The interactive functions of [pathutils] *)

(** What the interactive functions can raise: an exception of numpy, the
    [AssertionError] of [display_path], and the [EOFError] of [raw_input]
    at the end of the input. *)
Inductive exception : Type :=
| Numpy (e : exn)
| AssertionError
| EOFError.

Inductive outcome (A : Type) : Type :=
| Done (a : A)
| Failed (e : exception).

Arguments Done {A} a.
Arguments Failed {A} e.

Definition obind {A B : Type} (r : outcome A) (k : A -> outcome B)
  : outcome B :=
  match r with
  | Done a => k a
  | Failed e => Failed e
  end.

Declare Scope outcome_scope.
Delimit Scope outcome_scope with outcome.
Notation "x <- r ;; k" := (obind r (fun x => k))
  (at level 61, r at next level, right associativity) : outcome_scope.

Definition of_result {A : Type} (r : result A) : outcome A :=
  match r with
  | Ok a => Done a
  | Raise e => Failed (Numpy e)
  end.

(** [display_path(axis, path, ...)]: the assertion [len(path) > 0].  The
    drawing that follows it is matplotlib's and [datastore.split_data]'s; it
    is not modelled and is taken to return and to leave its arguments as
    they are. *)
Definition display_path {F : Type} (path : @matrix F) : outcome unit :=
  if 0 <? length path then Done tt else Failed AssertionError.

(** *** [pathutils.rate_segments] *)

Section RateSegments.

Context {F : Type} {SF : Scalar F}.
Variable c : constants.

Local Open Scope outcome_scope.

(** The console: for each line that the user will type, [Some r] when the
    line is the notation of the float [r], and [None] when [float] raises
    [ValueError] on it. *)
Definition console : Type := list (option F).

(** A line that the loop [while True] accepts: the notation of a float
    [rating] with neither [rating < 0.0] nor [rating > 1.0]. *)
Definition accepted (line : option F) : bool :=
  match line with
  | None => false
  | Some rating => negb (fltb rating fzero || fltb (flit 1 1) rating)
  end.

(** The loop [while True] up to its accepted rating: lines are read until
    one is accepted. *)
Fixpoint ask_rating (lines : console) : outcome (F * console) :=
  match lines with
  | [] => Failed EOFError
  | line :: rest =>
      match line with
      | None => ask_rating rest
      | Some rating =>
          if fltb rating fzero || fltb (flit 1 1) rating
          then ask_rating rest
          else Done (rating, rest)
      end
  end.

(** [rating * np.ones((n, 1))]; a negative [n] is refused by [np.ones]. *)
Definition segment_rating (rating : F) (segment_start segment_end : nat)
  : outcome (@matrix F) :=
  if segment_end <? segment_start then Failed (Numpy ValueError)
  else Done (repeat [fmul rating (flit 1 1)] (segment_end - segment_start)).

(** The loop over the segment ends. *)
Fixpoint rate_loop (data : @matrix F) (segment_ends : list nat)
         (segment_start : nat) (ratings : option (@matrix F))
         (lines : console) : outcome (option (@matrix F) * console) :=
  match segment_ends with
  | [] => Done (ratings, lines)
  | segment_end :: rest =>
      _ <- display_path (slice segment_start segment_end data) ;;
      answer <- ask_rating lines ;;
      rows <- segment_rating (fst answer) segment_start segment_end ;;
      let ratings' :=
        match ratings with
        | None => rows
        | Some above => above ++ rows
        end in
      rate_loop data rest segment_end (Some ratings') (snd answer)
  end.

(** [np.hstack((data, ratings))] for a matrix [data]: [ratings] has to be a
    matrix with as many rows. *)
Definition np_hstack (data : @matrix F) (ratings : option (@matrix F))
  : result (@matrix F) :=
  match ratings with
  | None => Raise ValueError
  | Some rows =>
      if length rows =? length data
      then Ok (map (fun ab => fst ab ++ snd ab) (combine data rows))
      else Raise ValueError
  end.

(** [rate_segments(data)] on the console [lines]: the matrix returned and
    the lines not read. *)
Definition rate_segments (data : @matrix F) (lines : console)
  : outcome (@matrix F * console) :=
  segment_ends <- of_result (_detect_segments c data) ;;
  rated <- rate_loop data segment_ends 0 None lines ;;
  rows <- of_result (np_hstack data (fst rated)) ;;
  Done (rows, snd rated).

End RateSegments.

(** *** The segments that [rate_segments] rates *)

(** The start of segment [g] in a loop that starts at [segment_start]: the
    end of the segment before it. *)
Definition start_from (segment_start : nat) (segment_ends : list nat)
           (g : nat) : nat :=
  match g with
  | 0 => segment_start
  | S g' => nth g' segment_ends 0
  end.

Definition segment_start_of (segment_ends : list nat) (g : nat) : nat :=
  start_from 0 segment_ends g.

(** The rows that the loop of [rate_segments] stacks for the ratings
    [ratings] of the segments: the rating of a segment once for each of its
    samples. *)
Fixpoint rating_column {F : Type} {SF : Scalar F} (segment_start : nat)
         (segment_ends : list nat) (ratings : list F) : @matrix F :=
  match segment_ends, ratings with
  | segment_end :: ends, rating :: rest =>
      repeat [fmul rating (flit 1 1)] (segment_end - segment_start)
      ++ rating_column segment_end ends rest
  | _, _ => []
  end.

(** The rows of [ratings], which is [None] before the first segment. *)
Definition rows_of {F : Type} (ratings : option (@matrix F)) : @matrix F :=
  match ratings with
  | None => []
  | Some rows => rows
  end.

(** *** [pathutils.trim_path] *)

(** The module-level variables of [trim_path], which its handlers and the
    function itself read and write. *)
Record trim_globals : Type := {
  __g_start_trim_index : Z;
  __g_end_trim_index : Z;
  __g_trim_ok : bool
}.

(** Their values when the module is loaded. *)
Definition module_globals : trim_globals :=
  {| __g_start_trim_index := 0;
     __g_end_trim_index := 0;
     __g_trim_ok := false |}.

(** What the user does while [plt.show()] runs: a slider is moved to a
    value [val], given here by the integer [int(round(val))] that the
    handler computes from it, or the button is clicked. *)
Inductive event : Type :=
| StartSlider (rounded : Z)
| EndSlider (rounded : Z)
| TrimButton.

Section TrimPath.

Context {F : Type}.

(** A bound of the slice [xs[a:b]] of a sequence of length [len], for
    integers: a negative bound counts from the end, and a bound outside the
    sequence is moved to its nearer end. *)
Definition slice_bound (len : nat) (k : Z) : nat :=
  if (k <? 0)%Z then Z.to_nat (Z.max 0 (k + Z.of_nat len))
  else Nat.min (Z.to_nat k) len.

Definition py_slice {A : Type} (a b : Z) (xs : list A) : list A :=
  slice (slice_bound (length xs) a) (slice_bound (length xs) b) xs.

Variable path : @matrix F.

(** The three handlers: each leaves the variables as it has set them, also
    when [display_path] then raises. *)
Definition start_changed (rounded : Z) (g : trim_globals)
  : trim_globals * outcome unit :=
  let g' := {| __g_start_trim_index := rounded;
               __g_end_trim_index := __g_end_trim_index g;
               __g_trim_ok := __g_trim_ok g |} in
  (g', display_path (py_slice (__g_start_trim_index g')
                              (__g_end_trim_index g') path)).

Definition end_changed (rounded : Z) (g : trim_globals)
  : trim_globals * outcome unit :=
  let g' := {| __g_start_trim_index := __g_start_trim_index g;
               __g_end_trim_index := rounded;
               __g_trim_ok := __g_trim_ok g |} in
  (g', display_path (py_slice (__g_start_trim_index g')
                              (__g_end_trim_index g') path)).

Definition button_clicked (g : trim_globals) : trim_globals * outcome unit :=
  ({| __g_start_trim_index := __g_start_trim_index g;
      __g_end_trim_index := __g_end_trim_index g;
      __g_trim_ok := true |}, Done tt).

Definition handle (ev : event) (g : trim_globals)
  : trim_globals * outcome unit :=
  match ev with
  | StartSlider rounded => start_changed rounded g
  | EndSlider rounded => end_changed rounded g
  | TrimButton => button_clicked g
  end.

(** [plt.show()]: the handlers are called for the events in their order.
    An exception of a handler is taken to end [plt.show()] and to be
    raised by it; what a backend of matplotlib does with it is not
    modelled. *)
Fixpoint plt_show (events : list event) (g : trim_globals)
  : trim_globals * outcome unit :=
  match events with
  | [] => (g, Done tt)
  | ev :: rest =>
      let (g', r) := handle ev g in
      match r with
      | Done _ => plt_show rest g'
      | Failed e => (g', Failed e)
      end
  end.

(** [trim_path(path)] with the user's events, from the module variables
    [g]: the variables it leaves, and what it returns. *)
Definition trim_path (events : list event) (g : trim_globals)
  : trim_globals * outcome (@matrix F) :=
  let g0 := {| __g_start_trim_index := 0;
               __g_end_trim_index := Z.of_nat (length path) - 1;
               __g_trim_ok := __g_trim_ok g |} in
  match display_path path with
  | Failed e => (g0, Failed e)
  | Done _ =>
      let (g1, r) := plt_show events g0 in
      match r with
      | Failed e => (g1, Failed e)
      | Done _ =>
          (g1, Done (if __g_trim_ok g1
                     then py_slice (__g_start_trim_index g1)
                                   (__g_end_trim_index g1) path
                     else path))
      end
  end.

End TrimPath.

(** The button is among the events. *)
Definition clicked (events : list event) : bool :=
  existsb (fun ev => match ev with TrimButton => true | _ => false end)
          events.

(** The values that the sliders have set last, from the values [s] and
    [e]. *)
Fixpoint slider_values (events : list event) (s e : Z) : Z * Z :=
  match events with
  | [] => (s, e)
  | StartSlider rounded :: rest => slider_values rest rounded e
  | EndSlider rounded :: rest => slider_values rest s rounded
  | TrimButton :: rest => slider_values rest s e
  end.


(** ** The exact value of a float *)

(** The real number that a finite binary64 value stands for; a zero of
    either sign stands for 0. *)
Definition float_to_R (x : float) : R :=
  match Prim2SF x with
  | S754_finite s m e =>
      ((if s then -1 else 1) * IZR (Zpos m) * powerRZ 2 e)%R
  | _ => 0%R
  end.

(** The binary64 values nearest to 0.1 and to 0.3. *)
Definition tenth : float := 0x1.999999999999ap-4%float.
Definition three_tenths : float := 0x1.3333333333333p-2%float.

(** Two samples with two gates, the first gate at the origin.  The tooltip
    is at (0.1, 0.3, 0.1) in sample 0 and at (0.1, 0.1, 0.3) in sample 1:
    the same coordinates in another order. *)
Definition tie_perm : @matrix float :=
  [ [0; 0; 0; 0; 9; 9; 9; tenth; three_tenths; tenth];
    [1; 0; 0; 0; 9; 9; 9; tenth; tenth; three_tenths] ]%float.

(** Two samples with the same timestamp 0 and two gates, the first gate at
    (0,1,0), the tooltip moving from (0,0,0) to (1,0,0). *)
Definition same_time_path : @matrix float :=
  [ [0; 0; 1; 0; 9; 9; 9; 0; 0; 0];
    [0; 0; 1; 0; 9; 9; 9; 1; 0; 0] ]%float.

(** ** [main] with the call of [display_path] at its end *)

(** [main] up to [pathutils.display_path(axis, full_path, title='Path')]:
    what [main] has computed when the assertion of [display_path] holds,
    and its [AssertionError] when [full_path] has no row. *)
Definition main_with_display {F : Type} {SF : Scalar F} (np_sin : F -> F)
           (np_pi : F) (c : constants) (p : params F) (path : @matrix F)
  : outcome ((option (stacked F) * @matrix F) * @matrix F) :=
  (r <- of_result (main np_sin np_pi c p path) ;;
   _ <- display_path (snd (fst r)) ;;
   Done r)%outcome.

(** * Properties *)

(** ** Basic facts about the monads and the array operations *)

Section MonadFacts.

Context {F : Type}.

Lemma bind_ok {A B : Type} (m : M F A) (k : A -> M F B) path a path' :
  m path = Ok (a, path') -> bind m k path = k a path'.
Proof. intros H. unfold bind. rewrite H. reflexivity. Qed.

Lemma bind_raise {A B : Type} (m : M F A) (k : A -> M F B) path e :
  m path = Raise e -> bind m k path = Raise e.
Proof. intros H. unfold bind. rewrite H. reflexivity. Qed.

Lemma bind_inv {A B : Type} (m : M F A) (k : A -> M F B) path r :
  bind m k path = Ok r ->
  exists a path', m path = Ok (a, path') /\ k a path' = Ok r.
Proof.
  unfold bind. destruct (m path) as [[a path']|e]; intros H.
  - exists a, path'. split; [reflexivity | exact H].
  - discriminate H.
Qed.

Lemma lift_inv {A : Type} (r : result A) path a path' :
  lift (F := F) r path = Ok (a, path') -> r = Ok a /\ path' = path.
Proof.
  unfold lift. destruct r; intros H; inversion H; subst; auto.
Qed.

Lemma lift_ok {A : Type} (r : result A) (path : @matrix F) a :
  r = Ok a -> lift r path = Ok (a, path).
Proof. intros ->. reflexivity. Qed.

Lemma rbind_inv {A B : Type} (r : result A) (k : A -> result B) b :
  rbind r k = Ok b -> exists a, r = Ok a /\ k a = Ok b.
Proof.
  destruct r as [a|e]; simpl; intros H; [eauto | discriminate].
Qed.

End MonadFacts.

Section NumpyFacts.

Context {F : Type} {SF : Scalar F}.

Lemma zip_with_length (op : F -> F -> F) xs ys :
  length (zip_with op xs ys) = Nat.min (length xs) (length ys).
Proof.
  revert ys. induction xs as [|x xs IH]; intros [|y ys]; simpl; auto.
Qed.

Lemma broadcast_same (op : F -> F -> F) xs ys :
  length xs = length ys -> broadcast op xs ys = Ok (zip_with op xs ys).
Proof.
  intros H. unfold broadcast. rewrite H, Nat.eqb_refl. reflexivity.
Qed.

Lemma broadcast_length3 (op : F -> F -> F) xs ys r :
  length xs = 3 \/ length ys = 3 ->
  broadcast op xs ys = Ok r -> length r = 3.
Proof.
  unfold broadcast. intros H.
  destruct (Nat.eqb_spec (length xs) (length ys)) as [E|E].
  - intros [= <-]. rewrite zip_with_length. lia.
  - destruct (Nat.eqb_spec (length xs) 1) as [E1|E1].
    + intros [= <-]. rewrite length_map. lia.
    + destruct (Nat.eqb_spec (length ys) 1) as [E2|E2].
      * intros [= <-]. rewrite length_map. lia.
      * discriminate.
Qed.

Lemma np_iadd_length (xs ys r : @ndarray F) :
  np_iadd xs ys = Ok r -> length r = length xs.
Proof.
  unfold np_iadd. intros H. apply rbind_inv in H as (r0 & _ & H).
  destruct (Nat.eqb_spec (length r0) (length xs)); [|discriminate].
  injection H as <-. assumption.
Qed.

Lemma np_iadd_same (xs ys : @ndarray F) :
  length xs = length ys -> np_iadd xs ys = Ok (zip_with fadd xs ys).
Proof.
  intros H. unfold np_iadd, np_add. rewrite broadcast_same by assumption.
  simpl. rewrite zip_with_length, <- H, Nat.min_id, Nat.eqb_refl.
  reflexivity.
Qed.

Lemma np_scale_length (xs : @ndarray F) k : length (np_scale xs k) = length xs.
Proof. apply length_map. Qed.

Lemma np_divide_length (xs : @ndarray F) k :
  length (np_divide xs k) = length xs.
Proof. apply length_map. Qed.

Lemma limit_acceleration_length (p : params F) a :
  length (limit_acceleration p a) = length a.
Proof. apply length_map. Qed.

Lemma slice_length {A : Type} (a b : nat) (xs : list A) :
  length (slice a b xs) = Nat.min (b - a) (length xs - a).
Proof. unfold slice. rewrite length_firstn, length_skipn. reflexivity. Qed.

Lemma list_item_ok {A : Type} (xs : list A) i x :
  nth_error xs i = Some x -> list_item xs i = Ok x.
Proof. intros H. unfold list_item. rewrite H. reflexivity. Qed.

Lemma list_item_inv {A : Type} (xs : list A) i x :
  list_item xs i = Ok x -> nth_error xs i = Some x.
Proof.
  unfold list_item. destruct (nth_error xs i); intros H;
    [injection H as ->; reflexivity | discriminate].
Qed.

End NumpyFacts.

(** ** Reading the path *)

Section ReadFacts.

Context {F : Type} {SF : Scalar F}.
Variable np_sin : F -> F.
Variable np_pi : F.
Variable c : constants.
Variable p : params F.

Lemma path_item_inv i col (path : @matrix F) x path' :
  path_item i col path = Ok (x, path') ->
  path' = path /\
  exists row, nth_error path i = Some row /\ nth_error row col = Some x.
Proof.
  cbv beta iota zeta delta [path_item bind get_path lift list_item].
  destruct (nth_error path i) as [row|] eqn:E1; [|discriminate].
  destruct (nth_error row col) as [y|] eqn:E2; [|discriminate].
  intros [= <- <-]. split; [reflexivity|]. exists row. auto.
Qed.

Lemma path_item_ok i col (path : @matrix F) :
  i < length path -> col < length (nth i path []) ->
  path_item i col path = Ok (nth col (nth i path []) fzero, path).
Proof.
  intros Hi Hcol.
  cbv beta iota zeta delta [path_item bind get_path lift list_item].
  rewrite (nth_error_nth' path [] Hi).
  rewrite (nth_error_nth' (nth i path []) fzero Hcol). reflexivity.
Qed.

Lemma position_at_inv i off (path : @matrix F) x path' :
  position_at c i off path = Ok (x, path') ->
  path' = path /\ i < length path /\
  np_add (tooltip_of c path i) off = Ok x.
Proof.
  cbv beta iota zeta delta
    [position_at bind path_row_slice get_path ret lift contents].
  destruct (Nat.ltb_spec i (length path)) as [Hi|Hi]; [|discriminate].
  cbv beta iota. fold (tooltip_of c path i).
  destruct (np_add _ off) as [y|e]; [|discriminate].
  intros [= <- <-]. auto.
Qed.

Lemma position_at_ok i off (path : @matrix F) :
  i < length path ->
  length (tooltip_of c path i) = length off ->
  position_at c i off path
  = Ok (zip_with fadd (tooltip_of c path i) off, path).
Proof.
  intros Hi Hlen.
  cbv beta iota zeta delta
    [position_at bind path_row_slice get_path ret lift contents].
  destruct (Nat.ltb_spec i (length path)) as [_|Hi']; [|lia].
  cbv beta iota. fold (tooltip_of c path i). unfold np_add.
  rewrite broadcast_same by assumption. reflexivity.
Qed.

Lemma position_at_raise i off (path : @matrix F) :
  length path <= i -> position_at c i off path = Raise IndexError.
Proof.
  intros Hi.
  cbv beta iota zeta delta
    [position_at bind path_row_slice get_path ret lift contents].
  destruct (Nat.ltb_spec i (length path)) as [Hi'|_]; [lia|reflexivity].
Qed.

Lemma generate_gate_pos_inv t s (path : @matrix F) g path' :
  generate_gate_pos np_sin np_pi c p t s path = Ok (g, path') ->
  path' = path /\ 0 < length path /\
  np_iadd (gate_of c path 0 s) (oscillation np_sin np_pi p t) = Ok g.
Proof.
  cbv beta iota zeta delta [generate_gate_pos bind path_row_slice get_path ret
    lift np_copy contents iadd store].
  destruct (Nat.ltb_spec 0 (length path)) as [Hi|Hi]; [|discriminate].
  cbv beta iota. fold (gate_of c path 0 s).
  destruct (np_iadd _ _) as [y|e]; [|discriminate].
  intros [= <- <-]. auto.
Qed.

Lemma generate_gate_pos_ok t s (path : @matrix F) :
  0 < length path ->
  length (gate_of c path 0 s) = 3 ->
  generate_gate_pos np_sin np_pi c p t s path
  = Ok (zip_with fadd (gate_of c path 0 s) (oscillation np_sin np_pi p t),
        path).
Proof.
  intros Hlen Hs.
  cbv beta iota zeta delta [generate_gate_pos bind path_row_slice get_path ret
    lift np_copy contents iadd store].
  destruct (Nat.ltb_spec 0 (length path)) as [_|Hi]; [|lia].
  cbv beta iota. fold (gate_of c path 0 s).
  rewrite np_iadd_same by (rewrite Hs; reflexivity). reflexivity.
Qed.

End ReadFacts.

(** ** One step of the correction *)

Section StepFacts.

Context {F : Type} {SF : Scalar F}.
Variable np_sin : F -> F.
Variable np_pi : F.
Variable c : constants.
Variable p : params F.

Lemma acceleration_length (x_new x_curr v : @ndarray F) dt a :
  length x_curr = 3 ->
  acceleration x_new x_curr v dt = Ok a -> length a = 3.
Proof.
  intros Hx H. unfold acceleration in H.
  apply rbind_inv in H as (d & Hd & H).
  apply rbind_inv in H as (dv & Hdv & H).
  injection H as <-. rewrite np_divide_length.
  apply broadcast_length3 in Hdv; [assumption|].
  left. rewrite np_divide_length.
  apply broadcast_length3 in Hd; auto.
Qed.

(** A step that returns has left the path as it was, has read its target
    at a sample index, and holds arrays of three coordinates. *)
Lemma step_kinematics_inv segments i st (path : @matrix F) k path' :
  length (x_path_offset st) = 3 ->
  step_kinematics np_sin np_pi c p segments i st path = Ok (k, path') ->
  path' = path /\ i + 1 < length path
  /\ (exists e, target_index segments i = Ok e /\ e < length path)
  /\ length (k_x_curr k) = 3 /\ length (k_dx k) = 3
  /\ length (k_a_new k) = 3.
Proof.
  intros Hoff H. unfold step_kinematics in H.
  apply bind_inv in H as (ti & p1 & H1 & H).
  apply path_item_inv in H1 as (-> & _).
  apply bind_inv in H as (tn & p2 & H2 & H).
  apply path_item_inv in H2 as (-> & _).
  apply bind_inv in H as (x_curr & p3 & H3 & H).
  apply position_at_inv in H3 as (-> & _ & H3).
  apply bind_inv in H as (x_next & p4 & H4 & H).
  apply position_at_inv in H4 as (-> & Hi & H4).
  apply bind_inv in H as (dx & p5 & H5 & H).
  apply lift_inv in H5 as (H5 & ->).
  apply bind_inv in H as (seg_end & p6 & H6 & H).
  apply lift_inv in H6 as (H6 & ->).
  apply bind_inv in H as (x_target & p7 & H7 & H).
  apply position_at_inv in H7 as (-> & He & H7).
  apply bind_inv in H as (x_gate & p8 & H8 & H).
  apply generate_gate_pos_inv in H8 as (-> & _ & H8).
  apply bind_inv in H as (shift & p9 & H9 & H).
  apply lift_inv in H9 as (H9 & ->).
  apply bind_inv in H as (x_new & p10 & H10 & H).
  apply lift_inv in H10 as (H10 & ->).
  apply bind_inv in H as (a_new & p11 & H11 & H).
  apply lift_inv in H11 as (H11 & ->).
  unfold ret in H. injection H as <- <-. simpl.
  assert (Hxc : length x_curr = 3)
    by (apply broadcast_length3 in H3; auto).
  repeat split; auto.
  - eauto.
  - apply broadcast_length3 in H5; auto.
  - eapply acceleration_length; eauto.
Qed.

Lemma np_vstack_positions (np : stacked F) x np' :
  np_vstack np x = Ok np' ->
  positions (Some np') = positions (Some np) ++ [x].
Proof.
  destruct np as [u|rows]; simpl.
  - destruct (length u =? length x); [|discriminate].
    intros [= <-]. reflexivity.
  - destruct (ncols rows =? length x); [|discriminate].
    intros [= <-]. reflexivity.
Qed.

Lemma step_update_inv st k st' :
  length (x_path_offset st) = 3 -> length (v_curr st) = 3 ->
  step_update p st k = Ok st' ->
  length (x_path_offset st') = 3 /\ length (v_curr st') = 3
  /\ exists x, length x = 3
       /\ positions (new_path st') = positions (new_path st) ++ [x].
Proof.
  intros Hoff Hv H. unfold step_update in H.
  apply rbind_inv in H as (v_new & H1 & H).
  apply rbind_inv in H as (x_new & H2 & H).
  apply rbind_inv in H as (np' & H3 & H).
  apply rbind_inv in H as (delta & H4 & H).
  apply rbind_inv in H as (offset' & H5 & H).
  injection H as <-. simpl.
  assert (Hvn : length v_new = 3)
    by (apply broadcast_length3 in H1; auto).
  split; [apply np_iadd_length in H5; congruence|].
  split; [assumption|].
  exists x_new. split.
  - apply broadcast_length3 in H2; auto.
    right. rewrite np_scale_length. assumption.
  - destruct (new_path st) as [np|].
    + apply np_vstack_positions. assumption.
    + injection H3 as <-. reflexivity.
Qed.

Lemma correction_step_inv segments i st (path : @matrix F) st' path' :
  length (x_path_offset st) = 3 -> length (v_curr st) = 3 ->
  correction_step np_sin np_pi c p segments i st path = Ok (st', path') ->
  path' = path /\ i + 1 < length path
  /\ (exists e, target_index segments i = Ok e /\ e < length path)
  /\ length (x_path_offset st') = 3 /\ length (v_curr st') = 3
  /\ exists x, length x = 3
       /\ positions (new_path st') = positions (new_path st) ++ [x].
Proof.
  intros Hoff Hv H. unfold correction_step in H.
  apply bind_inv in H as (k & p1 & H1 & H).
  apply step_kinematics_inv in H1 as (-> & Hi & He & _); [|assumption].
  apply lift_inv in H as (H & ->).
  apply step_update_inv in H as (Ho & Hv' & x & Hx & Hp); auto.
  repeat split; auto. exists x. auto.
Qed.

End StepFacts.

(** ** The step on a well-formed path *)

Section StepOnLayout.

Context {F : Type} {SF : Scalar F}.
Variable np_sin : F -> F.
Variable np_pi : F.
Variable c : constants.
Variable p : params F.
Variable path : @matrix F.
Hypothesis Hwf : wf_layout c path.

Lemma wf_row i :
  i < length path ->
  G_TIME_IDX c < length (nth i path [])
  /\ G_POS_IDX c + 3 <= length (nth i path [])
  /\ forall s, s < G_NUM_GATES c ->
       G_GATE_IDX c + G_NUM_GATE_DIMS c * s + 3 <= length (nth i path []).
Proof.
  intros Hi. destruct Hwf as [_ Hall].
  rewrite Forall_forall in Hall. apply Hall. apply nth_In. assumption.
Qed.

Lemma wf_tooltip_length i :
  i < length path -> length (tooltip_of c path i) = 3.
Proof.
  intros Hi. destruct (wf_row Hi) as (_ & Hp & _).
  unfold tooltip_of. rewrite slice_length.
  destruct Hwf as [-> _]. lia.
Qed.

Lemma wf_gate_length i s :
  i < length path -> s < G_NUM_GATES c -> length (gate_of c path i s) = 3.
Proof.
  intros Hi Hs. destruct (wf_row Hi) as (_ & _ & Hg).
  specialize (Hg s Hs).
  unfold gate_of. rewrite slice_length.
  destruct Hwf as [-> _]. lia.
Qed.

Lemma oscillation_length t : length (oscillation np_sin np_pi p t) = 3.
Proof. reflexivity. Qed.

Lemma acceleration_ok (x_new x_curr v : @ndarray F) dt :
  length x_new = 3 -> length x_curr = 3 -> length v = 3 ->
  acceleration x_new x_curr v dt
  = Ok (np_divide (zip_with fsub (np_divide (zip_with fsub x_new x_curr) dt) v)
                  dt).
Proof.
  intros H1 H2 H3. unfold acceleration, np_sub.
  rewrite broadcast_same by congruence. simpl.
  rewrite broadcast_same; [reflexivity|].
  rewrite np_divide_length, zip_with_length. lia.
Qed.

Lemma pure_kinematics_lengths segments i e st :
  length (x_path_offset st) = 3 -> length (v_curr st) = 3 ->
  i + 1 < length path -> e < length path ->
  current_segment segments i < G_NUM_GATES c ->
  let k := pure_kinematics np_sin np_pi c p path segments i e st in
  length (k_x_curr k) = 3 /\ length (k_dx k) = 3 /\ length (k_a_new k) = 3.
Proof.
  intros Hoff Hv Hi He Hs. simpl.
  assert (H1 : length (tooltip_of c path i) = 3)
    by (apply wf_tooltip_length; lia).
  assert (H2 : length (tooltip_of c path (i + 1)) = 3)
    by (apply wf_tooltip_length; lia).
  assert (H3 : length (tooltip_of c path e) = 3)
    by (apply wf_tooltip_length; lia).
  assert (H4 : length (gate_of c path 0 (current_segment segments i)) = 3)
    by (apply wf_gate_length; [lia|assumption]).
  repeat (rewrite ?np_divide_length, ?zip_with_length).
  rewrite H1, H2, H3, H4, Hoff, Hv, oscillation_length.
  repeat split; reflexivity.
Qed.

Lemma step_kinematics_ok segments i e st :
  length (x_path_offset st) = 3 -> length (v_curr st) = 3 ->
  i + 1 < length path ->
  target_index segments i = Ok e -> e < length path ->
  current_segment segments i < G_NUM_GATES c ->
  step_kinematics np_sin np_pi c p segments i st path
  = Ok (pure_kinematics np_sin np_pi c p path segments i e st, path).
Proof.
  intros Hoff Hv Hi He Hlt Hs.
  assert (H1 : length (tooltip_of c path i) = 3)
    by (apply wf_tooltip_length; lia).
  assert (H2 : length (tooltip_of c path (i + 1)) = 3)
    by (apply wf_tooltip_length; lia).
  assert (H3 : length (tooltip_of c path e) = 3)
    by (apply wf_tooltip_length; lia).
  assert (H4 : length (gate_of c path 0 (current_segment segments i)) = 3)
    by (apply wf_gate_length; [lia|assumption]).
  unfold step_kinematics.
  erewrite bind_ok
    by (apply path_item_ok; [lia | apply wf_row; lia]).
  erewrite bind_ok
    by (apply path_item_ok; [lia | apply wf_row; lia]).
  erewrite bind_ok by (apply position_at_ok; [lia | congruence]).
  erewrite bind_ok by (apply position_at_ok; [lia | congruence]).
  erewrite bind_ok
    by (apply lift_ok, broadcast_same; rewrite !zip_with_length; lia).
  erewrite bind_ok by (apply lift_ok; eassumption).
  erewrite bind_ok by (apply position_at_ok; [lia | congruence]).
  erewrite bind_ok by (apply generate_gate_pos_ok; [lia | assumption]).
  erewrite bind_ok
    by (apply lift_ok, broadcast_same; rewrite !zip_with_length;
        rewrite oscillation_length; lia).
  erewrite bind_ok
    by (apply lift_ok, broadcast_same; rewrite !zip_with_length;
        rewrite oscillation_length; lia).
  erewrite bind_ok
    by (apply lift_ok, acceleration_ok; rewrite ?zip_with_length;
        rewrite ?oscillation_length; lia).
  reflexivity.
Qed.

Lemma push_position_wf (np : option (stacked F)) x :
  positions_wf np -> length x = 3 ->
  positions_wf (Some (push_position np x))
  /\ positions (Some (push_position np x)) = positions np ++ [x]
  /\ match np with
     | None => Ok (Vec x)
     | Some s => np_vstack s x
     end = Ok (push_position np x).
Proof.
  intros Hnp Hx. destruct np as [[u|rows]|]; simpl in *.
  - rewrite Hnp, Hx. simpl. repeat split; auto.
  - destruct Hnp as [Hc Hall]. rewrite Hc, Hx. simpl. repeat split; auto.
    + destruct rows; simpl in *; [discriminate | assumption].
    + apply Forall_app. split; auto.
  - auto.
Qed.

Lemma step_update_ok st k :
  state_wf st ->
  length (k_x_curr k) = 3 -> length (k_dx k) = 3 -> length (k_a_new k) = 3 ->
  step_update p st k = Ok (pure_update p st k)
  /\ state_wf (pure_update p st k).
Proof.
  intros (Hoff & Hv & Hnp) Hx Hdx Ha.
  assert (Hvel : length (pure_velocity p st k) = 3).
  { unfold pure_velocity.
    rewrite zip_with_length, np_scale_length, limit_acceleration_length. lia. }
  assert (Hpos : length (pure_position p st k) = 3).
  { unfold pure_position. rewrite zip_with_length, np_scale_length. lia. }
  destruct (@push_position_wf (new_path st) _ Hnp Hpos) as (Hwf' & _ & Hpush).
  split.
  - unfold step_update, np_add, np_sub.
    rewrite broadcast_same
      by (rewrite np_scale_length, limit_acceleration_length; lia).
    simpl. fold (pure_velocity p st k).
    rewrite broadcast_same by (rewrite np_scale_length; lia).
    simpl. fold (pure_position p st k).
    rewrite Hpush. simpl.
    rewrite broadcast_same by (rewrite np_scale_length; lia).
    simpl.
    rewrite np_iadd_same
      by (rewrite zip_with_length, np_scale_length; lia).
    reflexivity.
  - unfold state_wf, pure_update. simpl.
    rewrite !zip_with_length, np_scale_length.
    repeat split; try lia; assumption.
Qed.

End StepOnLayout.

(** ** The segment ends *)

Section SegmentFacts.

Context {F : Type} {SF : Scalar F}.
Variable c : constants.

Lemma detect_loop_inv (data : @matrix F) gates :
  forall acc segs,
    detect_loop c data gates acc = Ok segs ->
    exists ends,
      segs = acc ++ ends
      /\ Forall2 (fun g e => gate_segment_end c data g = Ok e) gates ends.
Proof.
  induction gates as [|g gates IH]; intros acc segs H; simpl in H.
  - injection H as <-. exists []. rewrite app_nil_r. split; constructor.
  - apply rbind_inv in H as (e & He & H).
    apply IH in H as (ends & -> & Hall).
    exists (e :: ends). rewrite <- app_assoc. split; [reflexivity|].
    constructor; assumption.
Qed.

Lemma detect_loop_ok (data : @matrix F) gates :
  forall acc,
    Forall (fun g => exists e, gate_segment_end c data g = Ok e) gates ->
    exists segs, detect_loop c data gates acc = Ok segs.
Proof.
  induction gates as [|g gates IH]; intros acc Hall; simpl.
  - eauto.
  - inversion Hall as [|? ? [e He] Hrest]; subst.
    rewrite He. simpl. apply IH. assumption.
Qed.

Lemma detect_loop_raise (data : @matrix F) gates :
  forall acc g err,
    In g gates ->
    gate_segment_end c data g = Raise err ->
    (forall g', In g' gates ->
                (exists e, gate_segment_end c data g' = Ok e)
                \/ gate_segment_end c data g' = Raise err) ->
    detect_loop c data gates acc = Raise err.
Proof.
  induction gates as [|g0 gates IH]; intros acc g err Hin Hg Hall.
  - destruct Hin.
  - simpl. destruct (Hall g0 (or_introl eq_refl)) as [[e He]|He].
    + rewrite He. simpl. destruct Hin as [->|Hin]; [congruence|].
      apply (IH _ g err Hin Hg). intros g' Hg'. apply Hall. right. assumption.
    + rewrite He. reflexivity.
Qed.

Lemma detect_segments_ends (data : @matrix F) segs :
  _detect_segments c data = Ok segs ->
  length segs = G_NUM_GATES c
  /\ forall g e, nth_error segs g = Some e ->
                 gate_segment_end c data g = Ok e.
Proof.
  intros H. unfold _detect_segments in H.
  apply detect_loop_inv in H as (ends & -> & Hall). simpl.
  split.
  - apply Forall2_length in Hall. rewrite length_seq in Hall. auto.
  - intros g e Hg.
    assert (Hlt : g < length ends)
      by (apply nth_error_Some; congruence).
    pose proof (Forall2_length Hall) as Hlen. rewrite length_seq in Hlen.
    assert (Hnth : forall (l1 : list nat) l2,
               Forall2 (fun g e => gate_segment_end c data g = Ok e) l1 l2 ->
               forall k a b, nth_error l1 k = Some a ->
                             nth_error l2 k = Some b ->
                             gate_segment_end c data a = Ok b).
    { induction 1 as [|? ? ? ? H0 ? IH]; intros [|k] a b Ha Hb;
        simpl in *; try discriminate.
      - injection Ha as <-. injection Hb as <-. assumption.
      - eapply IH; eassumption. }
    eapply Hnth; [exact Hall | | exact Hg].
    rewrite nth_error_nth' with (d := 0) by (rewrite length_seq; lia).
    rewrite seq_nth by lia. reflexivity.
Qed.

(** The end of the last segment is the number of samples. *)
Lemma detect_segments_last (data : @matrix F) segs :
  _detect_segments c data = Ok segs ->
  0 < G_NUM_GATES c ->
  nth_error segs (G_NUM_GATES c - 1) = Some (length data).
Proof.
  intros H Hpos. destruct (detect_segments_ends _ H) as [Hlen Hends].
  destruct (nth_error segs (G_NUM_GATES c - 1)) as [e|] eqn:E.
  - apply Hends in E. unfold gate_segment_end in E.
    rewrite Nat.eqb_refl in E. congruence.
  - apply nth_error_None in E. lia.
Qed.

Lemma argmin_from_bound (xs : @ndarray F) :
  forall i min_ind mp,
    min_ind < i -> argmin_from xs i min_ind mp < i + length xs.
Proof.
  induction xs as [|x xs IH]; intros i min_ind mp Hlt; simpl.
  - lia.
  - destruct (negb (fleb mp x)).
    + destruct (fisnan x); [lia|].
      specialize (IH (S i) i x). lia.
    + specialize (IH (S i) min_ind mp). lia.
Qed.

Lemma np_argmin_bound (xs : @ndarray F) k :
  np_argmin xs = Ok k -> k < length xs.
Proof.
  destruct xs as [|x xs]; simpl; [discriminate|].
  intros [= <-]. destruct (fisnan x); [lia|].
  pose proof (@argmin_from_bound xs 1 0 x). lia.
Qed.

(** The end of a segment that is not the last one is a sample index. *)
Lemma gate_segment_end_bound (data : @matrix F) g e :
  g <> G_NUM_GATES c - 1 ->
  gate_segment_end c data g = Ok e -> e < length data.
Proof.
  intros Hg H. unfold gate_segment_end in H.
  destruct (Nat.eqb_spec g (G_NUM_GATES c - 1)); [contradiction|].
  apply rbind_inv in H as (dist & Hd & H).
  apply np_argmin_bound in H.
  unfold cdist_col0 in Hd.
  destruct (ncols _ =? ncols _); [|discriminate].
  destruct (map (slice _ _) data); [discriminate|].
  injection Hd as <-. rewrite !length_map in H. assumption.
Qed.

End SegmentFacts.

(** ** The loop of [main] *)

Section LoopFacts.

Context {F : Type} {SF : Scalar F}.
Variable np_sin : F -> F.
Variable np_pi : F.
Variable c : constants.
Variable p : params F.

Lemma target_index_segment (segments : list nat) i e :
  target_index segments i = Ok e ->
  current_segment segments i < length segments.
Proof.
  unfold target_index. intros H. apply list_item_inv in H.
  apply nth_error_Some. congruence.
Qed.

Lemma count_not_last n :
  length (filter (fun i => negb (i =? n - 1)) (seq 0 n)) = n - 1.
Proof.
  destruct n as [|n]; [reflexivity|].
  rewrite seq_S, filter_app. simpl.
  replace (n - 0) with n by lia. rewrite Nat.eqb_refl. simpl.
  rewrite app_nil_r.
  assert (H : forall a m, a + m <= n ->
            filter (fun i => negb (i =? n)) (seq a m) = seq a m).
  { intros a m. revert a. induction m as [|m IH]; intros a Hle; simpl.
    - reflexivity.
    - destruct (Nat.eqb_spec a n); [lia|]. simpl. rewrite IH by lia.
      reflexivity. }
  rewrite H by lia. rewrite length_seq. reflexivity.
Qed.

Lemma main_loop_inv segments n indices :
  forall st (path : @matrix F) st' path',
    length (x_path_offset st) = 3 -> length (v_curr st) = 3 ->
    main_loop np_sin np_pi c p segments n indices st path = Ok (st', path') ->
    path' = path
    /\ length (x_path_offset st') = 3 /\ length (v_curr st') = 3
    /\ (exists xs,
          positions (new_path st') = positions (new_path st) ++ xs
          /\ length xs = length (filter (fun i => negb (i =? n - 1)) indices)
          /\ Forall (fun x => length x = 3) xs)
    /\ Forall (fun i => i = n - 1 \/ in_range path segments i) indices.
Proof.
  induction indices as [|i rest IH]; intros st path st' path' Hoff Hv H;
    simpl in H.
  - unfold ret in H. injection H as <- <-.
    repeat split; auto. exists []. rewrite app_nil_r. auto.
  - simpl. destruct (Nat.eqb_spec i (n - 1)) as [E|E].
    + apply IH in H as (-> & Ho & Hv' & Hxs & Hall); auto.
      repeat split; auto.
    + apply bind_inv in H as (st1 & p1 & H1 & H).
      apply correction_step_inv in H1
        as (-> & Hi & He & Ho1 & Hv1 & x & Hx & Hp1); auto.
      apply IH in H as (-> & Ho & Hv' & (xs & Hp & Hlen & Hall3) & Hall);
        auto.
      repeat split; auto.
      * exists (x :: xs). rewrite Hp, Hp1, <- app_assoc. simpl.
        repeat split; auto.
      * constructor; [|assumption]. right. split; assumption.
Qed.

Lemma correction_step_ok (path : @matrix F) segments i e st :
  wf_layout c path ->
  length segments = G_NUM_GATES c ->
  state_wf st ->
  i + 1 < length path -> target_index segments i = Ok e -> e < length path ->
  correction_step np_sin np_pi c p segments i st path
  = Ok (pure_update p st
          (pure_kinematics np_sin np_pi c p path segments i e st), path)
  /\ state_wf
       (pure_update p st
          (pure_kinematics np_sin np_pi c p path segments i e st)).
Proof.
  intros Hwf Hlen Hst Hi He Hlt.
  assert (Hseg : current_segment segments i < length segments)
    by (eapply target_index_segment; eassumption).
  rewrite Hlen in Hseg.
  destruct Hst as (Hoff & Hv & Hnp).
  destruct (pure_kinematics_lengths np_sin np_pi p Hwf segments i st
              Hoff Hv Hi Hlt Hseg) as (K1 & K2 & K3).
  destruct (step_update_ok p _ (conj Hoff (conj Hv Hnp)) K1 K2 K3)
    as [Hup Hst'].
  split; [|exact Hst'].
  unfold correction_step.
  erewrite bind_ok by (apply step_kinematics_ok; eassumption).
  apply lift_ok. exact Hup.
Qed.

Lemma main_loop_ok (path : @matrix F) segments n indices :
  wf_layout c path ->
  length segments = G_NUM_GATES c ->
  forall st,
    state_wf st ->
    Forall (fun i => i = n - 1 \/ in_range path segments i) indices ->
    exists st',
      main_loop np_sin np_pi c p segments n indices st path = Ok (st', path)
      /\ state_wf st'.
Proof.
  intros Hwf Hlen.
  induction indices as [|i rest IH]; intros st Hst Hall; simpl.
  - exists st. split; [reflexivity | assumption].
  - inversion Hall as [|? ? Hi Hrest]; subst.
    destruct (Nat.eqb_spec i (n - 1)) as [E|E]; [apply IH; assumption|].
    destruct Hi as [Hi|(Hi & e & He & Hlt)]; [contradiction|].
    edestruct correction_step_ok as [Hstep Hst'];
      [exact Hwf | exact Hlen | exact Hst | exact Hi | exact He | exact Hlt |].
    destruct (IH _ Hst' Hrest) as (st' & Hloop & Hwf').
    exists st'. split; [|assumption].
    erewrite bind_ok by exact Hstep. exact Hloop.
Qed.

End LoopFacts.

(** ** The matrix [full_path] *)

Section FullPathFacts.

Context {F : Type} {SF : Scalar F}.

Lemma splice_length {A : Type} (a b : nat) (x r : list A) :
  length x = length (slice a b r) -> length (splice a x r) = length r.
Proof.
  intros H. rewrite slice_length in H. unfold splice.
  rewrite !length_app, length_firstn, length_skipn. lia.
Qed.

Lemma splice_slice {A : Type} (a b : nat) (x r : list A) :
  length x = length (slice a b r) -> slice a b (splice a x r) = x.
Proof.
  intros H. rewrite slice_length in H. unfold splice, slice.
  destruct (Nat.le_gt_cases a (length r)) as [Ha|Ha].
  - rewrite skipn_app, length_firstn.
    replace (Nat.min a (length r)) with a by lia.
    rewrite Nat.sub_diag. simpl.
    rewrite (skipn_all2 (firstn a r)) by (rewrite length_firstn; lia).
    simpl. rewrite firstn_app.
    destruct (Nat.le_gt_cases b (length r)) as [Hb|Hb].
    + replace (b - a - length x) with 0 by lia. simpl.
      rewrite app_nil_r. apply firstn_all2. lia.
    + rewrite (skipn_all2 r) by lia. rewrite firstn_nil, app_nil_r.
      apply firstn_all2. lia.
  - assert (Hx : x = []) by (destruct x; [reflexivity | simpl in H; lia]).
    subst x. simpl length. rewrite (@firstn_all2 A a r) by lia.
    rewrite (@skipn_all2 A (a + 0) r) by lia. simpl. rewrite app_nil_r.
    rewrite (@skipn_all2 A a r) by lia. apply firstn_nil.
Qed.

Lemma splice_outside {A : Type} (a b : nat) (x r : list A) col :
  length x = length (slice a b r) ->
  col < a \/ b <= col ->
  nth_error (splice a x r) col = nth_error r col.
Proof.
  intros H Hcol. rewrite slice_length in H. unfold splice.
  rewrite !nth_error_app, length_firstn, nth_error_firstn, nth_error_skipn.
  destruct (Nat.ltb_spec col (Nat.min a (length r))) as [H1|H1].
  - destruct (Nat.ltb_spec col a); [reflexivity | lia].
  - destruct (Nat.ltb_spec (col - Nat.min a (length r)) (length x))
      as [H2|H2].
    + exfalso. lia.
    + destruct (Nat.le_gt_cases (length r) col) as [H3|H3].
      * transitivity (@None A); [|symmetry]; apply nth_error_None; lia.
      * f_equal. lia.
Qed.

Lemma fit_rows_three (w : nat) (vs vs' : @matrix F) :
  Forall (fun x => length x = 3) vs ->
  fit_rows w vs = Ok vs' ->
  vs' = vs /\ Forall (fun x => length x = w) vs.
Proof.
  revert vs'. induction vs as [|v vs IH]; intros vs' Hall H; simpl in H.
  - injection H as <-. auto.
  - inversion Hall as [|? ? Hv Hrest]; subst.
    apply rbind_inv in H as (v' & Hfit & H).
    apply rbind_inv in H as (rest' & Hrest' & H).
    injection H as <-.
    destruct (IH _ Hrest Hrest') as [-> Hw].
    unfold fit_width in Hfit. rewrite Hv in Hfit.
    destruct (Nat.eqb_spec 3 w) as [E|E]; [|discriminate].
    injection Hfit as <-. split; [reflexivity|].
    constructor; [congruence | assumption].
Qed.

Lemma nth_error_splice_rows (a : nat) (vs rows : @matrix F) :
  forall k x r,
    nth_error vs k = Some x -> nth_error rows k = Some r ->
    nth_error (splice_rows a vs rows) k = Some (splice a x r).
Proof.
  revert rows. induction vs as [|v vs IH]; intros [|r0 rows] [|k] x r Hx Hr;
    simpl in *; try discriminate.
  - injection Hx as ->. injection Hr as ->. reflexivity.
  - apply IH; assumption.
Qed.

Lemma splice_rows_length (a : nat) (vs rows : @matrix F) :
  length vs = length rows -> length (splice_rows a vs rows) = length rows.
Proof.
  revert rows. induction vs as [|v vs IH]; intros [|r0 rows] H;
    simpl in *; try discriminate; auto.
Qed.

(** What the assignment of the corrected positions does to each row. *)
Lemma assign_cols_inv (a b w : nat) (rows rows' : @matrix F) value :
  Forall (fun r => length r = w) rows ->
  Forall (fun x => length x = 3) (positions value) ->
  length (positions value) = length rows ->
  assign_cols a b rows value = Ok rows' ->
  length rows' = length rows
  /\ forall k r,
       nth_error rows k = Some r ->
       exists x,
         nth_error (positions value) k = Some x
         /\ length x = length (slice a b r)
         /\ nth_error rows' k = Some (splice a x r).
Proof.
  intros Hrect Hthree Hlen H.
  assert (Hw : forall k r, nth_error rows k = Some r ->
                 length (slice a b r) = length (slice a b (hd [] rows))).
  { intros k r Hr. rewrite !slice_length.
    rewrite Forall_forall in Hrect.
    rewrite (Hrect r) by (eapply nth_error_In; eassumption).
    destruct rows as [|r0 rows0]; [destruct k; discriminate|].
    simpl. rewrite (Hrect r0) by (left; reflexivity). reflexivity. }
  unfold assign_cols in H.
  destruct value as [[u|vs]|]; simpl in Hlen, Hthree.
  - apply rbind_inv in H as (u' & Hfit & H). injection H as <-.
    inversion Hthree as [|? ? Hu _]; subst.
    unfold fit_width in Hfit. rewrite Hu in Hfit.
    destruct (Nat.eqb_spec 3 (length (slice a b (hd [] rows)))) as [E|E];
      [|discriminate].
    injection Hfit as <-.
    split; [apply length_map|].
    intros k r Hr.
    destruct rows as [|r0 [|r1 rows0]]; simpl in Hlen; try discriminate.
    destruct k as [|k]; [|destruct k; discriminate].
    injection Hr as <-. exists u. simpl in *. repeat split; congruence.
  - apply rbind_inv in H as (vs' & Hfit & H).
    destruct (fit_rows_three _ Hthree Hfit) as [-> Hall].
    rewrite Hlen, Nat.eqb_refl in H. injection H as <-.
    split; [apply splice_rows_length; assumption|].
    intros k r Hr.
    destruct (nth_error vs k) as [x|] eqn:Ex.
    + exists x. split; [exact Ex|]. split.
      * rewrite (Hw k r Hr). rewrite Forall_forall in Hall.
        apply Hall. eapply nth_error_In; eassumption.
      * apply nth_error_splice_rows; assumption.
    + apply nth_error_None in Ex.
      assert (k < length rows) by (apply nth_error_Some; congruence). lia.
  - destruct rows as [|r0 rows0]; [|discriminate].
    injection H as <-. split; [reflexivity|].
    intros [|k] r Hr; discriminate.
Qed.

Lemma assign_cols_ok (a b : nat) (rows : @matrix F) value :
  Forall (fun r => length (slice a b r) = 3) rows ->
  positions_wf value ->
  length (positions value) = length rows ->
  exists rows', assign_cols a b rows value = Ok rows'.
Proof.
  intros Hrows Hwf Hlen. unfold assign_cols.
  assert (Hhd : rows <> [] -> length (slice a b (hd [] rows)) = 3).
  { destruct rows as [|r0 rows0]; [congruence|].
    intros _. inversion Hrows; assumption. }
  destruct value as [[u|vs]|]; simpl in *.
  - destruct rows as [|r0 rows0]; [discriminate|].
    unfold fit_width. rewrite Hwf, Hhd by discriminate. simpl. eauto.
  - destruct Hwf as [Hc Hall].
    assert (Hfit : fit_rows 3 vs = Ok vs).
    { clear -Hall. induction vs as [|v vs IH]; [reflexivity|].
      inversion Hall as [|? ? Hv Hrest]; subst. simpl.
      unfold fit_width. rewrite Hv. simpl. rewrite IH by assumption.
      reflexivity. }
    destruct rows as [|r0 rows0].
    + destruct vs; [discriminate Hc | discriminate Hlen].
    + rewrite Hhd by discriminate. rewrite Hfit. simpl rbind.
      rewrite Hlen, Nat.eqb_refl. eauto.
  - destruct rows; [eauto | discriminate].
Qed.

End FullPathFacts.

(** ** [main] as a whole *)

Section MainFacts.

Context {F : Type} {SF : Scalar F}.
Variable np_sin : F -> F.
Variable np_pi : F.
Variable c : constants.
Variable p : params F.

(** [main] detects the segments, runs the loop, and assigns the corrected
    positions to a copy of all samples but the last. *)
Lemma main_unfold (path : @matrix F) :
  main np_sin np_pi c p path
  = match _detect_segments c path with
    | Raise e => Raise e
    | Ok segments =>
        match main_loop np_sin np_pi c p segments (length path)
                        (seq 0 (length path)) initial_state path with
        | Raise e => Raise e
        | Ok (st, path1) =>
            match assign_cols (G_POS_IDX c) (G_POS_IDX c + G_NUM_POS_DIMS c)
                              (slice 0 (length path1 - 1) path1)
                              (new_path st) with
            | Raise e => Raise e
            | Ok full => Ok ((new_path st, full), path1)
            end
        end
    end.
Proof.
  unfold main.
  cbv beta iota zeta delta [bind get_path lift].
  destruct (_detect_segments c path) as [segments|e]; [|reflexivity].
  destruct (main_loop _ _ _ _ _ _ _ _ _) as [[st path1]|e]; [|reflexivity].
  cbv beta iota zeta delta
    [path_but_last bind get_path ret np_copy2 contents2 setitem_cols lift
     store2].
  destruct (assign_cols _ _ _ _); reflexivity.
Qed.

Lemma initial_state_wf : state_wf (@initial_state F SF).
Proof. repeat split. Qed.

Lemma slice_from_zero {A : Type} (n : nat) (xs : list A) :
  slice 0 n xs = firstn n xs.
Proof. unfold slice. rewrite Nat.sub_0_r. reflexivity. Qed.

(** What a call of [main] that returns has done. *)
Lemma main_inv (path : @matrix F) np full path' :
  main np_sin np_pi c p path = Ok ((np, full), path') ->
  path' = path
  /\ length (positions np) = length path - 1
  /\ Forall (fun x => length x = 3) (positions np)
  /\ assign_cols (G_POS_IDX c) (G_POS_IDX c + G_NUM_POS_DIMS c)
                 (firstn (length path - 1) path) np = Ok full
  /\ exists segments,
       _detect_segments c path = Ok segments
       /\ forall i, i + 1 < length path -> in_range path segments i.
Proof.
  rewrite main_unfold. intros H.
  destruct (_detect_segments c path) as [segments|e] eqn:Eseg;
    [|discriminate].
  destruct (main_loop _ _ _ _ _ _ _ _ _) as [[st path1]|e] eqn:Eloop;
    [|discriminate].
  apply main_loop_inv in Eloop
    as (-> & _ & _ & (xs & Hp & Hlen & Hthree) & Hall);
    [|reflexivity|reflexivity].
  destruct (assign_cols _ _ _ _) as [full'|e] eqn:Eassign; [|discriminate].
  injection H as <- <- <-.
  simpl in Hp. rewrite slice_from_zero in Eassign.
  split; [reflexivity|].
  split; [rewrite Hp, Hlen; apply count_not_last|].
  split; [rewrite Hp; assumption|].
  split; [assumption|].
  exists segments. split; [reflexivity|].
  intros i Hi. rewrite Forall_forall in Hall.
  destruct (Hall i) as [E|E]; [apply in_seq; lia | lia | assumption].
Qed.

(** [main] returns when the layout is the expected one and every step reads
    its target at a sample. *)
Lemma main_ok (path : @matrix F) segments :
  wf_layout c path ->
  _detect_segments c path = Ok segments ->
  (forall i, i + 1 < length path -> in_range path segments i) ->
  exists np full,
    main np_sin np_pi c p path = Ok ((np, full), path)
    /\ length (positions np) = length path - 1.
Proof.
  intros Hwf Hseg Hrange.
  destruct (detect_segments_ends c _ Hseg) as [Hlen _].
  destruct (@main_loop_ok _ _ np_sin np_pi c p path segments (length path)
              (seq 0 (length path)) Hwf Hlen initial_state initial_state_wf)
    as (st & Hloop & Hst).
  { apply Forall_forall. intros i Hi. apply in_seq in Hi.
    destruct (Nat.eq_dec i (length path - 1)) as [E|E]; [left; assumption|].
    right. apply Hrange. lia. }
  pose proof Hloop as Hinv.
  apply main_loop_inv in Hinv
    as (_ & _ & _ & (xs & Hp & Hxs & _) & _); [|reflexivity|reflexivity].
  simpl in Hp. rewrite count_not_last in Hxs.
  destruct (@assign_cols_ok _ _ (G_POS_IDX c)
              (G_POS_IDX c + G_NUM_POS_DIMS c)
              (firstn (length path - 1) path) (new_path st))
    as [full Hfull].
  - apply Forall_forall. intros r Hr.
    apply In_nth with (d := []) in Hr as (k & Hk & <-).
    rewrite length_firstn in Hk.
    rewrite nth_firstn.
    destruct (Nat.ltb_spec k (length path - 1)); [|lia].
    apply (wf_tooltip_length Hwf). lia.
  - apply Hst.
  - rewrite Hp, Hxs, length_firstn. lia.
  - exists (new_path st), full. split.
    + rewrite main_unfold, Hseg, Hloop, slice_from_zero, Hfull. reflexivity.
    + rewrite Hp. assumption.
Qed.

End MainFacts.

(** ** The widths of the slices compared by [cdist] *)

Section WidthFacts.

Context {F : Type} {SF : Scalar F}.
Variable c : constants.

Lemma ncols_map (f : @ndarray F -> @ndarray F) (data : @matrix F) w n :
  data <> [] ->
  Forall (fun r => length r = w) data ->
  (forall r, length r = w -> length (f r) = n) ->
  ncols (map f data) = n.
Proof.
  intros Hne Hrect Hf. destruct data as [|r0 data]; [congruence|].
  simpl. apply Hf. inversion Hrect; assumption.
Qed.

Lemma gate_segment_end_cases (data : @matrix F) w g :
  data <> [] ->
  Forall (fun r => length r = w) data ->
  g <> G_NUM_GATES c - 1 ->
  (gate_width c w g = tooltip_width c w ->
   exists e, gate_segment_end c data g = Ok e)
  /\ (gate_width c w g <> tooltip_width c w ->
      gate_segment_end c data g = Raise ValueError).
Proof.
  intros Hne Hrect Hg. unfold gate_segment_end.
  destruct (Nat.eqb_spec g (G_NUM_GATES c - 1)); [contradiction|].
  cbv zeta. unfold cdist_col0.
  assert (E1 : ncols (map (skipn (G_POS_IDX c)) data) = tooltip_width c w).
  { apply ncols_map with (w := w); auto.
    intros r Hr. rewrite length_skipn, Hr. reflexivity. }
  assert (E2 : ncols (map (slice (G_GATE_IDX c + g * 3)
                                 (G_GATE_IDX c + g * 3 + G_NUM_GATE_DIMS c))
                          data) = gate_width c w g).
  { apply ncols_map with (w := w); auto.
    intros r Hr. rewrite slice_length, Hr. unfold gate_width. f_equal. lia. }
  rewrite E1, E2.
  split; intros Hw.
  - rewrite Hw, Nat.eqb_refl.
    destruct data as [|r0 data]; [congruence|]. simpl. eauto.
  - destruct (Nat.eqb_spec (tooltip_width c w) (gate_width c w g));
      [congruence | reflexivity].
Qed.

End WidthFacts.

(** ** When [main] raises [IndexError] *)

Section IndexErrorFacts.

Context {F : Type} {SF : Scalar F}.
Variable np_sin : F -> F.
Variable np_pi : F.
Variable c : constants.
Variable p : params F.
Variable path : @matrix F.
Hypothesis Hwf : wf_layout c path.

Lemma find_segment_bound (segments : list nat) (i : nat) :
  forall j, find_segment segments i j = 0
            \/ find_segment segments i j < j + length segments.
Proof.
  induction segments as [|s rest IH]; intros j; simpl.
  - left. reflexivity.
  - destruct (i <=? s); [right; lia|].
    destruct (IH (S j)) as [E|E]; [left; assumption | right; lia].
Qed.

(** The target index of a step exists as soon as there is a segment. *)
Lemma target_index_defined (segments : list nat) (i : nat) :
  segments <> [] -> exists e, target_index segments i = Ok e.
Proof.
  intros Hne. unfold target_index, current_segment, list_item.
  assert (Hlt : find_segment segments i 0 < length segments).
  { destruct (find_segment_bound segments i 0) as [E|E]; [|lia].
    rewrite E. destruct segments; [congruence | simpl; lia]. }
  destruct (nth_error segments (find_segment segments i 0)) as [e|] eqn:E.
  - eauto.
  - apply nth_error_None in E. lia.
Qed.

(** A step whose target index is not a sample index raises. *)
Lemma correction_step_raise (segments : list nat) (i e : nat)
      (st : loop_state F) :
  state_wf st ->
  i + 1 < length path ->
  target_index segments i = Ok e -> length path <= e ->
  correction_step np_sin np_pi c p segments i st path = Raise IndexError.
Proof.
  intros (Hoff & Hv & _) Hi He Hle.
  assert (H1 : length (tooltip_of c path i) = 3)
    by (apply wf_tooltip_length; [exact Hwf | lia]).
  assert (H2 : length (tooltip_of c path (i + 1)) = 3)
    by (apply wf_tooltip_length; [exact Hwf | lia]).
  unfold correction_step. apply bind_raise. unfold step_kinematics.
  erewrite bind_ok
    by (apply path_item_ok; [lia | apply (wf_row Hwf); lia]).
  erewrite bind_ok
    by (apply path_item_ok; [lia | apply (wf_row Hwf); lia]).
  erewrite bind_ok by (apply position_at_ok; [lia | congruence]).
  erewrite bind_ok by (apply position_at_ok; [lia | congruence]).
  erewrite bind_ok
    by (apply lift_ok, broadcast_same; rewrite !zip_with_length; lia).
  erewrite bind_ok by (apply lift_ok; eassumption).
  apply bind_raise. apply position_at_raise. assumption.
Qed.

Lemma main_loop_raise (segments : list nat) (n : nat) :
  length segments = G_NUM_GATES c ->
  segments <> [] ->
  forall (indices : list nat) (st : loop_state F),
    state_wf st ->
    Forall (fun i => i = n - 1 \/ i + 1 < length path) indices ->
    Exists (fun i => i <> n - 1 /\ ~ in_range path segments i) indices ->
    main_loop np_sin np_pi c p segments n indices st path = Raise IndexError.
Proof.
  intros Hlen Hne.
  induction indices as [|i rest IH]; intros st Hst Hall Hex.
  - inversion Hex.
  - cbn [main_loop]. inversion Hall as [|? ? Hi Hrest]; subst.
    destruct (Nat.eqb_spec i (n - 1)) as [E|E].
    + apply IH; try assumption.
      inversion Hex as [? ? [Hbad _]|]; subst; [contradiction | assumption].
    + destruct Hi as [Hi|Hi]; [contradiction|].
      destruct (target_index_defined i Hne) as [e He].
      destruct (Nat.lt_ge_cases e (length path)) as [Hlt|Hge].
      * edestruct (@correction_step_ok F SF np_sin np_pi c p path segments
                     i e st) as [Hstep Hst'];
          [exact Hwf | exact Hlen | exact Hst | exact Hi | exact He
           | exact Hlt |].
        erewrite bind_ok by exact Hstep.
        apply IH; try assumption.
        inversion Hex as [? ? [_ Hbad]|]; subst; [|assumption].
        exfalso. apply Hbad. split; [assumption|]. exists e. auto.
      * apply bind_raise.
        eapply correction_step_raise; eassumption.
Qed.

End IndexErrorFacts.

(** On a path of the expected layout whose segments are detected, [main]
    raises [IndexError] as soon as one step would read its target past the
    samples; with [main_ok], this is the only way in which it fails. *)
Lemma main_raises_index_error (F : Type) (SF : Scalar F) (np_sin : F -> F)
      (np_pi : F) (c : constants) (p : params F) (path : @matrix F)
      (segments : list nat) (i : nat) :
  wf_layout c path ->
  _detect_segments c path = Ok segments ->
  0 < G_NUM_GATES c ->
  i + 1 < length path ->
  ~ in_range path segments i ->
  main np_sin np_pi c p path = Raise IndexError.
Proof.
  intros Hwf Hseg Hg Hi Hbad.
  destruct (detect_segments_ends c path Hseg) as [Hlen _].
  rewrite main_unfold, Hseg.
  rewrite (@main_loop_raise F SF np_sin np_pi c p path Hwf segments
             (length path) Hlen); [reflexivity | | | |].
  - intros ->. simpl in Hlen. lia.
  - apply initial_state_wf.
  - apply Forall_forall. intros j Hj. apply in_seq in Hj.
    destruct (Nat.eq_dec j (length path - 1)); [left; assumption|].
    right. lia.
  - apply Exists_exists. exists i. split; [apply in_seq; lia|].
    split; [lia | assumption].
Qed.

(** A step past the ends of all segments but the last reads its target at
    index [len(path)]. *)
Lemma target_index_of_last_segment (F : Type) (SF : Scalar F) (c : constants)
      (path : @matrix F) (segments : list nat) (i : nat) :
  _detect_segments c path = Ok segments ->
  0 < G_NUM_GATES c ->
  i <= length path ->
  (forall g e, g + 1 < G_NUM_GATES c -> nth_error segments g = Some e ->
               e < i) ->
  target_index segments i = Ok (length path).
Proof.
  intros Hseg Hg Hi Hpast.
  destruct (detect_segments_ends c path Hseg) as [Hlen _].
  pose proof (detect_segments_last c path Hseg Hg) as Hlast.
  unfold target_index, current_segment.
  assert (H : forall (l : list nat) j,
             (forall g e, g + 1 < length l -> nth_error l g = Some e ->
                          e < i) ->
             nth_error l (length l - 1) = Some (length path) ->
             l <> [] ->
             find_segment l i j = j + (length l - 1)).
  { induction l as [|s l IH]; intros j Hp Hl Hne; [congruence|].
    cbn [find_segment]. destruct l as [|s' l'].
    - simpl in Hl. injection Hl as ->.
      destruct (Nat.leb_spec i (length path)); [simpl; lia | lia].
    - assert (Hs : s < i) by (apply (Hp 0 s); [simpl; lia | reflexivity]).
      destruct (Nat.leb_spec i s); [lia|].
      rewrite IH.
      + simpl. lia.
      + intros g e Hg' He. apply (Hp (S g) e); [simpl in *; lia | exact He].
      + replace (length (s' :: l') - 1) with (length l') by (simpl; lia).
        replace (length (s :: s' :: l') - 1) with (S (length l')) in Hl
          by (simpl; lia).
        exact Hl.
      + discriminate. }
  rewrite H.
  - simpl. apply list_item_ok. rewrite Hlen. exact Hlast.
  - intros g e Hg' He. rewrite Hlen in Hg'. eapply Hpast; eassumption.
  - rewrite Hlen. exact Hlast.
  - intros ->. simpl in Hlen. lia.
Qed.

(** ** The target lookup of the last segment *)

(** C1 (the code fails the claim): on the three-sample path with one gate,
    [main] raises [IndexError] in its first step, whatever [np.sin] and
    [np.pi] are: it returns no corrected position at all, where the claim
    promises [len(path) - 1 = 2] of them. *)
Theorem main_single_gate_index_error :
  forall (np_sin : float -> float) (np_pi : float),
    main np_sin np_pi one_gate source_params straight_path = Raise IndexError.
Proof. intros np_sin np_pi. vm_compute. reflexivity. Qed.

(** C4 (the code fails the claim): on the three-sample path with two gates,
    whose first gate is met at sample 0, the segments are [[0; 3]], and at
    step [i = 1], which is processed, the index read for the target is
    [3 = len(path)], not a sample index. *)
Theorem target_index_reaches_len :
  _detect_segments two_gates two_gate_path = Ok [0; 3]
  /\ target_index [0; 3] 1 = Ok (length two_gate_path)
  /\ 1 <= length two_gate_path - 2
  /\ forall (np_sin : float -> float) (np_pi : float),
      main np_sin np_pi two_gates source_params two_gate_path
      = Raise IndexError.
Proof.
  split; [vm_compute; reflexivity | ].
  split; [vm_compute; reflexivity | ].
  split; [vm_compute; apply le_n | ].
  intros np_sin np_pi. vm_compute. reflexivity.
Qed.

(** ** Claims about [_detect_segments] and about what [main] returns *)

(** When the slices have equal widths for every gate but the last,
    [_detect_segments] returns one end for each gate. *)
Lemma detect_segments_match (F : Type) (SF : Scalar F) (c : constants)
      (data : @matrix F) (w : nat) :
  data <> [] ->
  Forall (fun r => length r = w) data ->
  (forall g, g + 1 < G_NUM_GATES c ->
             gate_width c w g = tooltip_width c w) ->
  exists segs,
    _detect_segments c data = Ok segs /\ length segs = G_NUM_GATES c.
Proof.
  intros Hne Hrect Hw.
  destruct (@detect_loop_ok F SF c data (seq 0 (G_NUM_GATES c)) [])
    as [segs Hsegs].
  - apply Forall_forall. intros g Hg. apply in_seq in Hg.
    destruct (Nat.eq_dec g (G_NUM_GATES c - 1)) as [E|E].
    + exists (length data). unfold gate_segment_end.
      rewrite E, Nat.eqb_refl. reflexivity.
    + apply (gate_segment_end_cases c Hne Hrect E). apply Hw. lia.
  - exists segs. split; [exact Hsegs|].
    apply (detect_segments_ends c data Hsegs).
Qed.

(** When they differ for some gate, the distance computation raises. *)
Lemma detect_segments_mismatch (F : Type) (SF : Scalar F) (c : constants)
      (data : @matrix F) (w : nat) :
  data <> [] ->
  Forall (fun r => length r = w) data ->
  (exists g, g + 1 < G_NUM_GATES c
             /\ gate_width c w g <> tooltip_width c w) ->
  _detect_segments c data = Raise ValueError.
Proof.
  intros Hne Hrect (g & Hg & Hw). unfold _detect_segments.
  apply detect_loop_raise with (g := g).
  - apply in_seq. lia.
  - apply (gate_segment_end_cases c Hne Hrect); [lia | exact Hw].
  - intros g' Hg'. apply in_seq in Hg'.
    destruct (Nat.eq_dec g' (G_NUM_GATES c - 1)) as [E|E].
    + left. exists (length data). unfold gate_segment_end.
      rewrite E, Nat.eqb_refl. reflexivity.
    + destruct (Nat.eq_dec (gate_width c w g') (tooltip_width c w))
        as [E'|E'].
      * left. apply (gate_segment_end_cases c Hne Hrect E). exact E'.
      * right. apply (gate_segment_end_cases c Hne Hrect E). exact E'.
Qed.

(** C7 (amended): [_detect_segments] checks no gate count and raises no
    configuration error.  The columns of the last gate are never read, and a
    gate slice that runs past the last column is cut silently.  On a
    non-empty matrix of width [w] the call returns [G_NUM_GATES] segment
    ends when, for every gate but the last, the gate slice is as wide as the
    slice [data[:, G_POS_IDX:]]; otherwise the distance computation raises
    [ValueError]. *)
Theorem detect_segments_widths :
  forall (F : Type) (SF : Scalar F) (c : constants) (data : @matrix F)
         (w : nat),
    data <> [] ->
    Forall (fun r => length r = w) data ->
    ((forall g, g + 1 < G_NUM_GATES c ->
                gate_width c w g = tooltip_width c w) ->
     exists segs,
       _detect_segments c data = Ok segs /\ length segs = G_NUM_GATES c)
    /\ ((exists g, g + 1 < G_NUM_GATES c
                   /\ gate_width c w g <> tooltip_width c w) ->
        _detect_segments c data = Raise ValueError).
Proof.
  intros F SF c data w Hne Hrect. split.
  - apply detect_segments_match; assumption.
  - apply detect_segments_mismatch; assumption.
Qed.

(** Two gates are configured and the samples hold one: the gate slice has
    three columns, the slice from [G_POS_IDX = 7] on has none, and the call
    raises [ValueError]. *)
Lemma detect_segments_widths_witness :
  _detect_segments two_gates [[0; 1; 1; 1; 5; 5; 5]]%float = Raise ValueError.
Proof.
  apply (proj2 (@detect_segments_widths float float_scalar two_gates
                  [[0; 1; 1; 1; 5; 5; 5]]%float 7
                  ltac:(discriminate) ltac:(repeat constructor))).
  exists 0. split; [vm_compute; apply le_n | vm_compute; discriminate].
Defined.

(** C7 (counterexample): one gate is configured and the samples hold none
    (time and tooltip position only); the call fails in no way and returns
    the number of samples as the only segment end. *)
Lemma detect_segments_missing_gate_accepted :
  _detect_segments one_gate [[0; 1; 2; 3]; [1; 4; 5; 6]]%float = Ok [2].
Proof. vm_compute. reflexivity. Qed.

(** C10: when [main] returns, the path is what it was, and the matrix
    [full_path] has one row for each sample but the last; row [k] has the
    length of sample [k], holds the [k]-th corrected position in the tooltip
    columns, and agrees with sample [k] in every other column (time, gates,
    and whatever follows the tooltip columns). *)
Theorem full_path_frame :
  forall (F : Type) (SF : Scalar F) (np_sin : F -> F) (np_pi : F)
         (c : constants) (p : params F) (path : @matrix F) (w : nat)
         (np : option (stacked F)) (full path' : @matrix F),
    Forall (fun r => length r = w) path ->
    main np_sin np_pi c p path = Ok ((np, full), path') ->
    path' = path
    /\ length full = length path - 1
    /\ forall k orig,
         k < length path - 1 ->
         nth_error path k = Some orig ->
         exists row x,
           nth_error full k = Some row
           /\ nth_error (positions np) k = Some x
           /\ length row = length orig
           /\ slice (G_POS_IDX c) (G_POS_IDX c + G_NUM_POS_DIMS c) row = x
           /\ forall col,
                col < G_POS_IDX c \/ G_POS_IDX c + G_NUM_POS_DIMS c <= col ->
                nth_error row col = nth_error orig col.
Proof.
  intros F SF np_sin np_pi c p path w np full path' Hrect H.
  apply main_inv in H as (-> & Hlen & Hthree & Hassign & _).
  assert (Hrect' : Forall (fun r => length r = w)
                          (firstn (length path - 1) path)).
  { apply Forall_forall. intros r Hr. rewrite Forall_forall in Hrect.
    apply Hrect. rewrite <- (firstn_skipn (length path - 1) path).
    apply in_or_app. left. assumption. }
  assert (Hlen' : length (positions np)
                  = length (firstn (length path - 1) path))
    by (rewrite length_firstn; lia).
  destruct (assign_cols_inv _ _ _ Hrect' Hthree Hlen' Hassign)
    as [Hfull Hrows].
  split; [reflexivity|].
  split; [rewrite Hfull, length_firstn; lia|].
  intros k orig Hk Horig.
  destruct (Hrows k orig) as (x & Hx & Hxlen & Hrow).
  { rewrite nth_error_firstn.
    destruct (Nat.ltb_spec k (length path - 1)); [assumption | lia]. }
  exists (splice (G_POS_IDX c) x orig), x.
  split; [assumption|]. split; [assumption|].
  split; [eapply splice_length; eassumption|].
  split; [eapply splice_slice; eassumption|].
  intros col Hcol. eapply splice_outside; eassumption.
Qed.

(** C3 (amended): equal consecutive timestamps raise nothing.  On a path of
    the expected layout in which two consecutive samples carry the same
    time, [main] returns, with [len(path) - 1] positions, whenever every
    step reads its target at a sample; the divisions by [dt = 0] are carried
    out by the arithmetic. *)
Theorem duplicate_timestamps_raise_nothing :
  forall (F : Type) (SF : Scalar F) (np_sin : F -> F) (np_pi : F)
         (c : constants) (p : params F) (path : @matrix F)
         (segments : list nat) (i : nat),
    wf_layout c path ->
    _detect_segments c path = Ok segments ->
    (forall j, j + 1 < length path -> in_range path segments j) ->
    i + 1 < length path ->
    time_of c path (i + 1) = time_of c path i ->
    exists np full,
      main np_sin np_pi c p path = Ok ((np, full), path)
      /\ length (positions np) = length path - 1.
Proof.
  intros F SF np_sin np_pi c p path segments i Hwf Hseg Hrange _ _.
  eapply main_ok; eassumption.
Qed.

(** ** A time step of zero in IEEE arithmetic *)

(** With [dt = 0] the velocity and the acceleration are computed all the
    same: the quotients are infinities and NaN, and nothing is raised. *)
Lemma acceleration_with_zero_dt :
  acceleration [1; 0; 0]%float [0; 0; 0]%float [0; 0; 0]%float 0%float
  = Ok [infinity; nan; nan]%float.
Proof. vm_compute. reflexivity. Qed.

(** ** The limitation of a zero acceleration *)

(** C2 (counterexample): for the zero acceleration the norm is zero, the
    ratio is [0/0], and the limitation returns an array of NaN, which is not
    the array it was given. *)
Lemma limit_zero_acceleration_changes :
  np_linalg_norm [0; 0; 0]%float = 0%float
  /\ limit_acceleration source_params [0; 0; 0]%float
     = [nan; nan; nan]%float
  /\ limit_acceleration source_params [0; 0; 0]%float <> [0; 0; 0]%float.
Proof.
  split; [vm_compute; reflexivity|].
  split; [vm_compute; reflexivity|].
  intros H.
  assert (E : map PrimFloat.is_nan
                  (limit_acceleration source_params [0; 0; 0]%float)
              = map PrimFloat.is_nan [0; 0; 0]%float)
    by (rewrite H; reflexivity).
  vm_compute in E. discriminate E.
Qed.

(** C2 (amended): no step skips the scaling.  For a zero acceleration,
    whatever the signs of its zeros, the norm is [0], the clipped norm is
    divided by it, and every coordinate of the acceleration becomes NaN. *)
Theorem limit_zero_acceleration_is_nan :
  forall s0 s1 s2 : bool,
    np_linalg_norm [signed_zero s0; signed_zero s1; signed_zero s2] = 0%float
    /\ limit_acceleration source_params
         [signed_zero s0; signed_zero s1; signed_zero s2]
       = [nan; nan; nan]%float.
Proof.
  intros [|] [|] [|]; split; vm_compute; reflexivity.
Qed.

(** ** Exact arithmetic: the norm of the limited acceleration *)

Section RealNorm.

Local Open Scope R_scope.

Lemma sum_squares_acc (xs : list R) (acc : R) :
  fold_left (fun acc x => acc + x * x) xs acc = acc + sum_squares xs.
Proof.
  unfold sum_squares. change (@fzero R real_scalar) with 0.
  change (@fadd R real_scalar) with Rplus.
  change (@fmul R real_scalar) with Rmult.
  revert acc. induction xs as [|x xs IH]; intros acc; simpl fold_left.
  - lra.
  - rewrite IH, (IH (0 + x * x)). lra.
Qed.

Lemma sum_squares_cons (x : R) (xs : list R) :
  sum_squares (x :: xs) = x * x + sum_squares xs.
Proof.
  unfold sum_squares at 1. change (@fzero R real_scalar) with 0.
  change (@fadd R real_scalar) with Rplus.
  change (@fmul R real_scalar) with Rmult.
  simpl fold_left. rewrite sum_squares_acc. lra.
Qed.

Lemma sum_squares_nil : sum_squares (@nil R) = 0.
Proof. reflexivity. Qed.

Lemma sum_squares_nonneg (xs : list R) : 0 <= sum_squares xs.
Proof.
  induction xs as [|x xs IH].
  - rewrite sum_squares_nil. lra.
  - rewrite sum_squares_cons. nra.
Qed.

Lemma sum_squares_scale (xs : list R) (k : R) :
  sum_squares (np_scale xs k) = k * k * sum_squares xs.
Proof.
  induction xs as [|x xs IH].
  - change (np_scale (@nil R) k) with (@nil R). rewrite sum_squares_nil. lra.
  - change (np_scale (x :: xs) k) with (x * k :: np_scale xs k).
    rewrite !sum_squares_cons, IH. lra.
Qed.

Lemma norm_scale (xs : list R) (k : R) :
  0 <= k -> np_linalg_norm (np_scale xs k) = k * np_linalg_norm xs.
Proof.
  intros Hk. unfold np_linalg_norm.
  change (@fsqrt R real_scalar) with R_sqrt.sqrt.
  rewrite sum_squares_scale, sqrt_mult_alt by nra.
  rewrite sqrt_square by assumption. reflexivity.
Qed.

Lemma norm_nonneg (xs : list R) : 0 <= np_linalg_norm xs.
Proof. apply sqrt_pos. Qed.

Lemma np_clip_real (n m : R) :
  0 <= n -> 0 <= m -> np_clip n (- m) m = Rmin n m.
Proof.
  intros Hn Hm. unfold np_clip, np_maximum, np_minimum.
  change (@fisnan R real_scalar) with (fun _ : R => false).
  change (@fltb R real_scalar)
    with (fun x y : R => if Rlt_dec x y then true else false).
  cbv beta iota.
  destruct (Rlt_dec (- m) n) as [H1|H1].
  - destruct (Rlt_dec n m) as [H2|H2].
    + rewrite Rmin_left by lra. reflexivity.
    + rewrite Rmin_right by lra. reflexivity.
  - destruct (Rlt_dec (- m) m) as [H2|H2].
    + lra.
    + rewrite Rmin_left by lra. lra.
Qed.

End RealNorm.

(** The limitation by itself, in exact arithmetic: when the bound [a_max]
    is not negative and the norm of an acceleration is not zero, the
    limited acceleration has a norm of at most [a_max]. *)
Theorem limited_acceleration_bounded :
  forall (p : params R) (a_new : list R),
    (0 <= a_max p)%R ->
    np_linalg_norm a_new <> 0%R ->
    (np_linalg_norm (limit_acceleration p a_new) <= a_max p)%R.
Proof.
  intros p a_new Hmax Hnorm.
  pose proof (norm_nonneg a_new) as Hpos.
  unfold limit_acceleration.
  change (@fopp R real_scalar) with Ropp.
  change (@fdiv R real_scalar) with Rdiv.
  rewrite np_clip_real by assumption.
  assert (Hn : (0 < np_linalg_norm a_new)%R) by lra.
  assert (Hmin : (0 <= Rmin (np_linalg_norm a_new) (a_max p))%R)
    by (apply Rmin_glb; assumption).
  rewrite norm_scale.
  - unfold Rdiv. rewrite Rmult_assoc, Rinv_l by assumption.
    rewrite Rmult_1_r. apply Rmin_r.
  - unfold Rdiv. apply Rmult_le_pos; [assumption|].
    left. apply Rinv_0_lt_compat. assumption.
Qed.

(** The acceleration (3,4,0) has norm 5 and is limited to norm 1. *)
Lemma limited_acceleration_bounded_witness :
  (np_linalg_norm (limit_acceleration source_params [3; 4; 0]%R)
   <= a_max source_params)%R.
Proof.
  apply (limited_acceleration_bounded source_params [3; 4; 0]%R).
  - change (a_max (@source_params R real_scalar)) with (1 / 1)%R. lra.
  - unfold np_linalg_norm. change (@fsqrt R real_scalar) with R_sqrt.sqrt.
    rewrite !sum_squares_cons, sum_squares_nil.
    intros H. apply sqrt_eq_0 in H; lra.
Defined.

(** ** Exact arithmetic: the gate position *)

(** C8: for a path whose first sample holds the three coordinates
    [(g0, g1, g2)] of gate [segment_num], [generate_gate_pos] returns
    [(g0, g1 + 0.02 sin(2 pi 4 t / 20), g2)], a value fixed by [t] and by
    these coordinates, and leaves the path as it was. *)
Theorem gate_position_oscillates :
  forall (c : constants) (path : @matrix R) (t : R) (segment_num : nat)
         (g0 g1 g2 : R),
    0 < length path ->
    gate_of c path 0 segment_num = [g0; g1; g2] ->
    generate_gate_pos Rtrigo_def.sin PI c source_params t segment_num path
    = Ok ([g0; (g1 + 0.02 * Rtrigo_def.sin (2 * PI * 4 * t / 20))%R; g2],
          path).
Proof.
  intros c path t segment_num g0 g1 g2 Hlen Hgate.
  rewrite generate_gate_pos_ok by (rewrite ?Hgate; auto).
  rewrite Hgate. unfold oscillation.
  cbv [zip_with source_params gate_amp gate_freq t_total fadd fmul fdiv flit
       fzero real_scalar].
  replace (g0 + 0)%R with g0 by ring.
  replace (g2 + 0)%R with g2 by ring.
  replace (2 / 100)%R with 0.02%R by lra.
  replace (2 / 1 * PI * (4 / 1) * t / (20 / 1))%R
    with (2 * PI * 4 * t / 20)%R by field.
  reflexivity.
Qed.

(** The first gate of the two-sample path, at time 5. *)
Lemma gate_position_oscillates_witness :
  generate_gate_pos Rtrigo_def.sin PI two_gates source_params 5%R 0
                    (two_sample_path 0 1)
  = Ok ([0; (1 + 0.02 * Rtrigo_def.sin (2 * PI * 4 * 5 / 20)); 0]%R,
        two_sample_path 0 1).
Proof.
  apply (gate_position_oscillates two_gates (two_sample_path 0 1) 5%R 0).
  - simpl. lia.
  - reflexivity.
Defined.

(** The in-place addition writes into the path when it is applied to a view,
    as [generate_gate_pos] would without its [copy()]. *)
Lemma iadd_on_view_writes_path :
  exists path',
    bind (path_row_slice 0 1 4) (fun view => iadd view [1; 1; 1]%float)
         two_gate_path
    = Ok (RowView 0 1 4, path')
    /\ path' <> two_gate_path.
Proof.
  eexists. split; [vm_compute; reflexivity|].
  intros H.
  assert (E : map (map PrimFloat.is_zero)
                  [[0; 1; 1; 1; 2; 0; 0; 0; 0; 0];
                   [0.5; 0; 0; 0; 2; 0; 0; 1; 0; 0];
                   [1; 0; 0; 0; 2; 0; 0; 2; 0; 0]]%float
              = map (map PrimFloat.is_zero) two_gate_path)
    by (rewrite H; reflexivity).
  vm_compute in E. discriminate E.
Qed.

(** ** Exact arithmetic: the first minimum *)

Section RealArgmin.

Local Open Scope R_scope.

Lemma argmin_from_real (rest : list R) :
  forall (pre : list R) (min_ind : nat) (mp : R),
    (min_ind < length pre)%nat ->
    nth min_ind pre 0 = mp ->
    (forall j, (j < length pre)%nat -> mp <= nth j pre 0) ->
    (forall j, (j < min_ind)%nat -> mp < nth j pre 0) ->
    let k := argmin_from rest (length pre) min_ind mp in
    (k < length (pre ++ rest))%nat
    /\ (forall j, (j < length (pre ++ rest))%nat ->
                  nth k (pre ++ rest) 0 <= nth j (pre ++ rest) 0)
    /\ (forall j, (j < k)%nat ->
                  nth k (pre ++ rest) 0 < nth j (pre ++ rest) 0).
Proof.
  induction rest as [|x rest IH]; intros pre min_ind mp Hlt Hmp Hmin Hstrict.
  - simpl. rewrite app_nil_r. subst mp. auto.
  - cbn [argmin_from].
    change (@fisnan R real_scalar x) with false.
    change (@fleb R real_scalar mp x)
      with (if Rle_dec mp x then true else false).
    assert (Hsplit : pre ++ x :: rest = (pre ++ [x]) ++ rest)
      by (rewrite <- app_assoc; reflexivity).
    assert (Hlen : length (pre ++ [x]) = S (length pre))
      by (rewrite length_app; simpl; lia).
    assert (Hx : nth (length pre) (pre ++ [x]) 0 = x)
      by (rewrite app_nth2, Nat.sub_diag by lia; reflexivity).
    destruct (Rle_dec mp x) as [Hle|Hgt]; cbn [negb].
    + rewrite Hsplit, <- Hlen. apply IH.
      * rewrite Hlen. lia.
      * rewrite app_nth1 by assumption. assumption.
      * intros j Hj. rewrite Hlen in Hj.
        destruct (Nat.eq_dec j (length pre)) as [->|Hne].
        -- rewrite Hx. assumption.
        -- rewrite app_nth1 by lia. apply Hmin. lia.
      * intros j Hj. rewrite app_nth1 by lia. apply Hstrict. assumption.
    + rewrite Hsplit, <- Hlen. apply IH.
      * rewrite Hlen. lia.
      * assumption.
      * intros j Hj. rewrite Hlen in Hj.
        destruct (Nat.eq_dec j (length pre)) as [->|Hne].
        -- rewrite Hx. lra.
        -- rewrite app_nth1 by lia.
           assert (mp <= nth j pre 0) by (apply Hmin; lia). lra.
      * intros j Hj. rewrite app_nth1 by lia.
        assert (mp <= nth j pre 0) by (apply Hmin; lia). lra.
Qed.

(** [np.argmin] on real numbers: the least index among those of the least
    value. *)
Lemma np_argmin_real (xs : list R) (k : nat) :
  np_argmin xs = Ok k ->
  (k < length xs)%nat
  /\ (forall j, (j < length xs)%nat -> nth k xs 0 <= nth j xs 0)
  /\ (forall j, (j < k)%nat -> nth k xs 0 < nth j xs 0).
Proof.
  destruct xs as [|x rest]; [discriminate|].
  unfold np_argmin. change (@fisnan R real_scalar x) with false.
  intros [= <-].
  apply (@argmin_from_real rest [x] 0%nat x).
  - simpl. lia.
  - reflexivity.
  - intros j Hj. simpl in Hj. replace j with 0%nat by lia. simpl. lra.
  - intros j Hj. lia.
Qed.

Lemma map_nth_seq {A B : Type} (f : A -> B) (d : A) (l : list A) :
  map (fun j => f (nth j l d)) (seq 0 (length l)) = map f l.
Proof.
  induction l as [|a l IH]; [reflexivity|].
  cbn [length seq map nth]. f_equal.
  rewrite <- seq_shift, map_map. exact IH.
Qed.

Lemma cdist_col0_inv (XA XB : @matrix R) (dist : list R) :
  cdist_col0 XA XB = Ok dist ->
  exists b0 rest,
    XB = b0 :: rest /\ dist = map (fun a => euclidean a b0) XA.
Proof.
  unfold cdist_col0. destruct (ncols XA =? ncols XB); [|discriminate].
  destruct XB as [|b0 rest]; [discriminate|].
  intros [= <-]. eauto.
Qed.

Lemma gate_segment_end_distances (c : constants) (data : @matrix R)
      (g k : nat) :
  g <> (G_NUM_GATES c - 1)%nat ->
  gate_segment_end c data g = Ok k ->
  np_argmin (map (gate_distance c data g) (seq 0 (length data))) = Ok k.
Proof.
  intros Hg H. unfold gate_segment_end in H.
  destruct (Nat.eqb_spec g (G_NUM_GATES c - 1)); [contradiction|].
  apply rbind_inv in H as (dist & Hd & H).
  apply cdist_col0_inv in Hd as (b0 & rest & Hb & ->).
  assert (Hb0 : b0 = slice (G_GATE_IDX c + g * 3)
                           (G_GATE_IDX c + g * 3 + G_NUM_GATE_DIMS c)
                           (nth 0 data [])).
  { destruct data as [|r0 data]; [discriminate|].
    cbn [map] in Hb. injection Hb as <- _. reflexivity. }
  rewrite map_map in H. rewrite <- H. f_equal.
  unfold gate_distance. rewrite <- Hb0.
  apply (map_nth_seq (fun r => euclidean (skipn (G_POS_IDX c) r) b0)).
Qed.

End RealArgmin.

(** Over the real numbers: the segment end that [_detect_segments] returns
    for a gate that is not the last one is a sample index at which the
    distance to the gate is the least, and no sample before it is at that
    distance: among the samples that attain the least distance it is the
    one of lowest index. *)
Theorem segment_end_first_minimum :
  forall (c : constants) (data : @matrix R) (segs : list nat) (g k : nat),
    _detect_segments c data = Ok segs ->
    g + 1 < G_NUM_GATES c ->
    nth_error segs g = Some k ->
    k < length data
    /\ (forall j, j < length data ->
                  (gate_distance c data g k <= gate_distance c data g j)%R)
    /\ (forall j, j < length data ->
                  gate_distance c data g j = gate_distance c data g k ->
                  k <= j).
Proof.
  intros c data segs g k Hsegs Hg Hk.
  destruct (detect_segments_ends c data Hsegs) as [_ Hends].
  apply Hends in Hk.
  apply gate_segment_end_distances in Hk; [|lia].
  apply np_argmin_real in Hk as (Hlt & Hmin & Hfirst).
  rewrite length_map, length_seq in Hlt, Hmin.
  assert (Hnth : forall j, j < length data ->
            nth j (map (gate_distance c data g) (seq 0 (length data))) 0%R
            = gate_distance c data g j).
  { intros j Hj.
    rewrite (nth_indep _ 0%R (gate_distance c data g 0))
      by (rewrite length_map, length_seq; assumption).
    rewrite map_nth, seq_nth by assumption. reflexivity. }
  split; [assumption|]. split.
  - intros j Hj. rewrite <- (Hnth k Hlt), <- (Hnth j Hj). apply Hmin.
    assumption.
  - intros j Hj Heq.
    destruct (Nat.le_gt_cases k j) as [Hle|Hgt]; [assumption|].
    specialize (Hfirst j Hgt).
    rewrite (Hnth k Hlt), (Hnth j Hj) in Hfirst. lra.
Qed.

(** The tie of the three-sample path in IEEE arithmetic: samples 1 and 2
    are at distance 1 from the first gate and sample 0 at distance 5; the
    end of the first segment is 1. *)
Lemma tie_path_segments :
  gate_distance two_gates tie_path 0 1 = gate_distance two_gates tie_path 0 2
  /\ _detect_segments two_gates tie_path = Ok [1; 3].
Proof. split; vm_compute; reflexivity. Qed.

Section RealRuns.

Local Open Scope R_scope.

Lemma euclidean_three (a0 a1 a2 b0 b1 b2 : R) :
  euclidean [a0; a1; a2] [b0; b1; b2]
  = R_sqrt.sqrt ((a0 - b0) * (a0 - b0) + (a1 - b1) * (a1 - b1)
                 + (a2 - b2) * (a2 - b2)).
Proof.
  unfold euclidean, sq_diff_sum.
  cbv [combine fold_left fst snd fadd fsub fmul fzero fsqrt real_scalar].
  f_equal. ring.
Qed.

Lemma two_sample_segments (t0 t1 : R) :
  _detect_segments two_gates (two_sample_path t0 t1) = Ok [0%nat; 2%nat].
Proof.
  unfold _detect_segments, two_sample_path.
  cbv [detect_loop seq G_NUM_GATES two_gates gate_segment_end Nat.eqb Nat.sub
       G_GATE_IDX G_NUM_GATE_DIMS G_POS_IDX Nat.add Nat.mul rbind
       cdist_col0 ncols map skipn slice firstn length app].
  rewrite !euclidean_three.
  cbv [np_argmin argmin_from fisnan fleb real_scalar negb].
  destruct (Rle_dec _ _) as [H|H]; [reflexivity|].
  exfalso. apply H. apply sqrt_le_1_alt. lra.
Qed.

End RealRuns.

(** ** Exact arithmetic: the correction with the limitation inactive *)

Section Unclamped.

Local Open Scope R_scope.

Variable c : constants.
Variable p : params R.
Variable path : @matrix R.
Hypothesis Hwf : wf_layout c path.
Hypothesis Hamp : gate_amp p = 0.

Lemma length_three_inv (l : list R) :
  length l = 3%nat -> exists a b d, l = [a; b; d].
Proof.
  destruct l as [|a [|b [|d [|e l]]]]; simpl; intros H; try discriminate.
  eauto.
Qed.

(** A norm that is positive and within the bound is clipped to itself, and
    the acceleration is scaled by 1. *)
Lemma limit_inactive (a : list R) :
  0 < np_linalg_norm a <= a_max p -> limit_acceleration p a = a.
Proof.
  intros [Hpos Hle]. unfold limit_acceleration.
  change (@fopp R real_scalar) with Ropp.
  change (@fdiv R real_scalar) with Rdiv.
  rewrite np_clip_real by lra.
  rewrite Rmin_left by assumption.
  unfold Rdiv. rewrite Rinv_r by lra.
  unfold np_scale. change (@fmul R real_scalar) with Rmult.
  rewrite <- (map_id a) at 2. apply map_ext. intros x. ring.
Qed.

(** The position that a step appends when its limitation is inactive. *)
Lemma unclamped_position (segments : list nat) (i e : nat)
      (st : loop_state R) :
  length (x_path_offset st) = 3%nat -> length (v_curr st) = 3%nat ->
  (i + 1 < length path)%nat -> (e < length path)%nat ->
  (current_segment segments i < G_NUM_GATES c)%nat ->
  let k := pure_kinematics Rtrigo_def.sin PI c p path segments i e st in
  k_dt k <> 0 ->
  0 < np_linalg_norm (k_a_new k) <= a_max p ->
  pure_position p st k
  = zip_with Rplus (tooltip_of c path (i + 1))
             (zip_with Rminus (gate_of c path 0 (current_segment segments i))
                       (tooltip_of c path e)).
Proof.
  intros Hoff Hv Hi He Hs k Hdt Hnorm.
  unfold pure_position, pure_velocity.
  rewrite (limit_inactive _ Hnorm).
  assert (La : length (tooltip_of c path i) = 3%nat)
    by (apply wf_tooltip_length; [exact Hwf | lia]).
  assert (Lb : length (tooltip_of c path (i + 1)) = 3%nat)
    by (apply wf_tooltip_length; [exact Hwf | lia]).
  assert (Le : length (tooltip_of c path e) = 3%nat)
    by (apply wf_tooltip_length; [exact Hwf | lia]).
  assert (Lg : length (gate_of c path 0 (current_segment segments i)) = 3%nat)
    by (apply wf_gate_length; [exact Hwf | lia | exact Hs]).
  destruct (length_three_inv _ Hoff) as (o0 & o1 & o2 & Eo).
  destruct (length_three_inv _ Hv) as (v0 & v1 & v2 & Ev).
  destruct (length_three_inv _ La) as (a0 & a1 & a2 & Ea).
  destruct (length_three_inv _ Lb) as (b0 & b1 & b2 & Eb).
  destruct (length_three_inv _ Le) as (e0 & e1 & e2 & Ee).
  destruct (length_three_inv _ Lg) as (g0 & g1 & g2 & Eg).
  revert Hdt. subst k.
  unfold pure_kinematics, oscillation.
  cbn [k_x_curr k_dx k_dt k_a_new].
  rewrite Eo, Ev, Ea, Eb, Ee, Eg, Hamp.
  set (dt := fsub (fmul (time_of c path (i + 1)) (t_total p))
                  (fmul (time_of c path i) (t_total p))).
  set (s := Rtrigo_def.sin _).
  intros Hdt.
  cbv [zip_with np_scale np_divide map fadd fsub fmul fdiv fzero real_scalar].
  f_equal; [|f_equal; [|f_equal]]; field; exact Hdt.
Qed.

Lemma positions_push (np : option (stacked R)) (x : list R) :
  positions (Some (push_position np x)) = positions np ++ [x].
Proof. destruct np as [[u|rows]|]; reflexivity. Qed.

Lemma filter_not_last (n : nat) :
  filter (fun i => negb (i =? n - 1)) (seq 0 n) = seq 0 (n - 1).
Proof.
  destruct n as [|n]; [reflexivity|].
  rewrite seq_S, filter_app. simpl.
  replace (n - 0)%nat with n by lia. rewrite Nat.eqb_refl. simpl.
  rewrite app_nil_r.
  assert (H : forall a m, (a + m <= n)%nat ->
            filter (fun i => negb (i =? n)) (seq a m) = seq a m).
  { intros a m. revert a. induction m as [|m IH]; intros a Hle; simpl.
    - reflexivity.
    - destruct (Nat.eqb_spec a n); [lia|]. simpl. rewrite IH by lia.
      reflexivity. }
  apply H. lia.
Qed.

Lemma unclamped_loop (segments : list nat) (n : nat) :
  length segments = G_NUM_GATES c ->
  forall (indices : list nat) (st : loop_state R),
    state_wf st ->
    clamp_inactive c p segments n indices st path ->
    exists st',
      main_loop Rtrigo_def.sin PI c p segments n indices st path
      = Ok (st', path)
      /\ state_wf st'
      /\ positions (new_path st')
         = positions (new_path st)
           ++ map (shifted_position c path segments)
                  (filter (fun i => negb (i =? n - 1)) indices).
Proof.
  intros Hlen. induction indices as [|i rest IH]; intros st Hst Hin.
  - exists st. simpl. rewrite app_nil_r. auto.
  - cbn [main_loop clamp_inactive filter] in *.
    destruct (Nat.eqb_spec i (n - 1)) as [E|E]; cbn [negb].
    + apply IH; assumption.
    + destruct (step_kinematics _ _ _ _ _ _ _ _) as [[k p1]|err] eqn:Ek;
        [|contradiction].
      destruct Hin as (Hdt & Hnorm & Hin).
      destruct (step_update p st k) as [st1|err] eqn:Eu; [|contradiction].
      destruct Hst as (Hoff & Hv & Hnp).
      pose proof Ek as Ek'.
      apply step_kinematics_inv in Ek'
        as (-> & Hi & (e & He & Hlt) & _); [|assumption].
      assert (Hseg : (current_segment segments i < length segments)%nat)
        by (eapply target_index_segment; eassumption).
      rewrite Hlen in Hseg.
      rewrite (step_kinematics_ok Rtrigo_def.sin PI p Hwf segments i st
                 Hoff Hv Hi He Hlt Hseg) in Ek.
      injection Ek as <-.
      destruct (pure_kinematics_lengths Rtrigo_def.sin PI p Hwf segments i st
                  Hoff Hv Hi Hlt Hseg) as (K1 & K2 & K3).
      destruct (step_update_ok p _ (conj Hoff (conj Hv Hnp)) K1 K2 K3)
        as [Hup Hst1].
      rewrite Hup in Eu. injection Eu as <-.
      destruct (IH _ Hst1 Hin) as (st' & Hloop & Hst' & Hpos).
      edestruct (@correction_step_ok R real_scalar Rtrigo_def.sin PI c p path
                   segments i e st) as [Hstep _];
        [exact Hwf | exact Hlen | exact (conj Hoff (conj Hv Hnp))
         | exact Hi | exact He | exact Hlt |].
      exists st'. split; [erewrite bind_ok by exact Hstep; exact Hloop|].
      split; [assumption|].
      rewrite Hpos. cbn [map pure_update new_path].
      rewrite positions_push, <- app_assoc. cbn [app].
      f_equal. f_equal.
      rewrite (@unclamped_position segments i e st Hoff Hv Hi Hlt Hseg Hdt Hnorm).
      unfold shifted_position, target_index in *.
      apply list_item_inv in He.
      rewrite (nth_error_nth _ _ 0%nat He). reflexivity.
Qed.

End Unclamped.

Lemma main_of_loop (F : Type) (SF : Scalar F) (np_sin : F -> F) (np_pi : F)
      (c : constants) (p : params F) (path : @matrix F)
      (segments : list nat) (st : loop_state F) :
  wf_layout c path ->
  _detect_segments c path = Ok segments ->
  main_loop np_sin np_pi c p segments (length path) (seq 0 (length path))
            initial_state path = Ok (st, path) ->
  state_wf st ->
  length (positions (new_path st)) = length path - 1 ->
  exists full, main np_sin np_pi c p path = Ok ((new_path st, full), path).
Proof.
  intros Hwf Hseg Hloop Hst Hlen.
  destruct (@assign_cols_ok _ _ (G_POS_IDX c)
              (G_POS_IDX c + G_NUM_POS_DIMS c)
              (firstn (length path - 1) path) (new_path st))
    as [full Hfull].
  - apply Forall_forall. intros r Hr.
    apply In_nth with (d := []) in Hr as (k & Hk & <-).
    rewrite length_firstn in Hk.
    rewrite nth_firstn.
    destruct (Nat.ltb_spec k (length path - 1)); [|lia].
    apply (wf_tooltip_length Hwf). lia.
  - apply Hst.
  - rewrite Hlen, length_firstn. lia.
  - exists full.
    rewrite main_unfold, Hseg, Hloop, slice_from_zero, Hfull. reflexivity.
Qed.

(** With a gate that does not move and the limitation inactive at every
    step, [main] returns the recorded positions moved by the difference
    between gate and segment end. *)
Lemma unclamped_main (c : constants) (p : params R) (path : @matrix R)
      (segments : list nat) :
  wf_layout c path ->
  gate_amp p = 0%R ->
  _detect_segments c path = Ok segments ->
  clamp_inactive c p segments (length path) (seq 0 (length path))
                 initial_state path ->
  exists np full,
    main Rtrigo_def.sin PI c p path = Ok ((np, full), path)
    /\ positions np
       = map (shifted_position c path segments) (seq 0 (length path - 1)).
Proof.
  intros Hwf Hamp Hseg Hin.
  destruct (detect_segments_ends c path Hseg) as [Hlen _].
  destruct (@unclamped_loop c p path Hwf Hamp segments (length path) Hlen
              (seq 0 (length path)) initial_state initial_state_wf Hin)
    as (st & Hloop & Hst & Hpos).
  cbn [initial_state new_path positions app] in Hpos.
  rewrite filter_not_last in Hpos.
  destruct (@main_of_loop R real_scalar Rtrigo_def.sin PI c p path segments st
              Hwf Hseg Hloop Hst) as [full Hmain].
  - rewrite Hpos, length_map, length_seq. reflexivity.
  - exists (new_path st), full. split; assumption.
Qed.

(** C5 (amended): in exact arithmetic, for a path of the expected layout,
    with amplitude 0 and a limitation that is inactive at every step (every
    time step is not zero, every computed acceleration has a positive norm
    of at most [a_max], every target is read at a sample), the corrected
    position of step [i] is the recorded position of sample [i + 1] moved by
    the recorded position of the gate of the step minus the recorded tooltip
    position at the end of its segment. *)
Theorem unclamped_correction_is_shift :
  forall (c : constants) (p : params R) (path : @matrix R)
         (segments : list nat),
    wf_layout c path ->
    gate_amp p = 0%R ->
    _detect_segments c path = Ok segments ->
    clamp_inactive c p segments (length path) (seq 0 (length path))
                   initial_state path ->
    exists np full,
      main Rtrigo_def.sin PI c p path = Ok ((np, full), path)
      /\ positions np
         = map (shifted_position c path segments)
               (seq 0 (length path - 1)).
Proof.
  intros c p path segments Hwf Hamp Hseg Hin.
  apply unclamped_main; assumption.
Qed.

(** The correction is the identity where the gate of each step is recorded
    at the tooltip position of the end of its segment. *)
Lemma unclamped_correction_identity (c : constants) (p : params R)
      (path : @matrix R) (segments : list nat) :
  wf_layout c path ->
  gate_amp p = 0%R ->
  _detect_segments c path = Ok segments ->
  clamp_inactive c p segments (length path) (seq 0 (length path))
                 initial_state path ->
  (forall i, i + 1 < length path ->
             gate_of c path 0 (current_segment segments i)
             = tooltip_of c path
                 (nth (current_segment segments i) segments 0)) ->
  exists np full,
    main Rtrigo_def.sin PI c p path = Ok ((np, full), path)
    /\ positions np
       = map (fun i => tooltip_of c path (i + 1)) (seq 0 (length path - 1)).
Proof.
  intros Hwf Hamp Hseg Hin Hgate.
  destruct (@unclamped_main c p path segments Hwf Hamp Hseg Hin)
    as (np & full & Hmain & Hpos).
  exists np, full. split; [assumption|].
  apply main_inv in Hmain as (_ & _ & _ & _ & segs' & Hseg' & Hrange).
  rewrite Hseg in Hseg'. injection Hseg' as <-.
  rewrite Hpos. apply map_ext_in. intros i Hi. apply in_seq in Hi.
  destruct (Hrange i) as (_ & e & He & Hlt); [lia|].
  unfold target_index in He. apply list_item_inv in He.
  unfold shifted_position. cbv zeta. rewrite Hgate by lia.
  rewrite (nth_error_nth _ _ 0 He).
  assert (L1 : length (tooltip_of c path (i + 1)) = 3)
    by (apply wf_tooltip_length; [exact Hwf | lia]).
  assert (L2 : length (tooltip_of c path e) = 3)
    by (apply wf_tooltip_length; [exact Hwf | lia]).
  destruct (length_three_inv _ L1) as (b0 & b1 & b2 & ->).
  destruct (length_three_inv _ L2) as (e0 & e1 & e2 & ->).
  cbv [zip_with fadd fsub real_scalar].
  f_equal; [|f_equal; [|f_equal]]; ring.
Qed.

(** ** Runs on the two-sample path *)

Section TwoSampleRuns.

Local Open Scope R_scope.

Lemma two_sample_wf (t0 t1 : R) : wf_layout two_gates (two_sample_path t0 t1).
Proof.
  split; [reflexivity|]. unfold two_sample_path.
  apply Forall_cons; [|apply Forall_cons; [|apply Forall_nil]];
    (split; [simpl; lia | split; [simpl; lia |]]);
    intros s Hs; simpl in *; lia.
Qed.

Lemma two_sample_in_range (t0 t1 : R) (j : nat) :
  (j + 1 < length (two_sample_path t0 t1))%nat ->
  in_range (two_sample_path t0 t1) [0%nat; 2%nat] j.
Proof.
  simpl. intros Hj. assert (j = 0%nat) by lia. subst j.
  split; [simpl; lia|]. exists 0%nat. split; [reflexivity | simpl; lia].
Qed.

Lemma sqrt_within (x m : R) : 0 < x -> x <= m * m -> 0 <= m ->
  0 < R_sqrt.sqrt x <= m.
Proof.
  intros Hx Hm Hpos. split; [apply sqrt_lt_R0; assumption|].
  rewrite <- (sqrt_square m) by assumption. apply sqrt_le_1_alt. assumption.
Qed.

Lemma two_sample_clamp_inactive :
  clamp_inactive two_gates still_gate_params [0%nat; 2%nat] 2
                 (seq 0 2) initial_state (two_sample_path 0 1).
Proof.
  cbn [clamp_inactive seq Nat.eqb Nat.sub].
  rewrite (@step_kinematics_ok R real_scalar Rtrigo_def.sin PI two_gates
             still_gate_params (two_sample_path 0 1) (two_sample_wf 0 1)
             [0%nat; 2%nat] 0%nat 0%nat initial_state).
  2: reflexivity. 2: reflexivity. 2: (unfold two_sample_path; simpl; lia).
  2: reflexivity. 2: (unfold two_sample_path; simpl; lia).
  2: (cbv; lia).
  assert (Hk : pure_kinematics Rtrigo_def.sin PI two_gates still_gate_params
                 (two_sample_path 0 1) [0%nat; 2%nat] 0 0 initial_state
               = {| k_x_curr := [0 + 0; 0 + 0; 0 + 0];
                    k_dx := [1 + 0 - (0 + 0); 0 + 0 - (0 + 0);
                             0 + 0 - (0 + 0)];
                    k_dt := 1 * (20 / 1) - 0 * (20 / 1);
                    k_a_new :=
                      [((1 + 0 + (0 + 0 - (0 + 0)) - (0 + 0))
                        / (1 * (20 / 1) - 0 * (20 / 1)) - 0)
                       / (1 * (20 / 1) - 0 * (20 / 1));
                       ((0 + 0
                         + (1 + 0 * Rtrigo_def.sin
                                      (2 / 1 * PI * (4 / 1) * (0 * (20 / 1))
                                       / (20 / 1))
                            - (0 + 0)) - (0 + 0))
                        / (1 * (20 / 1) - 0 * (20 / 1)) - 0)
                       / (1 * (20 / 1) - 0 * (20 / 1));
                       ((0 + 0 + (0 + 0 - (0 + 0)) - (0 + 0))
                        / (1 * (20 / 1) - 0 * (20 / 1)) - 0)
                       / (1 * (20 / 1) - 0 * (20 / 1))] |})
    by reflexivity.
  rewrite Hk. cbn [k_dt k_a_new].
  split; [lra|]. split.
  - unfold np_linalg_norm. change (@fsqrt R real_scalar) with R_sqrt.sqrt.
    rewrite !sum_squares_cons, sum_squares_nil.
    change (a_max (@still_gate_params R real_scalar)) with (100 / 1).
    apply sqrt_within; [| |lra].
    + replace (0 * Rtrigo_def.sin _) with 0 by ring. lra.
    + replace (0 * Rtrigo_def.sin _) with 0 by ring. lra.
  - match goal with
    | |- match step_update ?p ?st ?k with _ => _ end =>
        rewrite (proj1 (@step_update_ok R real_scalar p st k
                          initial_state_wf eq_refl eq_refl eq_refl))
    end.
    exact I.
Qed.

End TwoSampleRuns.

(** ** Witnesses and counterexamples in exact arithmetic *)

(** The two-sample path with a gate that does not move: the limitation is
    inactive and the corrected position is the shifted one. *)
Lemma unclamped_correction_is_shift_witness :
  exists np full,
    main Rtrigo_def.sin PI two_gates still_gate_params (two_sample_path 0 1)
    = Ok ((np, full), two_sample_path 0 1)
    /\ positions np
       = map (shifted_position two_gates (two_sample_path 0 1) [0; 2])
             (seq 0 (length (two_sample_path 0 1) - 1)).
Proof.
  apply (@unclamped_correction_is_shift two_gates still_gate_params
           (two_sample_path 0 1) [0; 2]).
  - apply two_sample_wf.
  - reflexivity.
  - apply two_sample_segments.
  - apply two_sample_clamp_inactive.
Defined.

(** C5 (counterexample): on the two-sample path, with amplitude 0 and
    [a_max = 100], the limitation is inactive, and yet the corrected
    position is (1,1,0) where the recorded position of sample 1 is
    (1,0,0): the gate is recorded at (0,1,0) and the segment ends at
    sample 0, whose tooltip is at (0,0,0). *)
Lemma still_gate_correction_not_identity :
  gate_amp (@still_gate_params R real_scalar) = 0%R
  /\ clamp_inactive two_gates still_gate_params [0; 2] 2 (seq 0 2)
                    initial_state (two_sample_path 0 1)
  /\ exists np full,
       main Rtrigo_def.sin PI two_gates still_gate_params
            (two_sample_path 0 1)
       = Ok ((np, full), two_sample_path 0 1)
       /\ positions np = [[1 + (0 - 0); 0 + (1 - 0); 0 + (0 - 0)]%R]
       /\ positions np <> [tooltip_of two_gates (two_sample_path 0 1) 1].
Proof.
  split; [reflexivity|]. split; [apply two_sample_clamp_inactive|].
  destruct (@unclamped_main two_gates still_gate_params (two_sample_path 0 1)
              [0; 2] (two_sample_wf 0 1)
              (eq_refl : gate_amp (@still_gate_params R real_scalar) = 0%R)
              (two_sample_segments 0 1)
              two_sample_clamp_inactive)
    as (np & full & Hmain & Hpos).
  exists np, full. split; [exact Hmain|].
  split; [exact Hpos|].
  rewrite Hpos. intros H.
  assert (E : (0 + (1 - 0) = 0)%R) by (injection H; auto).
  lra.
Qed.

(** C3 (counterexample): two samples with the same time 0; [main] returns,
    with one position, and raises nothing. *)
Lemma duplicate_timestamps_accepted :
  time_of two_gates (two_sample_path 0 0) 1
  = time_of two_gates (two_sample_path 0 0) 0
  /\ exists np full,
       main Rtrigo_def.sin PI two_gates source_params (two_sample_path 0 0)
       = Ok ((np, full), two_sample_path 0 0)
       /\ length (positions np) = 1.
Proof.
  split; [reflexivity|].
  apply (@main_ok R real_scalar Rtrigo_def.sin PI two_gates source_params
           (two_sample_path 0 0) [0; 2]).
  - apply two_sample_wf.
  - apply two_sample_segments.
  - apply two_sample_in_range.
Qed.

Lemma duplicate_timestamps_raise_nothing_witness :
  exists np full,
    main Rtrigo_def.sin PI two_gates source_params (two_sample_path 0 0)
    = Ok ((np, full), two_sample_path 0 0)
    /\ length (positions np) = length (two_sample_path 0 0) - 1.
Proof.
  apply (@duplicate_timestamps_raise_nothing R real_scalar Rtrigo_def.sin PI
           two_gates source_params (two_sample_path 0 0) [0; 2] 0).
  - apply two_sample_wf.
  - apply two_sample_segments.
  - apply two_sample_in_range.
  - simpl. lia.
  - reflexivity.
Defined.

Lemma full_path_frame_witness :
  exists np full,
    main Rtrigo_def.sin PI two_gates source_params (two_sample_path 0 1)
    = Ok ((np, full), two_sample_path 0 1)
    /\ length full = length (two_sample_path 0 1) - 1.
Proof.
  destruct (@main_ok R real_scalar Rtrigo_def.sin PI two_gates source_params
              (two_sample_path 0 1) [0; 2] (two_sample_wf 0 1)
              (two_sample_segments 0 1)
              (@two_sample_in_range 0%R 1%R))
    as (np & full & Hmain & _).
  exists np, full. split; [exact Hmain|].
  apply (@full_path_frame R real_scalar Rtrigo_def.sin PI two_gates
           source_params (two_sample_path 0 1) 10 np full
           (two_sample_path 0 1)).
  - repeat constructor.
  - exact Hmain.
Defined.

(** The tie over the real numbers: samples 1 and 2 are at distance 1 from
    the first gate, sample 0 at distance 5, and the first segment ends at
    sample 1. *)
Lemma tie_path_real_segments :
  _detect_segments two_gates tie_path_real = Ok [1; 3].
Proof.
  unfold _detect_segments, tie_path_real.
  cbv [detect_loop seq G_NUM_GATES two_gates gate_segment_end Nat.eqb Nat.sub
       G_GATE_IDX G_NUM_GATE_DIMS G_POS_IDX Nat.add Nat.mul rbind
       cdist_col0 ncols map skipn slice firstn length app].
  rewrite !euclidean_three.
  cbv [np_argmin argmin_from fisnan fleb real_scalar negb].
  destruct (Rle_dec _ _) as [H|H].
  - exfalso. apply sqrt_le_0 in H; lra.
  - destruct (Rle_dec _ _) as [H'|H']; [reflexivity|].
    exfalso. apply H'. apply sqrt_le_1_alt. lra.
Qed.

Lemma segment_end_first_minimum_witness :
  1 < length tie_path_real
  /\ (forall j, j < length tie_path_real ->
                (gate_distance two_gates tie_path_real 0 1
                 <= gate_distance two_gates tie_path_real 0 j)%R)
  /\ (forall j, j < length tie_path_real ->
                gate_distance two_gates tie_path_real 0 j
                = gate_distance two_gates tie_path_real 0 1 ->
                1 <= j).
Proof.
  apply (@segment_end_first_minimum two_gates tie_path_real [1; 3] 0 1).
  - apply tie_path_real_segments.
  - simpl. lia.
  - reflexivity.
Defined.

(** * Further properties of the code *)

(** ** The list returned by [_detect_segments] *)

(** X1: when [_detect_segments] returns, its list holds one segment end for
    each gate; the end of the last gate is the number of samples
    [data.shape[0]], which is no index of a sample, and the end of every
    other gate is the index of a sample, so that [data] has one. *)
Theorem detect_segments_ends_shape :
  forall (F : Type) (SF : Scalar F) (c : constants) (data : @matrix F)
         (segs : list nat),
    _detect_segments c data = Ok segs ->
    length segs = G_NUM_GATES c
    /\ (0 < G_NUM_GATES c ->
        nth_error segs (G_NUM_GATES c - 1) = Some (length data)
        /\ nth_error data (length data) = None)
    /\ (forall g e, g + 1 < G_NUM_GATES c -> nth_error segs g = Some e ->
                    e < length data).
Proof.
  intros F SF c data segs H.
  destruct (detect_segments_ends c data H) as [Hlen Hends].
  split; [exact Hlen|]. split.
  - intros HG. split.
    + apply detect_segments_last; assumption.
    + apply nth_error_None. lia.
  - intros g e Hg He.
    apply (@gate_segment_end_bound F SF c data g e); [lia|].
    apply Hends. exact He.
Qed.

(** The path with two gates of which the tooltip reaches the first at
    sample 0: the ends are 0 and the number of samples, 3. *)
Lemma detect_segments_ends_shape_witness :
  length [0; 3] = G_NUM_GATES two_gates
  /\ (0 < G_NUM_GATES two_gates ->
      nth_error [0; 3] (G_NUM_GATES two_gates - 1)
      = Some (length two_gate_path)
      /\ nth_error two_gate_path (length two_gate_path) = None)
  /\ (forall g e, g + 1 < G_NUM_GATES two_gates ->
                  nth_error [0; 3] g = Some e ->
                  e < length two_gate_path).
Proof.
  apply (@detect_segments_ends_shape float float_scalar two_gates
           two_gate_path [0; 3]).
  vm_compute. reflexivity.
Defined.

(** ** The search for the current segment *)

Lemma find_segment_spec (segments : list nat) (i : nat) :
  forall j0,
    (exists k, find_segment segments i j0 = j0 + k
               /\ k < length segments
               /\ i <= nth k segments 0
               /\ forall m, m < k -> nth m segments 0 < i)
    \/ (find_segment segments i j0 = 0
        /\ forall m, m < length segments -> nth m segments 0 < i).
Proof.
  induction segments as [|s rest IH]; intros j0; simpl.
  - right. split; [reflexivity|]. intros m Hm. lia.
  - destruct (Nat.leb_spec i s) as [Hle|Hgt].
    + left. exists 0.
      split; [lia|]. split; [lia|]. split; [exact Hle|].
      intros m Hm. lia.
    + destruct (IH (S j0)) as [(k & E & Hk & Hik & Hbefore)|[E Hall]].
      * left. exists (S k).
        split; [lia|]. split; [lia|]. split; [exact Hik|].
        intros m Hm. destruct m as [|m]; [exact Hgt|]. apply Hbefore. lia.
      * right. split; [exact E|].
        intros m Hm. destruct m as [|m]; [exact Hgt|]. apply Hall. lia.
Qed.

(** X2: the segment of step [i] is the first [j] with [i <= segments[j]];
    when no end is that large the search leaves [seg_idx] at 0, so that the
    step is assigned to the first segment and nothing is raised. *)
Theorem current_segment_first_match :
  forall (segments : list nat) (i : nat),
    (current_segment segments i < length segments
     /\ i <= nth (current_segment segments i) segments 0
     /\ forall m, m < current_segment segments i -> nth m segments 0 < i)
    \/ (current_segment segments i = 0
        /\ forall m, m < length segments -> nth m segments 0 < i).
Proof.
  intros segments i. unfold current_segment.
  destruct (find_segment_spec segments i 0)
    as [(k & E & Hk & Hik & Hbefore)|[E Hall]].
  - left. rewrite E. simpl. auto.
  - right. auto.
Qed.

(** ** When [main] returns *)

Section LateGate.

Context {F : Type} {SF : Scalar F}.
Variable c : constants.
Variable path : @matrix F.
Variable segments : list nat.
Hypothesis Hseg : _detect_segments c path = Ok segments.

Lemma late_gate_in_range (i : nat) :
  late_gate c path segments -> i + 1 < length path -> in_range path segments i.
Proof.
  intros (g0 & e0 & Hg0 & He0 & Hlate) Hi.
  destruct (detect_segments_ends c path Hseg) as [Hlen Hends].
  split; [exact Hi|].
  unfold target_index, current_segment.
  destruct (find_segment_spec segments i 0)
    as [(k & E & Hk & Hik & Hbefore)|[E Hall]].
  - rewrite E. cbn [Nat.add].
    assert (Hkg : k <= g0).
    { destruct (Nat.le_gt_cases k g0) as [Hle|Hgt]; [exact Hle|].
      specialize (Hbefore g0 Hgt).
      rewrite (nth_error_nth _ _ 0 He0) in Hbefore. lia. }
    assert (Hnth : nth_error segments k = Some (nth k segments 0))
      by (apply nth_error_nth'; exact Hk).
    exists (nth k segments 0). split; [apply list_item_ok; exact Hnth|].
    apply (@gate_segment_end_bound F SF c path k); [lia|].
    apply Hends. exact Hnth.
  - exfalso.
    assert (Hg : g0 < length segments) by lia.
    specialize (Hall g0 Hg).
    rewrite (nth_error_nth _ _ 0 He0) in Hall. lia.
Qed.

Lemma in_range_late_gate :
  2 <= length path -> in_range path segments (length path - 2) ->
  late_gate c path segments.
Proof.
  intros Hn (_ & e & He & Hlt).
  destruct (detect_segments_ends c path Hseg) as [Hlen Hends].
  unfold target_index, current_segment in He.
  apply list_item_inv in He.
  assert (HG : 0 < G_NUM_GATES c).
  { rewrite <- Hlen. destruct segments; [|simpl; lia].
    destruct (find_segment _ _ _); discriminate. }
  pose proof (detect_segments_last c path Hseg HG) as Hlast.
  destruct (find_segment_spec segments (length path - 2) 0)
    as [(k & E & Hk & Hik & Hbefore)|[E Hall]].
  - rewrite E in He. cbn [Nat.add] in He.
    rewrite (nth_error_nth _ _ 0 He) in Hik.
    exists k, e. split; [|split; [exact He | exact Hik]].
    destruct (Nat.eq_dec k (G_NUM_GATES c - 1)) as [->|Hne]; [|lia].
    rewrite Hlast in He. injection He as <-. lia.
  - exfalso.
    assert (Hg : G_NUM_GATES c - 1 < length segments) by lia.
    specialize (Hall _ Hg).
    rewrite (nth_error_nth _ _ 0 Hlast) in Hall. lia.
Qed.

End LateGate.

(** X3: on a well-formed path of two samples or more, with one gate or
    more: when [_detect_segments] raises, [main] raises the same exception;
    when it returns the segment ends, [main] returns exactly when a gate
    other than the last has its segment end at one of the last two samples,
    and otherwise the step of the last sample but one reads its target at
    the index [len(path)] and [main] raises [IndexError]. *)
Theorem main_returns_iff_late_gate :
  forall (F : Type) (SF : Scalar F) (np_sin : F -> F) (np_pi : F)
         (c : constants) (p : params F) (path : @matrix F),
    wf_layout c path ->
    0 < G_NUM_GATES c ->
    2 <= length path ->
    (forall e, _detect_segments c path = Raise e ->
               main np_sin np_pi c p path = Raise e)
    /\ (forall segments,
           _detect_segments c path = Ok segments ->
           ((exists np full,
                main np_sin np_pi c p path = Ok ((np, full), path))
            <-> late_gate c path segments)
           /\ (~ late_gate c path segments ->
               main np_sin np_pi c p path = Raise IndexError)).
Proof.
  intros F SF np_sin np_pi c p path Hwf HG Hn. split.
  { intros e He. rewrite main_unfold, He. reflexivity. }
  intros segments Hseg.
  split; [split|].
  - intros (np & full & Hmain).
    apply main_inv in Hmain as (_ & _ & _ & _ & segs' & Hseg' & Hrange).
    rewrite Hseg in Hseg'. injection Hseg' as <-.
    apply (@in_range_late_gate F SF c path segments Hseg Hn). apply Hrange. lia.
  - intros Hlate.
    destruct (@main_ok F SF np_sin np_pi c p path segments Hwf Hseg)
      as (np & full & Hmain & _).
    + intros i Hi. apply (@late_gate_in_range F SF c path segments Hseg i Hlate Hi).
    + exists np, full. exact Hmain.
  - intros Hno.
    apply (@main_raises_index_error F SF np_sin np_pi c p path segments
             (length path - 2)); try assumption; [lia|].
    intros Hin. apply Hno.
    apply (@in_range_late_gate F SF c path segments Hseg Hn Hin).
Qed.

(** On the two-sample path [_detect_segments] returns, and the first gate
    has its segment end at sample 0, the last sample but one. *)
Lemma main_returns_iff_late_gate_witness :
  (forall e, _detect_segments two_gates (two_sample_path 0 1) = Raise e ->
             main Rtrigo_def.sin PI two_gates source_params
                  (two_sample_path 0 1) = Raise e)
  /\ (forall segments,
         _detect_segments two_gates (two_sample_path 0 1) = Ok segments ->
         ((exists np full,
              main Rtrigo_def.sin PI two_gates source_params
                   (two_sample_path 0 1)
              = Ok ((np, full), two_sample_path 0 1))
          <-> late_gate two_gates (two_sample_path 0 1) segments)
         /\ (~ late_gate two_gates (two_sample_path 0 1) segments ->
             main Rtrigo_def.sin PI two_gates source_params
                  (two_sample_path 0 1) = Raise IndexError)).
Proof.
  apply (@main_returns_iff_late_gate R real_scalar Rtrigo_def.sin PI two_gates
           source_params (two_sample_path 0 1)).
  - apply two_sample_wf.
  - simpl. lia.
  - simpl. lia.
Defined.

(** A well-formed path with a rating in a last column: the slice
    [data[:, G_POS_IDX:]] has four columns where the slice of a gate has
    three, [cdist] refuses them, and [main] raises the [ValueError] of
    [_detect_segments]. *)
Lemma main_with_rating_column :
  wf_layout two_gates
            [ [0; 0; 1; 0; 9; 9; 9; 0; 0; 0; 1];
              [1; 0; 1; 0; 9; 9; 9; 1; 0; 0; 1] ]%R
  /\ main Rtrigo_def.sin PI two_gates source_params
          [ [0; 0; 1; 0; 9; 9; 9; 0; 0; 0; 1];
            [1; 0; 1; 0; 9; 9; 9; 1; 0; 0; 1] ]%R
     = Raise ValueError.
Proof.
  split.
  - split; [reflexivity|].
    apply Forall_cons; [|apply Forall_cons; [|apply Forall_nil]];
      (split; [simpl; lia | split; [simpl; lia |]]);
      intros s Hs; simpl in *; lia.
  - rewrite main_unfold. reflexivity.
Qed.

(** ** The two cases of the limitation in exact arithmetic *)

(** X4: in exact arithmetic, with a bound [a_max] that is not negative and an
    acceleration whose norm is not zero: an acceleration whose norm is within
    the bound is left as it is, and a larger one is scaled by
    [a_max / norm], which keeps its direction and gives it the norm
    [a_max]. *)
Theorem limit_acceleration_cases :
  forall (p : params R) (a_new : list R),
    (0 <= a_max p)%R ->
    np_linalg_norm a_new <> 0%R ->
    ((np_linalg_norm a_new <= a_max p)%R ->
     limit_acceleration p a_new = a_new)
    /\ ((a_max p < np_linalg_norm a_new)%R ->
        limit_acceleration p a_new
        = np_scale a_new (a_max p / np_linalg_norm a_new)%R
        /\ np_linalg_norm (limit_acceleration p a_new) = a_max p).
Proof.
  intros p a_new Hmax Hnorm.
  pose proof (norm_nonneg a_new) as Hpos.
  split.
  - intros Hle. apply limit_inactive. lra.
  - intros Hgt.
    assert (E : limit_acceleration p a_new
                = np_scale a_new (a_max p / np_linalg_norm a_new)%R).
    { unfold limit_acceleration.
      change (@fopp R real_scalar) with Ropp.
      change (@fdiv R real_scalar) with Rdiv.
      rewrite np_clip_real by assumption.
      rewrite Rmin_right by lra. reflexivity. }
    split; [exact E|].
    rewrite E, norm_scale.
    + field. exact Hnorm.
    + unfold Rdiv. apply Rmult_le_pos; [assumption|].
      left. apply Rinv_0_lt_compat. lra.
Qed.

(** The acceleration (3,4,0), of norm 5, under the bound 1. *)
Lemma limit_acceleration_cases_witness :
  ((np_linalg_norm [3; 4; 0]%R <= a_max source_params)%R ->
   limit_acceleration source_params [3; 4; 0]%R = [3; 4; 0]%R)
  /\ ((a_max source_params < np_linalg_norm [3; 4; 0]%R)%R ->
      limit_acceleration source_params [3; 4; 0]%R
      = np_scale [3; 4; 0]%R
                 (a_max source_params / np_linalg_norm [3; 4; 0]%R)%R
      /\ np_linalg_norm (limit_acceleration source_params [3; 4; 0]%R)
         = a_max source_params).
Proof.
  apply (limit_acceleration_cases source_params [3; 4; 0]%R).
  - change (a_max (@source_params R real_scalar)) with (1 / 1)%R. lra.
  - unfold np_linalg_norm. change (@fsqrt R real_scalar) with R_sqrt.sqrt.
    rewrite !sum_squares_cons, sum_squares_nil.
    intros H. apply sqrt_eq_0 in H; lra.
Defined.

(** ** What [generate_gate_pos] raises *)

Lemma np_iadd_three_raise (F : Type) (SF : Scalar F) (xs ys : @ndarray F) :
  length ys = 3 -> length xs <> 3 -> np_iadd xs ys = Raise ValueError.
Proof.
  intros Hy Hx. unfold np_iadd, np_add, broadcast. rewrite Hy.
  destruct (Nat.eqb_spec (length xs) 3) as [E|_]; [contradiction|].
  destruct (Nat.eqb_spec (length xs) 1) as [E|_].
  - cbn [rbind]. rewrite length_map, Hy, E. reflexivity.
  - reflexivity.
Qed.

(** X5: [generate_gate_pos] raises [IndexError] on a path without samples;
    on any other path it raises [ValueError] when the slice of the gate in
    sample 0 has not three entries, and otherwise returns that slice with the
    displacement added.  The path itself is never written: the slice is
    copied first. *)
Theorem generate_gate_pos_outcomes :
  forall (F : Type) (SF : Scalar F) (np_sin : F -> F) (np_pi : F)
         (c : constants) (p : params F) (t : F) (segment_num : nat)
         (path : @matrix F),
    (path = [] ->
     generate_gate_pos np_sin np_pi c p t segment_num path = Raise IndexError)
    /\ (path <> [] -> length (gate_of c path 0 segment_num) <> 3 ->
        generate_gate_pos np_sin np_pi c p t segment_num path
        = Raise ValueError)
    /\ (path <> [] -> length (gate_of c path 0 segment_num) = 3 ->
        generate_gate_pos np_sin np_pi c p t segment_num path
        = Ok (zip_with fadd (gate_of c path 0 segment_num)
                       (oscillation np_sin np_pi p t), path)).
Proof.
  intros F SF np_sin np_pi c p t s path. split; [|split].
  - intros ->. reflexivity.
  - intros Hne Hlen.
    cbv beta iota zeta delta [generate_gate_pos bind path_row_slice get_path
      ret lift np_copy contents iadd store].
    destruct (Nat.ltb_spec 0 (length path)) as [_|Hi];
      [|destruct path; [contradiction | simpl in Hi; lia]].
    cbv beta iota. fold (gate_of c path 0 s).
    rewrite np_iadd_three_raise; [reflexivity | reflexivity | exact Hlen].
  - intros Hne Hlen. apply generate_gate_pos_ok; [|exact Hlen].
    destruct path; [contradiction | simpl; lia].
Qed.

(** ** The offset keeps the corrected path connected *)

(** X6: in exact arithmetic, on a well-formed path, the offset that a step
    leaves is such that the position the next step starts from,
    [path[i+1, pos] + x_path_offset], is the corrected position the step
    has just appended to [new_path]. *)
Theorem corrected_position_is_next_start :
  forall (c : constants) (p : params R) (path : @matrix R)
         (segments : list nat) (i : nat) (st st' : loop_state R),
    wf_layout c path ->
    length segments = G_NUM_GATES c ->
    state_wf st ->
    correction_step Rtrigo_def.sin PI c p segments i st path = Ok (st', path) ->
    exists x,
      positions (new_path st') = positions (new_path st) ++ [x]
      /\ position_at c (i + 1) (x_path_offset st') path = Ok (x, path).
Proof.
  intros c p path segments i st st' Hwf Hlen Hst Hstep.
  destruct Hst as (Hoff & Hv & Hnp).
  pose proof Hstep as Hinv.
  apply correction_step_inv in Hinv
    as (_ & Hi & (e & He & Hlt) & _); [|assumption|assumption].
  destruct (@correction_step_ok R real_scalar Rtrigo_def.sin PI c p path
              segments i e st Hwf Hlen (conj Hoff (conj Hv Hnp)) Hi He Hlt)
    as [Hok (Hoff' & Hv' & _)].
  rewrite Hok in Hstep. injection Hstep as <-.
  assert (Hseg : current_segment segments i < G_NUM_GATES c)
    by (rewrite <- Hlen; eapply target_index_segment; eassumption).
  destruct (pure_kinematics_lengths Rtrigo_def.sin PI p Hwf segments i st
              Hoff Hv Hi Hlt Hseg) as (K1 & K2 & K3).
  set (k := pure_kinematics Rtrigo_def.sin PI c p path segments i e st) in *.
  exists (pure_position p st k).
  split; [apply positions_push|].
  assert (La : length (tooltip_of c path i) = 3)
    by (apply wf_tooltip_length; [exact Hwf | lia]).
  assert (Lb : length (tooltip_of c path (i + 1)) = 3)
    by (apply wf_tooltip_length; [exact Hwf | lia]).
  rewrite position_at_ok by (try lia; rewrite Lb, Hoff'; reflexivity).
  f_equal. f_equal.
  assert (Ex : k_x_curr k
               = zip_with fadd (tooltip_of c path i) (x_path_offset st))
    by reflexivity.
  assert (Ed : k_dx k
               = zip_with fsub
                   (zip_with fadd (tooltip_of c path (i + 1))
                             (x_path_offset st))
                   (zip_with fadd (tooltip_of c path i) (x_path_offset st)))
    by reflexivity.
  unfold pure_update, pure_position. cbn [x_path_offset].
  assert (Lw : length (np_scale (pure_velocity p st k) (k_dt k)) = 3).
  { rewrite np_scale_length. unfold pure_velocity.
    rewrite zip_with_length, np_scale_length, limit_acceleration_length.
    rewrite Hv, K3. reflexivity. }
  rewrite Ex, Ed.
  destruct (length_three_inv _ Lw) as (w0 & w1 & w2 & ->).
  destruct (length_three_inv _ Hoff) as (o0 & o1 & o2 & ->).
  destruct (length_three_inv _ La) as (a0 & a1 & a2 & ->).
  destruct (length_three_inv _ Lb) as (b0 & b1 & b2 & ->).
  cbv [zip_with fadd fsub real_scalar].
  f_equal; [|f_equal; [|f_equal]]; ring.
Qed.

(** The step of the two-sample path, from the initial state. *)
Lemma corrected_position_is_next_start_witness :
  exists x,
    positions
      (new_path
         (pure_update source_params initial_state
            (pure_kinematics Rtrigo_def.sin PI two_gates source_params
               (two_sample_path 0 1) [0; 2] 0 0 initial_state)))
    = positions (new_path (@initial_state R real_scalar)) ++ [x]
    /\ position_at two_gates (0 + 1)
         (x_path_offset
            (pure_update source_params initial_state
               (pure_kinematics Rtrigo_def.sin PI two_gates source_params
                  (two_sample_path 0 1) [0; 2] 0 0 initial_state)))
         (two_sample_path 0 1)
       = Ok (x, two_sample_path 0 1).
Proof.
  apply (@corrected_position_is_next_start two_gates source_params
           (two_sample_path 0 1) [0; 2] 0 initial_state).
  - apply two_sample_wf.
  - reflexivity.
  - apply initial_state_wf.
  - apply (@correction_step_ok R real_scalar Rtrigo_def.sin PI two_gates
             source_params (two_sample_path 0 1) [0; 2] 0 0 initial_state).
    + apply two_sample_wf.
    + reflexivity.
    + apply initial_state_wf.
    + unfold two_sample_path. simpl. lia.
    + reflexivity.
    + unfold two_sample_path. simpl. lia.
Defined.

(** ** The correction that changes nothing *)

Section GateReachedRuns.

Local Open Scope R_scope.

Lemma gate_reached_wf : wf_layout two_gates gate_reached_path.
Proof.
  split; [reflexivity|]. unfold gate_reached_path.
  apply Forall_cons; [|apply Forall_cons; [|apply Forall_nil]];
    (split; [simpl; lia | split; [simpl; lia |]]);
    intros s Hs; simpl in *; lia.
Qed.

Lemma gate_reached_segments :
  _detect_segments two_gates gate_reached_path = Ok [1%nat; 2%nat].
Proof.
  unfold _detect_segments, gate_reached_path.
  cbv [detect_loop seq G_NUM_GATES two_gates gate_segment_end Nat.eqb Nat.sub
       G_GATE_IDX G_NUM_GATE_DIMS G_POS_IDX Nat.add Nat.mul rbind
       cdist_col0 ncols map skipn slice firstn length app].
  rewrite !euclidean_three.
  cbv [np_argmin argmin_from fisnan fleb real_scalar negb].
  destruct (Rle_dec _ _) as [H|H]; [|reflexivity].
  exfalso. apply sqrt_le_0 in H; lra.
Qed.

Lemma gate_reached_clamp_inactive :
  clamp_inactive two_gates still_gate_params [1%nat; 2%nat] 2
                 (seq 0 2) initial_state gate_reached_path.
Proof.
  cbn [clamp_inactive seq Nat.eqb Nat.sub].
  rewrite (@step_kinematics_ok R real_scalar Rtrigo_def.sin PI two_gates
             still_gate_params gate_reached_path gate_reached_wf
             [1%nat; 2%nat] 0%nat 1%nat initial_state).
  2: reflexivity. 2: reflexivity. 2: (unfold gate_reached_path; simpl; lia).
  2: reflexivity. 2: (unfold gate_reached_path; simpl; lia).
  2: (cbv; lia).
  assert (Hk : pure_kinematics Rtrigo_def.sin PI two_gates still_gate_params
                 gate_reached_path [1%nat; 2%nat] 0 1 initial_state
               = {| k_x_curr := [0 + 0; 0 + 0; 0 + 0];
                    k_dx := [1 + 0 - (0 + 0); 0 + 0 - (0 + 0);
                             0 + 0 - (0 + 0)];
                    k_dt := 1 * (20 / 1) - 0 * (20 / 1);
                    k_a_new :=
                      [((1 + 0 + (1 + 0 - (1 + 0)) - (0 + 0))
                        / (1 * (20 / 1) - 0 * (20 / 1)) - 0)
                       / (1 * (20 / 1) - 0 * (20 / 1));
                       ((0 + 0
                         + (0 + 0 * Rtrigo_def.sin
                                      (2 / 1 * PI * (4 / 1) * (0 * (20 / 1))
                                       / (20 / 1))
                            - (0 + 0)) - (0 + 0))
                        / (1 * (20 / 1) - 0 * (20 / 1)) - 0)
                       / (1 * (20 / 1) - 0 * (20 / 1));
                       ((0 + 0 + (0 + 0 - (0 + 0)) - (0 + 0))
                        / (1 * (20 / 1) - 0 * (20 / 1)) - 0)
                       / (1 * (20 / 1) - 0 * (20 / 1))] |})
    by reflexivity.
  rewrite Hk. cbn [k_dt k_a_new].
  split; [lra|]. split.
  - unfold np_linalg_norm. change (@fsqrt R real_scalar) with R_sqrt.sqrt.
    rewrite !sum_squares_cons, sum_squares_nil.
    change (a_max (@still_gate_params R real_scalar)) with (100 / 1).
    apply sqrt_within; [| |lra].
    + replace (0 * Rtrigo_def.sin _) with 0 by ring. lra.
    + replace (0 * Rtrigo_def.sin _) with 0 by ring. lra.
  - match goal with
    | |- match step_update ?p ?st ?k with _ => _ end =>
        rewrite (proj1 (@step_update_ok R real_scalar p st k
                          initial_state_wf eq_refl eq_refl eq_refl))
    end.
    exact I.
Qed.

End GateReachedRuns.

(** X7: in exact arithmetic, on a well-formed path, with a gate that does
    not move and a limitation that stays inactive: when the gate of every
    step is recorded at the position the tooltip has at the end of the
    step's segment, the corrected positions are the recorded positions of
    the samples 1 to the last. *)
Theorem correction_identity_on_reached_gates :
  forall (c : constants) (p : params R) (path : @matrix R)
         (segments : list nat),
    wf_layout c path ->
    gate_amp p = 0%R ->
    _detect_segments c path = Ok segments ->
    clamp_inactive c p segments (length path) (seq 0 (length path))
                   initial_state path ->
    (forall i, i + 1 < length path ->
               gate_of c path 0 (current_segment segments i)
               = tooltip_of c path
                   (nth (current_segment segments i) segments 0)) ->
    exists np full,
      main Rtrigo_def.sin PI c p path = Ok ((np, full), path)
      /\ positions np
         = map (fun i => tooltip_of c path (i + 1))
               (seq 0 (length path - 1)).
Proof.
  intros c p path segments Hwf Hamp Hseg Hin Hgate.
  apply (@unclamped_correction_identity c p path segments); assumption.
Qed.

(** Two samples, the first gate at the position of sample 1, where the
    first segment ends. *)
Lemma correction_identity_on_reached_gates_witness :
  exists np full,
    main Rtrigo_def.sin PI two_gates still_gate_params gate_reached_path
    = Ok ((np, full), gate_reached_path)
    /\ positions np
       = map (fun i => tooltip_of two_gates gate_reached_path (i + 1))
             (seq 0 (length gate_reached_path - 1)).
Proof.
  apply (@correction_identity_on_reached_gates two_gates still_gate_params
           gate_reached_path [1; 2]).
  - apply gate_reached_wf.
  - reflexivity.
  - apply gate_reached_segments.
  - apply gate_reached_clamp_inactive.
  - intros i Hi. simpl in Hi. assert (i = 0) by lia. subst i. reflexivity.
Defined.

(** ** Paths too short for a step *)

(** X8: on a path of one sample or of none for which [_detect_segments]
    returns, the loop of [main] makes no step: [new_path] is still [None],
    the path is unchanged and [full_path], the copy of [path[:-1]], has no
    row, so that the assertion of [display_path(axis, full_path)] fails and
    [main] raises [AssertionError]. *)
Theorem main_without_steps :
  forall (F : Type) (SF : Scalar F) (np_sin : F -> F) (np_pi : F)
         (c : constants) (p : params F) (path : @matrix F)
         (segments : list nat),
    length path <= 1 ->
    _detect_segments c path = Ok segments ->
    main np_sin np_pi c p path = Ok ((None, []), path)
    /\ main_with_display np_sin np_pi c p path = Failed AssertionError.
Proof.
  intros F SF np_sin np_pi c p path segments Hlen Hseg.
  assert (Hmain : main np_sin np_pi c p path = Ok ((None, []), path)).
  { rewrite main_unfold, Hseg.
    destruct path as [|r [|r2 rest]]; [reflexivity | reflexivity |].
    simpl in Hlen. lia. }
  split; [exact Hmain|].
  unfold main_with_display. rewrite Hmain. reflexivity.
Qed.

(** One sample and one gate. *)
Lemma main_without_steps_witness :
  main Rtrigo_def.sin PI one_gate source_params [[0; 0; 0; 0; 0; 0; 0]%R]
  = Ok ((None, []), [[0; 0; 0; 0; 0; 0; 0]%R])
  /\ main_with_display Rtrigo_def.sin PI one_gate source_params
                       [[0; 0; 0; 0; 0; 0; 0]%R]
     = Failed AssertionError.
Proof.
  apply (@main_without_steps R real_scalar Rtrigo_def.sin PI one_gate
           source_params [[0; 0; 0; 0; 0; 0; 0]%R] [1]).
  - simpl. lia.
  - reflexivity.
Defined.

(** On a path of two samples or more the assertion holds: with the call of
    [display_path], [main] returns what it has computed. *)
Lemma assign_cols_length (F : Type) (SF : Scalar F) (a b : nat)
      (rows rows' : @matrix F) (value : option (stacked F)) :
  assign_cols a b rows value = Ok rows' -> length rows' = length rows.
Proof.
  unfold assign_cols. cbv zeta. destruct value as [[u|vs]|].
  - intros H. apply rbind_inv in H as (u' & _ & [= <-]).
    apply length_map.
  - intros H. apply rbind_inv in H as (vs' & _ & H).
    destruct (Nat.eqb_spec (length vs') (length rows)) as [E|_].
    + injection H as <-. apply splice_rows_length. exact E.
    + destruct (length vs' =? 1); [|discriminate].
      injection H as <-. apply length_map.
  - destruct rows; [|discriminate]. intros [= <-]. reflexivity.
Qed.

Lemma main_with_display_returns (F : Type) (SF : Scalar F)
      (np_sin : F -> F) (np_pi : F) (c : constants) (p : params F)
      (path path' : @matrix F) (np : option (stacked F))
      (full : @matrix F) :
  2 <= length path ->
  main np_sin np_pi c p path = Ok ((np, full), path') ->
  main_with_display np_sin np_pi c p path = Done ((np, full), path').
Proof.
  intros Hn Hmain. unfold main_with_display. rewrite Hmain.
  cbn [of_result obind fst snd].
  apply main_inv in Hmain as (_ & _ & _ & Hassign & _).
  apply assign_cols_length in Hassign.
  rewrite length_firstn in Hassign.
  unfold display_path.
  destruct (Nat.ltb_spec 0 (length full)); [reflexivity | lia].
Qed.

(** * [normalize_time] *)

(** ** The column that is read and written *)

Section ColumnFacts.

Context {F : Type} {SF : Scalar F}.

Lemma splice_one_length (col : nat) (x : F) (row : @ndarray F) :
  col < length row -> length (splice col [x] row) = length row.
Proof.
  intros H. apply (@splice_length F col (col + 1)).
  rewrite slice_length. simpl. lia.
Qed.

Lemma splice_one_nth (col : nat) (x : F) (row : @ndarray F) :
  col < length row -> nth col (splice col [x] row) fzero = x.
Proof.
  intros H. unfold splice.
  rewrite app_nth2; rewrite length_firstn, Nat.min_l by lia; [|lia].
  rewrite Nat.sub_diag. reflexivity.
Qed.

Lemma splice_one_other (col : nat) (x : F) (row : @ndarray F) (k : nat) :
  col < length row -> k <> col ->
  nth_error (splice col [x] row) k = nth_error row k.
Proof.
  intros H Hk. apply (@splice_outside F col (col + 1)).
  - rewrite slice_length. simpl. lia.
  - lia.
Qed.

Lemma splice_one_twice (col : nat) (x y : F) (row : @ndarray F) :
  col < length row ->
  splice col [y] (splice col [x] row) = splice col [y] row.
Proof.
  intros H. unfold splice. cbn [length].
  rewrite firstn_app, firstn_firstn, Nat.min_id.
  rewrite length_firstn, Nat.min_l by lia.
  rewrite Nat.sub_diag. cbn [firstn]. rewrite app_nil_r.
  f_equal. f_equal.
  rewrite skipn_app, length_firstn, Nat.min_l by lia.
  rewrite (skipn_all2 (firstn col row))
    by (rewrite length_firstn; lia).
  replace (col + 1 - col) with 1 by lia.
  cbn [app skipn]. reflexivity.
Qed.

Lemma splice_one_same (col : nat) (row : @ndarray F) :
  col < length row -> splice col [nth col row fzero] row = row.
Proof.
  intros H. unfold splice. cbn [length app].
  rewrite <- (firstn_skipn col row) at 4.
  f_equal.
  rewrite (nth_indep _ fzero (hd fzero (skipn col row)))
    by assumption.
  destruct (skipn col row) as [|y rest] eqn:E.
  - apply (f_equal (@length F)) in E. rewrite length_skipn in E.
    simpl in E. lia.
  - replace (col + 1) with (1 + col) by lia.
    rewrite <- skipn_skipn, E. cbn [skipn hd].
    f_equal.
    rewrite <- (firstn_skipn col row) at 1.
    rewrite app_nth2; rewrite length_firstn, Nat.min_l by lia; [|lia].
    rewrite Nat.sub_diag, E. reflexivity.
Qed.

Variable w : nat.
Variable col : nat.
Hypothesis Hcol : col < w.

Lemma column_ok (data : @matrix F) :
  data <> [] -> Forall (fun r => length r = w) data ->
  column data col = Ok (map (fun row => nth col row fzero) data).
Proof.
  intros Hne Hw. unfold column.
  destruct data as [|r rest]; [contradiction|].
  apply Forall_inv in Hw. cbn [ncols]. rewrite Hw.
  destruct (Nat.ltb_spec col w); [reflexivity | lia].
Qed.

Lemma set_column_length (vs : @ndarray F) (data : @matrix F) :
  length vs = length data -> length (set_column col vs data) = length data.
Proof.
  intros H. unfold set_column. apply splice_rows_length.
  rewrite length_map. exact H.
Qed.

Lemma set_column_nth_error (vs : @ndarray F) (data : @matrix F) k x row :
  nth_error vs k = Some x -> nth_error data k = Some row ->
  nth_error (set_column col vs data) k = Some (splice col [x] row).
Proof.
  intros Hx Hrow. unfold set_column.
  apply nth_error_splice_rows; [|exact Hrow].
  rewrite nth_error_map, Hx. reflexivity.
Qed.

Lemma set_column_cons (v : F) (vs : @ndarray F) (r : @ndarray F)
      (data : @matrix F) :
  set_column col (v :: vs) (r :: data)
  = splice col [v] r :: set_column col vs data.
Proof. reflexivity. Qed.

Lemma set_column_width (data : @matrix F) :
  Forall (fun r => length r = w) data ->
  forall vs, length vs = length data ->
    Forall (fun r => length r = w) (set_column col vs data).
Proof.
  induction 1 as [|r data Hr Hw IH]; intros vs Hlen.
  - destruct vs; [constructor | discriminate].
  - destruct vs as [|v vs]; [discriminate|].
    rewrite set_column_cons. constructor.
    + rewrite splice_one_length; [exact Hr | lia].
    + apply IH. simpl in Hlen. lia.
Qed.

Lemma set_column_read (data : @matrix F) :
  Forall (fun r => length r = w) data ->
  forall vs, length vs = length data ->
    map (fun row => nth col row fzero) (set_column col vs data) = vs.
Proof.
  induction 1 as [|r data Hr Hw IH]; intros vs Hlen.
  - destruct vs; [reflexivity | discriminate].
  - destruct vs as [|v vs]; [discriminate|].
    rewrite set_column_cons. cbn [map].
    rewrite splice_one_nth by lia. f_equal.
    apply IH. simpl in Hlen. lia.
Qed.

Lemma set_column_twice (data : @matrix F) :
  Forall (fun r => length r = w) data ->
  forall vs vs', length vs = length data -> length vs' = length data ->
    set_column col vs' (set_column col vs data) = set_column col vs' data.
Proof.
  induction 1 as [|r data Hr Hw IH]; intros vs vs' Hlen Hlen'.
  - destruct vs, vs'; try discriminate. reflexivity.
  - destruct vs as [|v vs]; [discriminate|].
    destruct vs' as [|v' vs']; [discriminate|].
    rewrite !set_column_cons. f_equal.
    + apply splice_one_twice. lia.
    + apply IH; simpl in *; lia.
Qed.

Lemma set_column_same (data : @matrix F) :
  Forall (fun r => length r = w) data ->
  set_column col (map (fun row => nth col row fzero) data) data = data.
Proof.
  induction 1 as [|r data Hr Hw IH]; [reflexivity|].
  cbn [map]. rewrite set_column_cons, IH. f_equal.
  apply splice_one_same. lia.
Qed.

Lemma set_column_nonempty (vs : @ndarray F) (data : @matrix F) :
  data <> [] -> length vs = length data -> set_column col vs data <> [].
Proof.
  intros Hne Hlen.
  destruct data as [|r data]; [contradiction|].
  destruct vs as [|v vs]; [discriminate|].
  rewrite set_column_cons. discriminate.
Qed.

Lemma np_min_defined (xs : @ndarray F) :
  xs <> [] -> exists lo, np_min xs = Ok lo.
Proof. destruct xs; [contradiction | eexists; reflexivity]. Qed.

Lemma np_max_defined (xs : @ndarray F) :
  xs <> [] -> exists hi, np_max xs = Ok hi.
Proof. destruct xs; [contradiction | eexists; reflexivity]. Qed.

(** What [normalize_time] computes on a matrix with rows of width [w]: the
    least element [lo] of the column, the greatest element [hi] of the
    column with [lo] subtracted, and the column of the quotients. *)
Lemma normalize_time_steps (data : @matrix F) (lo hi : F) :
  data <> [] -> Forall (fun r => length r = w) data ->
  np_min (map (fun row => nth col row fzero) data) = Ok lo ->
  np_max (map (fun x => fsub x lo) (map (fun row => nth col row fzero) data))
  = Ok hi ->
  normalize_time col data
  = Ok (set_column col
          (map (fun x => fdiv x hi)
               (map (fun x => fsub x lo)
                    (map (fun row => nth col row fzero) data))) data,
        set_column col
          (map (fun x => fdiv x hi)
               (map (fun x => fsub x lo)
                    (map (fun row => nth col row fzero) data))) data).
Proof.
  intros Hne Hw Hlo Hhi.
  set (times := map (fun row => nth col row fzero) data) in *.
  assert (L1 : length (map (fun x => fsub x lo) times) = length data)
    by (unfold times; rewrite !length_map; reflexivity).
  cbv beta iota zeta delta [normalize_time bind get_path put_path lift].
  rewrite (column_ok Hne Hw). fold times. rewrite Hlo.
  rewrite (column_ok (set_column_nonempty _ Hne L1)
                     (set_column_width Hw _ L1)).
  rewrite (set_column_read Hw _ L1), Hhi.
  rewrite set_column_twice; [reflexivity | exact Hw | exact L1 |].
  rewrite length_map. exact L1.
Qed.

End ColumnFacts.

(** X9: on a matrix with rows of one width, [normalize_time] raises
    [IndexError] when [t_col] is no column, and otherwise returns, whatever
    the times are (a division by zero raises nothing): the array returned
    is the array given, written in place, with as many rows, every row as
    long as before and unchanged outside the column [t_col]. *)
Theorem normalize_time_frame :
  forall (F : Type) (SF : Scalar F) (data : @matrix F) (w t_col : nat),
    data <> [] ->
    Forall (fun r => length r = w) data ->
    (w <= t_col -> normalize_time t_col data = Raise IndexError)
    /\ (t_col < w ->
        exists data',
          normalize_time t_col data = Ok (data', data')
          /\ length data' = length data
          /\ forall k row,
               nth_error data k = Some row ->
               exists row',
                 nth_error data' k = Some row'
                 /\ length row' = length row
                 /\ forall col, col <> t_col ->
                                nth_error row' col = nth_error row col).
Proof.
  intros F SF data w t_col Hne Hw. split.
  - intros Hcol.
    cbv beta iota zeta delta [normalize_time bind get_path lift column].
    destruct data as [|r rest]; [contradiction|].
    pose proof (Forall_inv Hw) as Hr. cbn [ncols]. rewrite Hr.
    destruct (Nat.ltb_spec t_col w); [lia | reflexivity].
  - intros Hcol.
    set (times := map (fun row => nth t_col row fzero) data).
    destruct (@np_min_defined F SF times) as [lo Hlo].
    { unfold times. destruct data; [contradiction | discriminate]. }
    destruct (@np_max_defined F SF (map (fun x => fsub x lo) times))
      as [hi Hhi].
    { unfold times. destruct data; [contradiction | discriminate]. }
    eexists. split; [exact (normalize_time_steps Hcol Hne Hw Hlo Hhi)|].
    fold times.
    assert (L : length (map (fun x => fdiv x hi)
                            (map (fun x => fsub x lo) times))
                = length data)
      by (unfold times; rewrite !length_map; reflexivity).
    split; [apply set_column_length; exact L|].
    intros k row Hrow.
    assert (Hk : k < length data)
      by (apply nth_error_Some; rewrite Hrow; discriminate).
    destruct (nth_error (map (fun x => fdiv x hi)
                             (map (fun x => fsub x lo) times)) k)
      as [x|] eqn:Ex; [|apply nth_error_None in Ex; lia].
    assert (Hlen : length row = w).
    { rewrite Forall_forall in Hw. apply Hw.
      eapply nth_error_In. exact Hrow. }
    exists (splice t_col [x] row).
    split; [apply set_column_nth_error; assumption|].
    split; [apply splice_one_length; lia|].
    intros col Hne'. apply splice_one_other; [lia | exact Hne'].
Qed.

(** Two samples in IEEE arithmetic with the time in column 0. *)
Lemma normalize_time_frame_witness :
  (2 <= 0 ->
   normalize_time 0 [[2; 5]; [4; 6]]%float = Raise IndexError)
  /\ (0 < 2 ->
      exists data',
        normalize_time 0 [[2; 5]; [4; 6]]%float = Ok (data', data')
        /\ length data' = length [[2; 5]; [4; 6]]%float
        /\ forall k row,
             nth_error [[2; 5]; [4; 6]]%float k = Some row ->
             exists row',
               nth_error data' k = Some row'
               /\ length row' = length row
               /\ forall col, col <> 0 ->
                              nth_error row' col = nth_error row col).
Proof.
  apply (@normalize_time_frame float float_scalar [[2; 5]; [4; 6]]%float 2 0).
  - discriminate.
  - repeat constructor.
Defined.

(** ** Exact arithmetic: the normalized times *)

Section RealNormalize.

Local Open Scope R_scope.

Lemma np_minimum_real (a b : R) : np_minimum a b = Rmin a b.
Proof.
  unfold np_minimum.
  change (@fisnan R real_scalar) with (fun _ : R => false).
  change (@fltb R real_scalar)
    with (fun x y : R => if Rlt_dec x y then true else false).
  cbv beta iota.
  destruct (Rlt_dec a b) as [H|H].
  - rewrite Rmin_left by lra. reflexivity.
  - rewrite Rmin_right by lra. reflexivity.
Qed.

Lemma np_maximum_real (a b : R) : np_maximum a b = Rmax a b.
Proof.
  unfold np_maximum.
  change (@fisnan R real_scalar) with (fun _ : R => false).
  change (@fltb R real_scalar)
    with (fun x y : R => if Rlt_dec x y then true else false).
  cbv beta iota.
  destruct (Rlt_dec b a) as [H|H].
  - rewrite Rmax_left by lra. reflexivity.
  - rewrite Rmax_right by lra. reflexivity.
Qed.

Lemma fold_minimum_real (rest : list R) :
  forall x,
    In (fold_left np_minimum rest x) (x :: rest)
    /\ forall y, In y (x :: rest) -> fold_left np_minimum rest x <= y.
Proof.
  induction rest as [|z rest IH]; intros x.
  - simpl. split; [auto|]. intros y [<-|[]]. lra.
  - cbn [fold_left]. rewrite np_minimum_real.
    destruct (IH (Rmin x z)) as [Hin Hle]. split.
    + destruct Hin as [E|Hin]; [|right; right; exact Hin].
      rewrite <- E.
      unfold Rmin. destruct (Rle_dec x z); [left | right; left]; reflexivity.
    + intros y [<-|[<-|Hy]].
      * apply Rle_trans with (Rmin x z); [apply Hle; left; reflexivity|].
        apply Rmin_l.
      * apply Rle_trans with (Rmin x z); [apply Hle; left; reflexivity|].
        apply Rmin_r.
      * apply Hle. right. exact Hy.
Qed.

Lemma fold_maximum_real (rest : list R) :
  forall x,
    In (fold_left np_maximum rest x) (x :: rest)
    /\ forall y, In y (x :: rest) -> y <= fold_left np_maximum rest x.
Proof.
  induction rest as [|z rest IH]; intros x.
  - simpl. split; [auto|]. intros y [<-|[]]. lra.
  - cbn [fold_left]. rewrite np_maximum_real.
    destruct (IH (Rmax x z)) as [Hin Hle]. split.
    + destruct Hin as [E|Hin]; [|right; right; exact Hin].
      rewrite <- E.
      unfold Rmax. destruct (Rle_dec x z); [right; left | left]; reflexivity.
    + intros y [<-|[<-|Hy]].
      * apply Rle_trans with (Rmax x z); [apply Rmax_l|].
        apply Hle. left. reflexivity.
      * apply Rle_trans with (Rmax x z); [apply Rmax_r|].
        apply Hle. left. reflexivity.
      * apply Hle. right. exact Hy.
Qed.

Lemma np_min_real_inv (xs : list R) (lo : R) :
  np_min xs = Ok lo -> In lo xs /\ forall x, In x xs -> lo <= x.
Proof.
  destruct xs as [|x rest]; [discriminate|].
  intros [= <-]. apply fold_minimum_real.
Qed.

Lemma np_max_real_inv (xs : list R) (hi : R) :
  np_max xs = Ok hi -> In hi xs /\ forall x, In x xs -> x <= hi.
Proof.
  destruct xs as [|x rest]; [discriminate|].
  intros [= <-]. apply fold_maximum_real.
Qed.

Lemma np_min_real_char (xs : list R) (m : R) :
  In m xs -> (forall x, In x xs -> m <= x) -> np_min xs = Ok m.
Proof.
  intros Hin Hle.
  destruct xs as [|x rest]; [contradiction|].
  destruct (fold_minimum_real rest x) as [Hin' Hle'].
  unfold np_min. f_equal.
  apply Rle_antisym; [apply Hle'; exact Hin | apply Hle; exact Hin'].
Qed.

Lemma np_max_real_char (xs : list R) (m : R) :
  In m xs -> (forall x, In x xs -> x <= m) -> np_max xs = Ok m.
Proof.
  intros Hin Hle.
  destruct xs as [|x rest]; [contradiction|].
  destruct (fold_maximum_real rest x) as [Hin' Hle'].
  unfold np_max. f_equal.
  apply Rle_antisym; [apply Hle; exact Hin' | apply Hle'; exact Hin].
Qed.

Lemma column_inv (data : @matrix R) (w t_col : nat) (times : list R) :
  Forall (fun r => length r = w) data ->
  column data t_col = Ok times ->
  data <> [] /\ (t_col < w)%nat
  /\ times = map (fun row => nth t_col row 0) data.
Proof.
  intros Hw. unfold column.
  destruct data as [|r rest].
  - cbn [ncols]. destruct (Nat.ltb_spec t_col 0); [lia | discriminate].
  - pose proof (Forall_inv Hw) as Hr. cbn [ncols]. rewrite Hr.
    destruct (Nat.ltb_spec t_col w); [|discriminate].
    intros [= <-]. split; [discriminate|]. split; [assumption|reflexivity].
Qed.

(** The times that [normalize_time] writes, with the least time [lo] and
    the greatest time [hi] of the column. *)
Lemma normalize_time_real (data : @matrix R) (w t_col : nat)
      (times : list R) (lo hi : R) :
  Forall (fun r => length r = w) data ->
  column data t_col = Ok times ->
  np_min times = Ok lo -> np_max times = Ok hi ->
  normalize_time t_col data
  = Ok (set_column t_col (map (fun t => (t - lo) / (hi - lo)) times) data,
        set_column t_col (map (fun t => (t - lo) / (hi - lo)) times) data).
Proof.
  intros Hw Hcol Hlo Hhi.
  destruct (@column_inv data w t_col times Hw Hcol) as (Hne & Ht & ->).
  destruct (np_max_real_inv _ Hhi) as [Hin Hle].
  rewrite (@normalize_time_steps R real_scalar w t_col Ht data lo (hi - lo)
             Hne Hw Hlo).
  - rewrite map_map. reflexivity.
  - apply np_max_real_char.
    + change (hi - lo) with ((fun x => fsub x lo) hi). apply in_map.
      exact Hin.
    + intros y Hy. apply in_map_iff in Hy as (x & <- & Hx).
      change (fsub x lo) with (x - lo). specialize (Hle x Hx). lra.
Qed.

Lemma normalized_in_unit (lo hi t : R) :
  lo < hi -> lo <= t <= hi -> 0 <= (t - lo) / (hi - lo) <= 1.
Proof.
  intros Hlt [H1 H2].
  assert (Hpos : 0 < hi - lo) by lra.
  split.
  - apply Rmult_le_pos; [lra|]. left. apply Rinv_0_lt_compat. exact Hpos.
  - apply Rmult_le_reg_r with (hi - lo); [exact Hpos|].
    unfold Rdiv. rewrite Rmult_assoc, Rinv_l by lra. lra.
Qed.

End RealNormalize.

Section RealNormalized.

Local Open Scope R_scope.

Variable data : @matrix R.
Variable w t_col : nat.
Variable times : list R.
Variable lo hi : R.
Hypothesis Hw : Forall (fun r => length r = w) data.
Hypothesis Hcol : column data t_col = Ok times.
Hypothesis Hlo : np_min times = Ok lo.
Hypothesis Hhi : np_max times = Ok hi.
Hypothesis Hlt : lo < hi.

(** The matrix that [normalize_time] leaves. *)
Lemma normalized_column :
  let times' := map (fun t => (t - lo) / (hi - lo)) times in
  let data' := set_column t_col times' data in
  normalize_time t_col data = Ok (data', data')
  /\ Forall (fun r => length r = w) data'
  /\ column data' t_col = Ok times'
  /\ Forall (fun t => 0 <= t <= 1) times'
  /\ np_min times' = Ok 0
  /\ np_max times' = Ok 1.
Proof.
  intros times' data'.
  destruct (@column_inv data w t_col times Hw Hcol) as (Hne & Ht & Etimes).
  destruct (np_min_real_inv _ Hlo) as [Hlo_in Hlo_le].
  destruct (np_max_real_inv _ Hhi) as [Hhi_in Hhi_le].
  assert (L : length times' = length data)
    by (unfold times'; rewrite Etimes, !length_map; reflexivity).
  assert (Hw' : Forall (fun r => length r = w) data')
    by (apply set_column_width; assumption).
  assert (Hunit : Forall (fun t => 0 <= t <= 1) times').
  { apply Forall_forall. intros y Hy.
    apply in_map_iff in Hy as (t & <- & Hin).
    apply normalized_in_unit; [exact Hlt|]. split; auto. }
  rewrite Forall_forall in Hunit.
  split; [apply (normalize_time_real t_col Hw Hcol Hlo Hhi)|].
  split; [exact Hw'|].
  split.
  { rewrite (column_ok Ht (set_column_nonempty t_col _ Hne L) Hw').
    f_equal. apply set_column_read with (w := w); assumption. }
  split; [apply Forall_forall; exact Hunit|].
  split.
  - apply np_min_real_char.
    + assert (E0 : (lo - lo) / (hi - lo) = 0) by (unfold Rdiv; ring).
      rewrite <- E0.
      apply (in_map (fun t => (t - lo) / (hi - lo)) times lo Hlo_in).
    + intros y Hy. apply Hunit. exact Hy.
  - apply np_max_real_char.
    + assert (E1 : (hi - lo) / (hi - lo) = 1) by (field; lra).
      rewrite <- E1.
      apply (in_map (fun t => (t - lo) / (hi - lo)) times hi Hhi_in).
    + intros y Hy. apply Hunit. exact Hy.
Qed.

Lemma nth_map_in {A B : Type} (f : A -> B) (l : list A) (k : nat)
      (d : A) (d' : B) :
  (k < length l)%nat -> nth k (map f l) d' = f (nth k l d).
Proof.
  intros Hk. rewrite (nth_indep _ d' (f d)) by (rewrite length_map; exact Hk).
  apply map_nth.
Qed.

(** The time of row [k] after the normalization. *)
Lemma normalized_row_time (k : nat) :
  (k < length data)%nat ->
  nth t_col
      (nth k (set_column t_col (map (fun t => (t - lo) / (hi - lo)) times)
                         data) [])
      0
  = (nth t_col (nth k data []) 0 - lo) / (hi - lo).
Proof.
  intros Hk.
  destruct (@column_inv data w t_col times Hw Hcol) as (Hne & Ht & Etimes).
  set (times' := map (fun t => (t - lo) / (hi - lo)) times).
  assert (L : length times' = length data)
    by (unfold times'; rewrite Etimes, !length_map; reflexivity).
  transitivity (nth k (map (fun row : list R => nth t_col row 0)
                           (set_column t_col times' data)) 0).
  { symmetry.
    apply (@nth_map_in _ _ (fun row : list R => nth t_col row 0)
             (set_column t_col times' data) k [] 0).
    rewrite set_column_length; assumption. }
  assert (E : map (fun row : list R => nth t_col row 0)
                  (set_column t_col times' data) = times')
    by (apply (@set_column_read R real_scalar w t_col Ht data Hw times' L)).
  rewrite E.
  unfold times'. rewrite Etimes, map_map.
  apply (@nth_map_in _ _
           (fun row : list R => (nth t_col row 0 - lo) / (hi - lo))
           data k [] 0).
  exact Hk.
Qed.

End RealNormalized.

(** X10: in exact arithmetic, on a matrix with rows of one width whose
    column [t_col] has the least element [lo] and the greatest element
    [hi], with [lo < hi]: [normalize_time] replaces every time [t] by
    [(t - lo) / (hi - lo)]; the normalized times lie between 0 and 1, their
    least element is 0 and their greatest element is 1. *)
Theorem normalize_time_range :
  forall (data : @matrix R) (w t_col : nat) (times : list R) (lo hi : R),
    Forall (fun r => length r = w) data ->
    column data t_col = Ok times ->
    np_min times = Ok lo ->
    np_max times = Ok hi ->
    (lo < hi)%R ->
    exists data' times',
      normalize_time t_col data = Ok (data', data')
      /\ column data' t_col = Ok times'
      /\ times' = map (fun t => ((t - lo) / (hi - lo))%R) times
      /\ Forall (fun t => (0 <= t <= 1)%R) times'
      /\ np_min times' = Ok 0%R
      /\ np_max times' = Ok 1%R.
Proof.
  intros data w t_col times lo hi Hw Hcol Hlo Hhi Hlt.
  destruct (@normalized_column data w t_col times lo hi Hw Hcol Hlo Hhi Hlt)
    as (Hrun & _ & Hcol' & Hunit & Hmin & Hmax).
  eexists. eexists. split; [exact Hrun|].
  split; [exact Hcol'|]. split; [reflexivity|].
  split; [exact Hunit|]. split; [exact Hmin | exact Hmax].
Qed.

Section TwoTimes.

Local Open Scope R_scope.

Lemma two_times_width : Forall (fun r : list R => length r = 2%nat) two_times.
Proof. repeat constructor. Qed.

Lemma two_times_column : column two_times 0 = Ok [2; 4].
Proof. reflexivity. Qed.

Lemma two_times_min : np_min [2; 4] = Ok 2.
Proof.
  apply np_min_real_char; [left; reflexivity|].
  intros x [<-|[<-|[]]]; lra.
Qed.

Lemma two_times_max : np_max [2; 4] = Ok 4.
Proof.
  apply np_max_real_char; [right; left; reflexivity|].
  intros x [<-|[<-|[]]]; lra.
Qed.

Lemma two_times_normalized :
  normalize_time 0 two_times
  = Ok (set_column 0 (map (fun t => (t - 2) / (4 - 2)) [2; 4]) two_times,
        set_column 0 (map (fun t => (t - 2) / (4 - 2)) [2; 4]) two_times).
Proof.
  apply (normalize_time_real 0 two_times_width two_times_column
                             two_times_min two_times_max).
Qed.

End TwoTimes.

(** The times 2 and 4 become 0 and 1. *)
Lemma normalize_time_range_witness :
  exists data' times',
    normalize_time 0 two_times = Ok (data', data')
    /\ column data' 0 = Ok times'
    /\ times' = map (fun t => ((t - 2) / (4 - 2))%R) [2; 4]%R
    /\ Forall (fun t => (0 <= t <= 1)%R) times'
    /\ np_min times' = Ok 0%R
    /\ np_max times' = Ok 1%R.
Proof.
  apply (@normalize_time_range two_times 2 0 [2; 4]%R 2%R 4%R).
  - apply two_times_width.
  - apply two_times_column.
  - apply two_times_min.
  - apply two_times_max.
  - lra.
Defined.

(** X11: under the same conditions the normalization keeps the order of the
    times: the time of a row is at most the time of another row after the
    call exactly when it was so before, so that a column of non-decreasing
    times is left non-decreasing. *)
Theorem normalize_time_keeps_order :
  forall (data data' : @matrix R) (w t_col : nat) (times : list R)
         (lo hi : R),
    Forall (fun r => length r = w) data ->
    column data t_col = Ok times ->
    np_min times = Ok lo ->
    np_max times = Ok hi ->
    (lo < hi)%R ->
    normalize_time t_col data = Ok (data', data') ->
    forall i j,
      i < length data -> j < length data ->
      ((nth t_col (nth i data []) 0 <= nth t_col (nth j data []) 0)%R
       <-> (nth t_col (nth i data' []) 0 <= nth t_col (nth j data' []) 0)%R).
Proof.
  intros data data' w t_col times lo hi Hw Hcol Hlo Hhi Hlt Hrun i j Hi Hj.
  rewrite (normalize_time_real t_col Hw Hcol Hlo Hhi) in Hrun.
  injection Hrun as <-.
  rewrite (@normalized_row_time data w t_col times lo hi Hw Hcol i Hi).
  rewrite (@normalized_row_time data w t_col times lo hi Hw Hcol j Hj).
  assert (Hpos : (0 < / (hi - lo))%R) by (apply Rinv_0_lt_compat; lra).
  unfold Rdiv. split; intros Hle.
  - apply Rmult_le_compat_r; lra.
  - apply (Rmult_le_reg_r (/ (hi - lo))) in Hle; [lra | exact Hpos].
Qed.

Lemma normalize_time_keeps_order_witness :
  (nth 0 (nth 0 two_times []) 0 <= nth 0 (nth 1 two_times []) 0)%R
  <-> (nth 0 (nth 0 (set_column 0
                       (map (fun t => ((t - 2) / (4 - 2))%R) [2; 4]%R)
                       two_times) []) 0
       <= nth 0 (nth 1 (set_column 0
                          (map (fun t => ((t - 2) / (4 - 2))%R) [2; 4]%R)
                          two_times) []) 0)%R.
Proof.
  apply (@normalize_time_keeps_order two_times _ 2 0 [2; 4]%R 2%R 4%R).
  - apply two_times_width.
  - apply two_times_column.
  - apply two_times_min.
  - apply two_times_max.
  - lra.
  - apply two_times_normalized.
  - simpl. lia.
  - simpl. lia.
Defined.

(** X12: under the same conditions a second call of [normalize_time]
    changes nothing: the least time is then 0 and the greatest 1. *)
Theorem normalize_time_idempotent :
  forall (data data' : @matrix R) (w t_col : nat) (times : list R)
         (lo hi : R),
    Forall (fun r => length r = w) data ->
    column data t_col = Ok times ->
    np_min times = Ok lo ->
    np_max times = Ok hi ->
    (lo < hi)%R ->
    normalize_time t_col data = Ok (data', data') ->
    normalize_time t_col data' = Ok (data', data').
Proof.
  intros data data' w t_col times lo hi Hw Hcol Hlo Hhi Hlt Hrun.
  destruct (@normalized_column data w t_col times lo hi Hw Hcol Hlo Hhi Hlt)
    as (Hrun' & Hw' & Hcol' & _ & Hmin & Hmax).
  rewrite Hrun' in Hrun. injection Hrun as <-.
  rewrite (normalize_time_real t_col Hw' Hcol' Hmin Hmax).
  destruct (@column_inv _ w t_col _ Hw' Hcol') as (_ & Ht & Etimes).
  assert (E : map (fun t => ((t - 0) / (1 - 0))%R)
                  (map (fun t => ((t - lo) / (hi - lo))%R) times)
              = map (fun t => ((t - lo) / (hi - lo))%R) times).
  { rewrite <- (map_id (map _ times)) at 2. apply map_ext.
    intros t. field. }
  rewrite E. rewrite Etimes at 1 3.
  change 0%R with (@fzero R real_scalar).
  rewrite (set_column_same Ht Hw'). reflexivity.
Qed.

Lemma normalize_time_idempotent_witness :
  normalize_time 0 (set_column 0
                      (map (fun t => ((t - 2) / (4 - 2))%R) [2; 4]%R)
                      two_times)
  = Ok (set_column 0 (map (fun t => ((t - 2) / (4 - 2))%R) [2; 4]%R)
                   two_times,
        set_column 0 (map (fun t => ((t - 2) / (4 - 2))%R) [2; 4]%R)
                   two_times).
Proof.
  apply (@normalize_time_idempotent two_times _ 2 0 [2; 4]%R 2%R 4%R).
  - apply two_times_width.
  - apply two_times_column.
  - apply two_times_min.
  - apply two_times_max.
  - lra.
  - apply two_times_normalized.
Defined.

(** * The training loop of [train_lt_network] *)

Section TrainingFacts.

Context {F : Type} {SF : Scalar F}.
Variable fitness : nat -> F.

(** A loop invariant gives what holds at the [break]. *)
Lemma train_loop_rule (I Fin : training F -> Prop) :
  (forall st, I st ->
              if snd (train_iteration fitness st)
              then Fin (fst (train_iteration fitness st))
              else I (fst (train_iteration fitness st))) ->
  forall fuel st st',
    I st -> train_loop fitness fuel st = Some st' -> Fin st'.
Proof.
  intros Hstep. induction fuel as [|fuel IH]; intros st st' HI Hrun.
  - discriminate.
  - cbn [train_loop] in Hrun. specialize (Hstep st HI).
    destruct (train_iteration fitness st) as [st1 stop].
    cbn [fst snd] in Hstep. destruct stop.
    + injection Hrun as <-. exact Hstep.
    + apply (IH st1 st'); assumption.
Qed.

Lemma train_iteration_continues (st : training F) :
  snd (train_iteration fitness st) = false ->
  idx (fst (train_iteration fitness st)) = idx st + 1
  /\ idx st <> MAX_ITERATIONS - 1.
Proof.
  unfold train_iteration. cbv zeta.
  destruct (_ =? REQUIRED_CONVERGENCE_STREAK); [discriminate|].
  destruct (Nat.eqb_spec (idx st) (MAX_ITERATIONS - 1)); [discriminate|].
  intros _. split; [reflexivity | assumption].
Qed.

Lemma train_loop_returns (fuel : nat) :
  forall st,
    idx st < MAX_ITERATIONS -> MAX_ITERATIONS <= fuel + idx st ->
    exists st', train_loop fitness fuel st = Some st'.
Proof.
  induction fuel as [|fuel IH]; intros st Hlt Hfuel.
  - simpl in Hfuel. lia.
  - cbn [train_loop].
    pose proof (train_iteration_continues st) as Hcont.
    destruct (train_iteration fitness st) as [st1 stop].
    cbn [fst snd] in Hcont. destruct stop.
    + eexists. reflexivity.
    + destruct (Hcont eq_refl) as [E Hne].
      apply IH; unfold MAX_ITERATIONS in *; lia.
Qed.

Lemma initial_training_inv : training_inv fitness initial_training.
Proof.
  unfold training_inv, initial_training, MAX_ITERATIONS,
    REQUIRED_CONVERGENCE_STREAK.
  cbn [idx fitness_list current_convergence_streak max_fitness
       max_fitness_epoch].
  repeat split; try lia; try reflexivity; intros; lia.
Qed.

Lemma training_step (st : training F) :
  training_inv fitness st ->
  if snd (train_iteration fitness st)
  then training_end fitness (fst (train_iteration fitness st))
  else training_inv fitness (fst (train_iteration fitness st)).
Proof.
  intros (Hidx & Hlist & Hs10 & Hsle & Hrun & Hmax & Hnot & Hbest).
  unfold train_iteration. cbv zeta.
  set (cf := fitness (idx st)).
  set (s := current_convergence_streak st) in *.
  assert (Hlist' : fitness_list st ++ [cf]
                   = map fitness (seq 0 (idx st + 1))).
  { rewrite Hlist. replace (idx st + 1) with (S (idx st)) by lia.
    rewrite seq_S, map_app. reflexivity. }
  (* the fitness recorded as the greatest *)
  assert (Hbest' :
            exists e,
              (if match max_fitness st with
                  | None => true
                  | Some m => fltb m cf
                  end
               then Some (idx st) else max_fitness_epoch st) = Some e
              /\ e <= idx st
              /\ (if match max_fitness st with
                     | None => true
                     | Some m => fltb m cf
                     end
                  then Some cf else max_fitness st) = Some (fitness e)).
  { destruct (max_fitness_epoch st) as [e|].
    - destruct Hbest as [He Hm]. rewrite Hm.
      destruct (fltb (fitness e) cf).
      + exists (idx st). auto.
      + exists e. split; [reflexivity|]. split; [lia | reflexivity].
    - destruct Hbest as [_ Hm]. rewrite Hm. exists (idx st). auto. }
  (* the streak after this iteration *)
  set (s' := if fltb CONVERGENCE_THRESHOLD cf then s + 1 else 0).
  assert (Hrun' : forall j, idx st + 1 - s' <= j -> j < idx st + 1 ->
                            above_threshold fitness j).
  { intros j Hj1 Hj2. unfold s' in Hj1.
    destruct (fltb CONVERGENCE_THRESHOLD cf) eqn:Ecf.
    - destruct (Nat.eq_dec j (idx st)) as [->|Hne]; [exact Ecf|].
      apply Hrun; lia.
    - lia. }
  assert (Hmax' : s' < idx st + 1 ->
                  ~ above_threshold fitness (idx st + 1 - s' - 1)).
  { unfold s'. destruct (fltb CONVERGENCE_THRESHOLD cf) eqn:Ecf.
    - intros Hlt.
      replace (idx st + 1 - (s + 1) - 1) with (idx st - s - 1) by lia.
      apply Hmax. lia.
    - intros _. replace (idx st + 1 - 0 - 1) with (idx st) by lia.
      unfold above_threshold. fold cf. rewrite Ecf. discriminate. }
  assert (Hs' : s' <= idx st + 1 /\ s' <= REQUIRED_CONVERGENCE_STREAK).
  { unfold s'. destruct (fltb CONVERGENCE_THRESHOLD cf); lia. }
  assert (Hconv : s' = REQUIRED_CONVERGENCE_STREAK
                  <-> converged_at fitness (idx st)).
  { unfold converged_at, REQUIRED_CONVERGENCE_STREAK in *. split.
    - intros E. split; [lia|]. intros j Hj1 Hj2. apply Hrun'; lia.
    - intros [Hn Hall].
      destruct (Nat.eq_dec s' 10) as [E|Hne]; [exact E|]. exfalso.
      apply Hmax'; [lia|]. apply Hall; lia. }
  assert (Hnot' : forall n, n < idx st + 1 -> s' <> REQUIRED_CONVERGENCE_STREAK ->
                            ~ converged_at fitness n).
  { intros n Hn Hne Hc.
    destruct (Nat.eq_dec n (idx st)) as [->|Hne'].
    - apply Hne. apply Hconv. exact Hc.
    - apply (Hnot n); [lia | exact Hc]. }
  fold s'.
  destruct (Nat.eqb_spec s' REQUIRED_CONVERGENCE_STREAK) as [E|Hne];
    cbn [fst snd].
  - (* convergence *)
    unfold training_end.
    cbn [idx fitness_list current_convergence_streak max_fitness
         max_fitness_epoch].
    split; [exact Hidx|]. split; [exact Hlist'|].
    split; [left; apply Hconv; exact E|].
    split; [exact Hconv|]. split; [exact Hnot | exact Hbest'].
  - destruct (Nat.eqb_spec (idx st) (MAX_ITERATIONS - 1)) as [Elast|Hnl];
      cbn [fst snd].
    + (* the last iteration *)
      unfold training_end.
      cbn [idx fitness_list current_convergence_streak max_fitness
           max_fitness_epoch].
      split; [exact Hidx|]. split; [exact Hlist'|].
      split; [right; exact Elast|].
      split; [exact Hconv|]. split; [exact Hnot | exact Hbest'].
    + (* one more iteration *)
      unfold training_inv.
      cbn [idx fitness_list current_convergence_streak max_fitness
           max_fitness_epoch].
      split; [unfold MAX_ITERATIONS in *; lia|].
      split; [exact Hlist'|].
      split; [lia|]. split; [lia|].
      split; [exact Hrun'|]. split; [exact Hmax'|].
      split; [intros n Hn; apply Hnot'; assumption|].
      destruct Hbest' as (e & -> & He & ->). split; [lia | reflexivity].
Qed.

Lemma train_loop_end (fuel : nat) (st : training F) :
  train_loop fitness fuel initial_training = Some st ->
  training_end fitness st.
Proof.
  apply (@train_loop_rule (training_inv fitness) (training_end fitness)
           training_step fuel initial_training st initial_training_inv).
Qed.

End TrainingFacts.

Lemma nth_error_map_seq {A : Type} (f : nat -> A) (n e : nat) :
  e < n -> nth_error (map f (seq 0 n)) e = Some (f e).
Proof.
  intros He. rewrite nth_error_map.
  rewrite (nth_error_nth' (seq 0 n) 0) by (rewrite length_seq; exact He).
  rewrite seq_nth by exact He. reflexivity.
Qed.

(** X13: whatever fitness values the trainer reports, the loop of
    [train_lt_network] is left after at least [REQUIRED_CONVERGENCE_STREAK]
    and at most [MAX_ITERATIONS] calls of [trainer.train()]; it has then
    recorded one fitness for each iteration, and [max_fitness_epoch] is an
    index of [fitness_list], at which the list holds [max_fitness], so that
    [fitness_list[max_fitness_epoch]] raises nothing. *)
Theorem training_loop_terminates :
  forall (F : Type) (SF : Scalar F) (fitness : nat -> F) (fuel : nat),
    MAX_ITERATIONS <= fuel ->
    exists st,
      train_loop fitness fuel initial_training = Some st
      /\ fitness_list st = map fitness (seq 0 (idx st + 1))
      /\ REQUIRED_CONVERGENCE_STREAK <= length (fitness_list st)
      /\ length (fitness_list st) <= MAX_ITERATIONS
      /\ exists e m,
           max_fitness_epoch st = Some e
           /\ max_fitness st = Some m
           /\ nth_error (fitness_list st) e = Some m.
Proof.
  intros F SF fitness fuel Hfuel.
  destruct (@train_loop_returns F SF fitness fuel initial_training)
    as [st Hrun].
  { cbn [idx initial_training]. unfold MAX_ITERATIONS. lia. }
  { cbn [idx initial_training]. lia. }
  exists st. split; [exact Hrun|].
  destruct (train_loop_end _ _ Hrun)
    as (Hidx & Hlist & Hstop & _ & _ & e & He & Hle & Hm).
  split; [exact Hlist|].
  assert (Hlen : length (fitness_list st) = idx st + 1)
    by (rewrite Hlist, length_map, length_seq; reflexivity).
  split.
  - rewrite Hlen. destruct Hstop as [[Hn _]|E]; [exact Hn|].
    rewrite E. unfold MAX_ITERATIONS, REQUIRED_CONVERGENCE_STREAK. lia.
  - split; [rewrite Hlen; lia|].
    exists e, (fitness e). split; [exact He|]. split; [exact Hm|].
    rewrite Hlist. apply nth_error_map_seq. lia.
Qed.

(** A trainer that reports the fitness 0 in every iteration. *)
Lemma training_loop_terminates_witness :
  exists st,
    train_loop (fun _ : nat => 0%float) 30 initial_training = Some st
    /\ fitness_list st = map (fun _ : nat => 0%float) (seq 0 (idx st + 1))
    /\ REQUIRED_CONVERGENCE_STREAK <= length (fitness_list st)
    /\ length (fitness_list st) <= MAX_ITERATIONS
    /\ exists e m,
         max_fitness_epoch st = Some e
         /\ max_fitness st = Some m
         /\ nth_error (fitness_list st) e = Some m.
Proof.
  apply (@training_loop_terminates float float_scalar
           (fun _ : nat => 0%float) 30).
  unfold MAX_ITERATIONS. lia.
Defined.

(** X14: the loop of [train_lt_network] is left in the first iteration that
    ends a run of [REQUIRED_CONVERGENCE_STREAK] consecutive fitness values
    over [CONVERGENCE_THRESHOLD], or in iteration [MAX_ITERATIONS - 1] when
    there is no such run before; the streak counter holds
    [REQUIRED_CONVERGENCE_STREAK] at the end exactly when the last iteration
    ends such a run. *)
Theorem training_stops_at_first_convergence :
  forall (F : Type) (SF : Scalar F) (fitness : nat -> F) (fuel : nat)
         (st : training F),
    train_loop fitness fuel initial_training = Some st ->
    (converged_at fitness (idx st) \/ idx st = MAX_ITERATIONS - 1)
    /\ (forall n, n < idx st -> ~ converged_at fitness n)
    /\ (current_convergence_streak st = REQUIRED_CONVERGENCE_STREAK
        <-> converged_at fitness (idx st)).
Proof.
  intros F SF fitness fuel st Hrun.
  destruct (train_loop_end _ _ Hrun)
    as (_ & _ & Hstop & Hstreak & Hfirst & _).
  split; [exact Hstop|]. split; [exact Hfirst | exact Hstreak].
Qed.

(** With the fitness 0 in every iteration the loop is left in iteration 9,
    the tenth. *)
Lemma training_stops_at_first_convergence_witness :
  (converged_at (fun _ : nat => 0%float) 9 \/ 9 = MAX_ITERATIONS - 1)
  /\ (forall n, n < 9 -> ~ converged_at (fun _ : nat => 0%float) n)
  /\ (10 = REQUIRED_CONVERGENCE_STREAK
      <-> converged_at (fun _ : nat => 0%float) 9).
Proof.
  apply (@training_stops_at_first_convergence float float_scalar
           (fun _ : nat => 0%float) 30
           {| fitness_list := repeat 0%float 10;
              max_fitness := Some 0%float;
              max_fitness_epoch := Some 0;
              idx := 9;
              current_convergence_streak := 10 |}).
  vm_compute. reflexivity.
Defined.

(** X15: in exact arithmetic, when the loop of [train_lt_network] is left,
    [max_fitness] is the greatest of the fitness values of all iterations
    and [max_fitness_epoch] the first iteration that gave it. *)
Theorem max_fitness_is_first_maximum :
  forall (fitness : nat -> R) (fuel : nat) (st : training R),
    train_loop fitness fuel initial_training = Some st ->
    exists e,
      max_fitness_epoch st = Some e
      /\ max_fitness st = Some (fitness e)
      /\ e <= idx st
      /\ (forall j, j <= idx st -> (fitness j <= fitness e)%R)
      /\ (forall j, j < e -> (fitness j < fitness e)%R).
Proof.
  intros fitness fuel st Hrun.
  apply (@train_loop_rule R real_scalar fitness
           (fun st =>
              match max_fitness_epoch st with
              | None => idx st = 0 /\ max_fitness st = None
              | Some e =>
                  max_fitness st = Some (fitness e)
                  /\ e < idx st
                  /\ (forall j, j < idx st -> (fitness j <= fitness e)%R)
                  /\ (forall j, j < e -> (fitness j < fitness e)%R)
              end)
           (fun st =>
              exists e,
                max_fitness_epoch st = Some e
                /\ max_fitness st = Some (fitness e)
                /\ e <= idx st
                /\ (forall j, j <= idx st -> (fitness j <= fitness e)%R)
                /\ (forall j, j < e -> (fitness j < fitness e)%R)))
    with (fuel := fuel) (st := initial_training); [| |exact Hrun].
  - clear st Hrun. intros st Hbest.
    assert (Hnew :
              exists e,
                (if match max_fitness st with
                    | None => true
                    | Some m => fltb m (fitness (idx st))
                    end
                 then Some (idx st) else max_fitness_epoch st) = Some e
                /\ (if match max_fitness st with
                       | None => true
                       | Some m => fltb m (fitness (idx st))
                       end
                    then Some (fitness (idx st)) else max_fitness st)
                   = Some (fitness e)
                /\ e <= idx st
                /\ (forall j, j <= idx st -> (fitness j <= fitness e)%R)
                /\ (forall j, j < e -> (fitness j < fitness e)%R)).
    { destruct (max_fitness_epoch st) as [e|].
      - destruct Hbest as (Hm & He & Hle & Hlt). rewrite Hm.
        change (@fltb R real_scalar)
          with (fun x y : R => if Rlt_dec x y then true else false).
        cbv beta.
        destruct (Rlt_dec (fitness e) (fitness (idx st))) as [Hgt|Hngt].
        + exists (idx st). split; [reflexivity|]. split; [reflexivity|].
          split; [lia|]. split.
          * intros j Hj. destruct (Nat.eq_dec j (idx st)) as [->|Hne].
            -- lra.
            -- assert (Hj' : j < idx st) by lia.
               specialize (Hle j Hj'). lra.
          * intros j Hj. specialize (Hle j Hj). lra.
        + exists e. split; [reflexivity|]. split; [reflexivity|].
          split; [lia|]. split; [|exact Hlt].
          intros j Hj. destruct (Nat.eq_dec j (idx st)) as [->|Hne].
          * lra.
          * apply Hle. lia.
      - destruct Hbest as [E Hm]. rewrite Hm.
        exists (idx st). split; [reflexivity|]. split; [reflexivity|].
        split; [lia|]. split.
        + intros j Hj. assert (j = idx st) by lia. subst j. lra.
        + intros j Hj. lia. }
    unfold train_iteration. cbv zeta.
    destruct (_ =? REQUIRED_CONVERGENCE_STREAK); cbn [fst snd].
    + cbn [idx max_fitness max_fitness_epoch]. exact Hnew.
    + destruct (idx st =? MAX_ITERATIONS - 1); cbn [fst snd].
      * cbn [idx max_fitness max_fitness_epoch]. exact Hnew.
      * cbn [idx max_fitness max_fitness_epoch].
        destruct Hnew as (e & -> & -> & He & Hle & Hlt).
        split; [reflexivity|]. split; [lia|]. split; [|exact Hlt].
        intros j Hj. apply Hle. lia.
  - cbn [initial_training max_fitness_epoch idx max_fitness]. auto.
Qed.

(** A fitness that grows by one in every iteration. *)
Lemma max_fitness_is_first_maximum_witness :
  exists st,
    train_loop INR 30 initial_training = Some st
    /\ exists e,
         max_fitness_epoch st = Some e
         /\ max_fitness st = Some (INR e)
         /\ e <= idx st
         /\ (forall j, j <= idx st -> (INR j <= INR e)%R)
         /\ (forall j, j < e -> (INR j < INR e)%R).
Proof.
  destruct (@train_loop_returns R real_scalar INR 30 initial_training)
    as [st Hrun].
  - cbn [idx initial_training]. unfold MAX_ITERATIONS. lia.
  - cbn [idx initial_training]. unfold MAX_ITERATIONS. lia.
  - exists st. split; [exact Hrun|].
    apply (@max_fitness_is_first_maximum INR 30 st Hrun).
Defined.

(** * The interactive functions *)

(** ** [rate_segments] *)

Section RateFacts.

Context {F : Type} {SF : Scalar F}.

(** The first accepted line is the rating; the lines before it are read and
    dropped. *)
Lemma ask_rating_filter (lines : @console F) :
  match filter accepted lines with
  | [] => ask_rating lines = Failed EOFError
  | line :: others =>
      exists rating rest,
        line = Some rating
        /\ ask_rating lines = Done (rating, rest)
        /\ filter accepted rest = others
  end.
Proof.
  induction lines as [|[r|] lines IH]; cbn [filter ask_rating accepted].
  - reflexivity.
  - destruct (fltb r fzero || fltb (flit 1 1) r); cbn [negb].
    + exact IH.
    + exists r, lines. auto.
  - exact IH.
Qed.

Lemma ask_rating_on_filter (lines : @console F) :
  match ask_rating lines with
  | Done answer =>
      ask_rating (filter accepted lines)
      = Done (fst answer, filter accepted (snd answer))
  | Failed e => ask_rating (filter accepted lines) = Failed e
  end.
Proof.
  induction lines as [|[r|] lines IH]; cbn [filter ask_rating accepted].
  - reflexivity.
  - destruct (fltb r fzero || fltb (flit 1 1) r) eqn:E; cbn [negb].
    + exact IH.
    + cbn [ask_rating]. rewrite E. reflexivity.
  - exact IH.
Qed.

Lemma start_from_cons (s e : nat) (ends : list nat) (g : nat) :
  start_from s (e :: ends) (S g) = start_from e ends g.
Proof. destruct g; reflexivity. Qed.

Lemma start_from_le (ends : list nat) :
  forall s g,
    (forall g', g' < length ends ->
                start_from s ends g' < nth g' ends 0) ->
    g <= length ends -> s <= start_from s ends g.
Proof.
  induction ends as [|e ends IH]; intros s g Hinc Hg.
  - simpl in Hg. assert (g = 0) by lia. subst g. simpl. lia.
  - destruct g as [|g]; [simpl; lia|].
    rewrite start_from_cons.
    assert (H0 : s < e) by (apply (Hinc 0); simpl; lia).
    apply Nat.le_trans with e; [lia|].
    apply IH; [|simpl in Hg; lia].
    intros g' Hg'. specialize (Hinc (S g')).
    rewrite start_from_cons in Hinc. apply Hinc. simpl. lia.
Qed.

Lemma display_path_inv (path : @matrix F) :
  display_path path = Done tt -> 0 < length path.
Proof.
  unfold display_path. destruct (Nat.ltb_spec 0 (length path)); [auto|].
  discriminate.
Qed.

Lemma slice_nonempty (data : @matrix F) (a b : nat) :
  0 < length (slice a b data) <-> a < b /\ a < length data.
Proof. rewrite slice_length. lia. Qed.

(** What a run of the loop that returns has done. *)
Lemma rate_loop_inv (data : @matrix F) (segment_ends : list nat) :
  forall segment_start ratings lines ratings' lines',
    rate_loop data segment_ends segment_start ratings lines
    = Done (ratings', lines') ->
    exists rs,
      map Some rs = firstn (length segment_ends) (filter accepted lines)
      /\ length rs = length segment_ends
      /\ (forall g, g < length segment_ends ->
                    start_from segment_start segment_ends g
                    < nth g segment_ends 0)
      /\ rows_of ratings'
         = rows_of ratings ++ rating_column segment_start segment_ends rs
      /\ (segment_ends <> [] -> ratings' <> None).
Proof.
  induction segment_ends as [|e ends IH];
    intros s ratings lines ratings' lines' Hrun.
  - cbn [rate_loop] in Hrun. injection Hrun as <- <-.
    exists []. cbn [length firstn map rating_column].
    rewrite app_nil_r.
    repeat split; try reflexivity; [intros g Hg; lia | contradiction].
  - cbn [rate_loop obind] in Hrun.
    destruct (display_path (slice s e data)) as [[]|err] eqn:Ed;
      [|discriminate].
    apply display_path_inv in Ed. apply slice_nonempty in Ed as [Hse Hs].
    pose proof (ask_rating_filter lines) as Hask.
    destruct (ask_rating lines) as [[r rest]|err] eqn:Ea; [|discriminate].
    cbn [obind fst snd] in Hrun.
    unfold segment_rating in Hrun.
    destruct (Nat.ltb_spec e s) as [Hlt|_]; [lia|].
    cbn [obind] in Hrun.
    destruct (filter accepted lines) as [|line others] eqn:Ef;
      [discriminate|].
    destruct Hask as (r0 & rest0 & -> & [= <- <-] & Hrest).
    apply IH in Hrun as (rs & Hrs & Hlen & Hinc & Hrows & _).
    exists (r :: rs). cbn [length firstn map rating_column].
    split; [rewrite Hrs, Hrest; reflexivity|].
    split; [rewrite Hlen; reflexivity|].
    split.
    { intros g Hg. destruct g as [|g]; [exact Hse|].
      rewrite start_from_cons. apply Hinc. lia. }
    split.
    { rewrite Hrows. destruct ratings as [above|]; cbn [rows_of].
      - rewrite app_assoc. reflexivity.
      - reflexivity. }
    intros _ Hnone. rewrite Hnone in Hrows. cbn [rows_of] in Hrows.
    destruct ratings as [above|]; cbn [rows_of] in Hrows.
    + symmetry in Hrows. apply app_eq_nil in Hrows as [Hrows _].
      apply app_eq_nil in Hrows as [_ Hrows].
      apply (f_equal (@length _)) in Hrows.
      rewrite repeat_length in Hrows. simpl in Hrows. lia.
    + symmetry in Hrows. apply app_eq_nil in Hrows as [Hrows _].
      apply (f_equal (@length _)) in Hrows.
      rewrite repeat_length in Hrows. simpl in Hrows. lia.
Qed.

(** The row of the ratings for a sample of segment [g]. *)
Lemma rating_column_nth (segment_ends : list nat) :
  forall segment_start (rs : list F) g k,
    length rs = length segment_ends ->
    (forall g', g' < length segment_ends ->
                start_from segment_start segment_ends g'
                < nth g' segment_ends 0) ->
    g < length segment_ends ->
    start_from segment_start segment_ends g <= k ->
    k < nth g segment_ends 0 ->
    nth_error (rating_column segment_start segment_ends rs)
              (k - segment_start)
    = Some [fmul (nth g rs fzero) (flit 1 1)].
Proof.
  induction segment_ends as [|e ends IH]; intros s rs g k Hlen Hinc Hg Hk1 Hk2.
  - simpl in Hg. lia.
  - destruct rs as [|r rs]; [discriminate|].
    cbn [rating_column].
    assert (H0 : s < e) by (apply (Hinc 0); simpl; lia).
    assert (Hinc' : forall g', g' < length ends ->
                               start_from e ends g' < nth g' ends 0).
    { intros g' Hg'. specialize (Hinc (S g')).
      rewrite start_from_cons in Hinc. apply Hinc. simpl. lia. }
    destruct g as [|g].
    + cbn [start_from nth] in *.
      rewrite nth_error_app1 by (rewrite repeat_length; lia).
      apply nth_error_repeat. lia.
    + rewrite start_from_cons in Hk1. cbn [nth] in *.
      assert (Hek : e <= k).
      { apply Nat.le_trans with (start_from e ends g); [|exact Hk1].
        apply start_from_le; [exact Hinc' | simpl in Hg; lia]. }
      rewrite nth_error_app2 by (rewrite repeat_length; lia).
      rewrite repeat_length.
      replace (k - s - (e - s)) with (k - e) by lia.
      apply IH; try assumption; simpl in *; lia.
Qed.

Lemma nth_error_hstack (data rows : @matrix F) :
  forall k row x,
    nth_error data k = Some row -> nth_error rows k = Some x ->
    nth_error (map (fun ab => fst ab ++ snd ab) (combine data rows)) k
    = Some (row ++ x).
Proof.
  revert rows. induction data as [|d data IH]; intros rows k row x Hd Hx.
  - destruct k; discriminate.
  - destruct rows as [|r rows]; [destruct k; discriminate|].
    destruct k as [|k]; cbn [combine map nth_error] in *.
    + injection Hd as <-. injection Hx as <-. reflexivity.
    + apply IH; assumption.
Qed.

Lemma np_hstack_inv (data : @matrix F) (ratings : option (@matrix F))
      (rows : @matrix F) :
  np_hstack data ratings = Ok rows ->
  exists column,
    ratings = Some column
    /\ length column = length data
    /\ rows = map (fun ab => fst ab ++ snd ab) (combine data column).
Proof.
  unfold np_hstack. destruct ratings as [column|]; [|discriminate].
  destruct (Nat.eqb_spec (length column) (length data)); [|discriminate].
  intros [= <-]. exists column. auto.
Qed.

(** The loop on the accepted lines alone. *)
Lemma rate_loop_on_filter (data : @matrix F) (segment_ends : list nat) :
  forall segment_start ratings lines,
    match rate_loop data segment_ends segment_start ratings lines with
    | Done rated =>
        rate_loop data segment_ends segment_start ratings
                  (filter accepted lines)
        = Done (fst rated, filter accepted (snd rated))
    | Failed e =>
        rate_loop data segment_ends segment_start ratings
                  (filter accepted lines)
        = Failed e
    end.
Proof.
  induction segment_ends as [|e ends IH]; intros s ratings lines.
  - reflexivity.
  - cbn [rate_loop obind].
    destruct (display_path (slice s e data)) as [[]|err]; [|reflexivity].
    pose proof (ask_rating_on_filter lines) as Hask.
    destruct (ask_rating lines) as [[r rest]|err]; rewrite Hask;
      [|reflexivity].
    cbn [obind fst snd].
    destruct (segment_rating r s e) as [rows|err]; [|reflexivity].
    cbn [obind]. apply IH.
Qed.

(** The loop stops at the first segment without a sample. *)
Lemma rate_loop_assert (data : @matrix F) (segment_ends : list nat) :
  forall segment_start ratings lines g,
    g < length segment_ends ->
    nth g segment_ends 0 <= start_from segment_start segment_ends g ->
    (forall g', g' < g ->
                start_from segment_start segment_ends g'
                < nth g' segment_ends 0
                /\ start_from segment_start segment_ends g' < length data) ->
    g <= length (filter accepted lines) ->
    rate_loop data segment_ends segment_start ratings lines
    = Failed AssertionError.
Proof.
  induction segment_ends as [|e ends IH];
    intros s ratings lines g Hg Hempty Hbefore Hlines.
  - simpl in Hg. lia.
  - cbn [rate_loop obind]. destruct g as [|g].
    + cbn [nth start_from] in Hempty. unfold display_path.
      rewrite slice_length.
      destruct (Nat.ltb_spec 0 (Nat.min (e - s) (length data - s)));
        [lia | reflexivity].
    + destruct (Hbefore 0) as [H0 H0']; [lia|].
      cbn [nth start_from] in H0, H0'. unfold display_path.
      rewrite slice_length.
      destruct (Nat.ltb_spec 0 (Nat.min (e - s) (length data - s)));
        [|lia].
      cbn [obind].
      pose proof (ask_rating_filter lines) as Hask.
      destruct (filter accepted lines) as [|line others] eqn:Ef;
        [simpl in Hlines; lia|].
      destruct Hask as (r & rest & _ & -> & Hrest).
      cbn [obind fst snd]. unfold segment_rating.
      destruct (Nat.ltb_spec e s); [lia|]. cbn [obind].
      apply (IH e _ rest g).
      * simpl in Hg. lia.
      * rewrite start_from_cons in Hempty. exact Hempty.
      * intros g' Hg'. specialize (Hbefore (S g')).
        rewrite start_from_cons in Hbefore. apply Hbefore. lia.
      * rewrite Hrest. simpl in Hlines. lia.
Qed.

End RateFacts.

(** X16: when [rate_segments] returns, every segment found by
    [_detect_segments] starts before it ends, the ratings are the first
    accepted lines of the console, one for each segment, and the matrix
    returned has the rows of [data], each with one more column that holds
    the rating of the segment of the row (multiplied by the 1.0 of
    [np.ones]). *)
Theorem rate_segments_result :
  forall (F : Type) (SF : Scalar F) (c : constants) (data : @matrix F)
         (lines : @console F) (rows : @matrix F) (rest : @console F),
    rate_segments c data lines = Done (rows, rest) ->
    exists segment_ends ratings,
      _detect_segments c data = Ok segment_ends
      /\ map Some ratings
         = firstn (length segment_ends) (filter accepted lines)
      /\ length ratings = length segment_ends
      /\ length rows = length data
      /\ (forall g, g < length segment_ends ->
                    segment_start_of segment_ends g < nth g segment_ends 0)
      /\ forall g k row,
           g < length segment_ends ->
           segment_start_of segment_ends g <= k ->
           k < nth g segment_ends 0 ->
           nth_error data k = Some row ->
           nth_error rows k
           = Some (row ++ [fmul (nth g ratings fzero) (flit 1 1)]).
Proof.
  intros F SF c data lines rows rest Hrun.
  unfold rate_segments in Hrun.
  destruct (_detect_segments c data) as [segs|err] eqn:Hseg;
    [|discriminate].
  cbn [of_result obind] in Hrun.
  destruct (rate_loop data segs 0 None lines) as [[ratings' lines']|err]
    eqn:Hloop; [|discriminate].
  cbn [obind fst snd] in Hrun.
  destruct (np_hstack data ratings') as [rows'|err] eqn:Hstack;
    [|discriminate].
  cbn [of_result obind] in Hrun. injection Hrun as <- <-.
  apply rate_loop_inv in Hloop as (rs & Hrs & Hlen & Hinc & Hrows & _).
  apply np_hstack_inv in Hstack as (column & -> & Hcol & ->).
  cbn [rows_of app] in Hrows. subst column.
  exists segs, rs.
  split; [reflexivity|]. split; [exact Hrs|]. split; [exact Hlen|].
  split.
  { rewrite length_map, length_combine, Hcol. lia. }
  split; [exact Hinc|].
  intros g k row Hg Hk1 Hk2 Hrow.
  apply nth_error_hstack; [exact Hrow|].
  rewrite <- (Nat.sub_0_r k) at 1.
  apply rating_column_nth; assumption.
Qed.

(** The path with the tie, whose segments are the sample 0 and the samples
    1 and 2; the user types a line that is no number, the rating 2, which
    is refused, and the ratings 0.5 and 1. *)
Lemma rate_segments_result_witness :
  exists rows rest,
    rate_segments two_gates tie_path
                  [None; Some 2; Some 0.5; Some 1]%float
    = Done (rows, rest)
    /\ exists segment_ends ratings,
         _detect_segments two_gates tie_path = Ok segment_ends
         /\ map Some ratings
            = firstn (length segment_ends)
                     (filter accepted [None; Some 2; Some 0.5; Some 1]%float)
         /\ length ratings = length segment_ends
         /\ length rows = length tie_path
         /\ (forall g, g < length segment_ends ->
                       segment_start_of segment_ends g
                       < nth g segment_ends 0)
         /\ forall g k row,
              g < length segment_ends ->
              segment_start_of segment_ends g <= k ->
              k < nth g segment_ends 0 ->
              nth_error tie_path k = Some row ->
              nth_error rows k
              = Some (row ++ [fmul (nth g ratings fzero) (flit 1 1)]).
Proof.
  eexists. eexists. split.
  - vm_compute. reflexivity.
  - eapply (@rate_segments_result float float_scalar two_gates tie_path
              [None; Some 2; Some 0.5; Some 1]%float).
    vm_compute. reflexivity.
Defined.

(** X17: when the segments before segment [g] have samples, segment [g] has
    none (its end is not after its start) and the console holds at least
    [g] accepted lines, [rate_segments] raises the [AssertionError] of
    [display_path]; for [g = 0], a first gate that is nearest to sample 0,
    it does so before it reads a line. *)
Theorem rate_segments_empty_segment :
  forall (F : Type) (SF : Scalar F) (c : constants) (data : @matrix F)
         (lines : @console F) (segment_ends : list nat) (g : nat),
    _detect_segments c data = Ok segment_ends ->
    g < length segment_ends ->
    nth g segment_ends 0 <= segment_start_of segment_ends g ->
    (forall g', g' < g ->
                segment_start_of segment_ends g' < nth g' segment_ends 0) ->
    g <= length (filter accepted lines) ->
    rate_segments c data lines = Failed AssertionError.
Proof.
  intros F SF c data lines segs g Hseg Hg Hempty Hbefore Hlines.
  unfold rate_segments. rewrite Hseg. cbn [of_result obind].
  destruct (detect_segments_ends c data Hseg) as [Hlen Hends].
  rewrite (@rate_loop_assert F SF data segs 0 None lines g Hg Hempty);
    [reflexivity | | exact Hlines].
  intros g' Hg'. split; [apply Hbefore; exact Hg'|].
  assert (Hin : forall j, j < g ->
                          nth j segs 0 < length data).
  { intros j Hj.
    apply (@gate_segment_end_bound F SF c data j); [lia|].
    apply Hends. apply nth_error_nth'. lia. }
  destruct g' as [|g']; cbn [segment_start_of start_from].
  - specialize (Hin 0 ltac:(lia)). lia.
  - apply Hin. lia.
Qed.

(** The path whose first gate is where the tooltip starts: the first
    segment ends at sample 0 and has no sample. *)
Lemma rate_segments_empty_segment_witness :
  rate_segments two_gates two_gate_path [Some 0.5; Some 1]%float
  = Failed AssertionError.
Proof.
  apply (@rate_segments_empty_segment float float_scalar two_gates
           two_gate_path [Some 0.5; Some 1]%float [0; 3] 0).
  - vm_compute. reflexivity.
  - simpl. lia.
  - simpl. lia.
  - intros g' Hg'. lia.
  - simpl. lia.
Defined.

(** X18: the lines that the loop [while True] refuses, those that are no
    float and those with a rating under 0 or over 1, have no effect:
    [rate_segments] returns the same matrix, or raises the same exception,
    as on the console with the accepted lines alone. *)
Theorem rate_segments_skips_refused_lines :
  forall (F : Type) (SF : Scalar F) (c : constants) (data : @matrix F)
         (lines : @console F),
    match rate_segments c data lines with
    | Done rated =>
        rate_segments c data (filter accepted lines)
        = Done (fst rated, filter accepted (snd rated))
    | Failed e => rate_segments c data (filter accepted lines) = Failed e
    end.
Proof.
  intros F SF c data lines. unfold rate_segments.
  destruct (_detect_segments c data) as [segs|err]; [|reflexivity].
  cbn [of_result obind].
  pose proof (rate_loop_on_filter data segs 0 None lines) as Hloop.
  destruct (rate_loop data segs 0 None lines) as [[ratings' lines']|err];
    rewrite Hloop; [|reflexivity].
  cbn [obind fst snd].
  destruct (np_hstack data ratings') as [rows|err]; reflexivity.
Qed.

(** ** [trim_path] *)

Section TrimFacts.

Context {F : Type}.
Variable path : @matrix F.

(** A run of [plt.show()] in which no handler raises. *)
Lemma plt_show_done (events : list event) :
  forall g g',
    plt_show path events g = (g', Done tt) ->
    __g_trim_ok g' = __g_trim_ok g || clicked events
    /\ (__g_start_trim_index g', __g_end_trim_index g')
       = slider_values events (__g_start_trim_index g)
                       (__g_end_trim_index g).
Proof.
  induction events as [|ev rest IH]; intros g g' Hrun.
  - cbn [plt_show] in Hrun. injection Hrun as <-.
    cbn [clicked existsb slider_values]. rewrite orb_false_r. auto.
  - cbn [plt_show] in Hrun.
    destruct ev as [k|k|]; cbn [handle] in Hrun.
    + unfold start_changed in Hrun. cbv zeta in Hrun.
      destruct (display_path _) as [[]|err]; [|discriminate].
      apply IH in Hrun as [Hok Hval].
      cbn [__g_trim_ok __g_start_trim_index __g_end_trim_index] in *.
      cbn [clicked existsb slider_values orb]. auto.
    + unfold end_changed in Hrun. cbv zeta in Hrun.
      destruct (display_path _) as [[]|err]; [|discriminate].
      apply IH in Hrun as [Hok Hval].
      cbn [__g_trim_ok __g_start_trim_index __g_end_trim_index] in *.
      cbn [clicked existsb slider_values orb]. auto.
    + unfold button_clicked in Hrun.
      apply IH in Hrun as [Hok Hval].
      cbn [__g_trim_ok __g_start_trim_index __g_end_trim_index] in *.
      cbn [clicked existsb slider_values orb].
      rewrite Hok, orb_true_r. auto.
Qed.

(** Without an event of a slider no handler displays anything. *)
Lemma plt_show_buttons (events : list event) :
  (forall ev, In ev events -> ev = TrimButton) ->
  forall g,
    plt_show path events g
    = ({| __g_start_trim_index := __g_start_trim_index g;
          __g_end_trim_index := __g_end_trim_index g;
          __g_trim_ok := __g_trim_ok g || clicked events |}, Done tt).
Proof.
  induction events as [|ev rest IH]; intros Hall g.
  - cbn [plt_show clicked existsb]. rewrite orb_false_r.
    destruct g; reflexivity.
  - rewrite (Hall ev (or_introl eq_refl)).
    cbn [plt_show handle button_clicked].
    rewrite IH by (intros ev' Hin; apply Hall; right; exact Hin).
    cbn [__g_trim_ok __g_start_trim_index __g_end_trim_index
         clicked existsb orb].
    rewrite orb_true_r. reflexivity.
Qed.

Lemma trim_path_inv (events : list event) (g g' : trim_globals)
      (result : @matrix F) :
  trim_path path events g = (g', Done result) ->
  path <> []
  /\ plt_show path events
       {| __g_start_trim_index := 0;
          __g_end_trim_index := Z.of_nat (length path) - 1;
          __g_trim_ok := __g_trim_ok g |} = (g', Done tt)
  /\ result = (if __g_trim_ok g'
               then py_slice (__g_start_trim_index g')
                             (__g_end_trim_index g') path
               else path).
Proof.
  unfold trim_path. cbv zeta.
  destruct (display_path path) as [[]|err] eqn:Ed.
  - destruct (plt_show path events _) as [g1 [[]|err]] eqn:Es.
    + intros [= <- <-]. split; [|split; reflexivity].
      intros ->. discriminate.
    + discriminate.
  - discriminate.
Qed.

Lemma default_slice :
  path <> [] ->
  py_slice 0 (Z.of_nat (length path) - 1) path
  = firstn (length path - 1) path.
Proof.
  intros Hne. unfold py_slice, slice_bound.
  assert (Hlen : 0 < length path) by (destruct path; [contradiction | simpl; lia]).
  destruct (Z.ltb_spec 0 0); [lia|].
  destruct (Z.ltb_spec (Z.of_nat (length path) - 1) 0); [lia|].
  cbn [Z.to_nat Nat.min].
  replace (Nat.min (Z.to_nat (Z.of_nat (length path) - 1)) (length path))
    with (length path - 1) by lia.
  apply slice_from_zero.
Qed.

End TrimFacts.

(** X19: when [trim_path] returns, the path has a sample; the flag
    [__g_trim_ok] is then set if it was set before the call or the button
    was clicked, the two indices are the values that the sliders have set
    last, 0 and [len(path) - 1] for a slider that was not moved, and the
    value returned is [path[start:end]] when the flag is set and the path
    itself when it is not. *)
Theorem trim_path_result :
  forall (F : Type) (path : @matrix F) (events : list event)
         (g g' : trim_globals) (result : @matrix F),
    trim_path path events g = (g', Done result) ->
    path <> []
    /\ __g_trim_ok g' = __g_trim_ok g || clicked events
    /\ (__g_start_trim_index g', __g_end_trim_index g')
       = slider_values events 0 (Z.of_nat (length path) - 1)
    /\ result = (if __g_trim_ok g'
                 then py_slice (__g_start_trim_index g')
                               (__g_end_trim_index g') path
                 else path).
Proof.
  intros F path events g g' result Hrun.
  apply trim_path_inv in Hrun as (Hne & Hshow & Hres).
  apply plt_show_done in Hshow as [Hok Hval].
  cbn [__g_trim_ok __g_start_trim_index __g_end_trim_index] in *.
  auto.
Qed.

(** The start slider is moved to 1 and the button is clicked: of the three
    samples the one of index 1 is returned, the end index being 2. *)
Lemma trim_path_result_witness :
  two_gate_path <> []
  /\ true = __g_trim_ok module_globals || clicked [StartSlider 1; TrimButton]
  /\ (1%Z, 2%Z)
     = slider_values [StartSlider 1; TrimButton] 0
                     (Z.of_nat (length two_gate_path) - 1)
  /\ [[0.5; 0; 0; 0; 2; 0; 0; 1; 0; 0]%float]
     = (if true then py_slice 1 2 two_gate_path else two_gate_path).
Proof.
  apply (@trim_path_result float two_gate_path [StartSlider 1; TrimButton]
           module_globals
           {| __g_start_trim_index := 1;
              __g_end_trim_index := 2;
              __g_trim_ok := true |}
           [[0.5; 0; 0; 0; 2; 0; 0; 1; 0; 0]%float]).
  vm_compute. reflexivity.
Defined.

(** X20: when the button is clicked and no slider has been moved,
    [trim_path] returns the path without its last sample, since the end
    index starts at [len(path) - 1] and is the bound of a slice; of a path
    of one sample nothing is left. *)
Theorem trim_path_default_drops_last :
  forall (F : Type) (path : @matrix F) (events : list event)
         (g : trim_globals),
    path <> [] ->
    events <> [] ->
    (forall ev, In ev events -> ev = TrimButton) ->
    trim_path path events g
    = ({| __g_start_trim_index := 0;
          __g_end_trim_index := Z.of_nat (length path) - 1;
          __g_trim_ok := true |},
       Done (firstn (length path - 1) path)).
Proof.
  intros F path events g Hne Hev Hall.
  assert (Hclick : clicked events = true).
  { destruct events as [|ev rest]; [contradiction|].
    rewrite (Hall ev (or_introl eq_refl)). reflexivity. }
  unfold trim_path. cbv zeta.
  unfold display_path.
  destruct (Nat.ltb_spec 0 (length path)) as [_|Hlen];
    [|destruct path; [contradiction | simpl in Hlen; lia]].
  rewrite (plt_show_buttons path events Hall).
  cbn [__g_trim_ok __g_start_trim_index __g_end_trim_index].
  rewrite Hclick, orb_true_r.
  rewrite default_slice by exact Hne. reflexivity.
Qed.

Lemma trim_path_default_drops_last_witness :
  trim_path two_gate_path [TrimButton] module_globals
  = ({| __g_start_trim_index := 0;
        __g_end_trim_index := Z.of_nat (length two_gate_path) - 1;
        __g_trim_ok := true |},
     Done (firstn (length two_gate_path - 1) two_gate_path)).
Proof.
  apply (@trim_path_default_drops_last float two_gate_path [TrimButton]
           module_globals).
  - discriminate.
  - discriminate.
  - intros ev [<-|[]]. reflexivity.
Defined.

(** X21: [__g_trim_ok] is never reset.  After a call in which the button
    was clicked, a call in which the user does nothing returns the path
    without its last sample, where a call from the variables of the freshly
    loaded module returns the path as it is. *)
Theorem trim_path_flag_survives :
  forall (F : Type) (path1 path2 : @matrix F) (events1 : list event)
         (g g1 : trim_globals) (result1 : @matrix F),
    trim_path path1 events1 g = (g1, Done result1) ->
    clicked events1 = true ->
    path2 <> [] ->
    snd (trim_path path2 [] g1) = Done (firstn (length path2 - 1) path2)
    /\ snd (trim_path path2 [] module_globals) = Done path2.
Proof.
  intros F path1 path2 events1 g g1 result1 Hrun Hclick Hne.
  apply trim_path_inv in Hrun as (_ & Hshow & _).
  apply plt_show_done in Hshow as [Hok _].
  cbn [__g_trim_ok] in Hok. rewrite Hclick, orb_true_r in Hok.
  unfold trim_path. cbv zeta. unfold display_path.
  destruct (Nat.ltb_spec 0 (length path2)) as [_|Hlen];
    [|destruct path2; [contradiction | simpl in Hlen; lia]].
  cbn [plt_show snd __g_trim_ok __g_start_trim_index __g_end_trim_index
       module_globals].
  rewrite Hok. rewrite default_slice by exact Hne. auto.
Qed.

Lemma trim_path_flag_survives_witness :
  snd (trim_path two_gate_path []
         {| __g_start_trim_index := 0;
            __g_end_trim_index := Z.of_nat (length straight_path) - 1;
            __g_trim_ok := true |})
  = Done (firstn (length two_gate_path - 1) two_gate_path)
  /\ snd (trim_path two_gate_path [] module_globals) = Done two_gate_path.
Proof.
  apply (@trim_path_flag_survives float straight_path two_gate_path
           [TrimButton] module_globals _
           (firstn (length straight_path - 1) straight_path)).
  - vm_compute. reflexivity.
  - reflexivity.
  - discriminate.
Defined.

(** ** The width of the tooltip position *)

(** X22: on a path of two samples or more with rows of one width [w],
    [main] returns only if the slice of the tooltip position,
    [path[i, G_POS_IDX : G_POS_IDX + G_NUM_POS_DIMS]], has exactly three
    columns: the corrected positions have three coordinates, and the
    assignment to [full_path] refuses another width. *)
Theorem main_needs_three_position_columns :
  forall (F : Type) (SF : Scalar F) (np_sin : F -> F) (np_pi : F)
         (c : constants) (p : params F) (path : @matrix F) (w : nat)
         (np : option (stacked F)) (full path' : @matrix F),
    Forall (fun r => length r = w) path ->
    2 <= length path ->
    main np_sin np_pi c p path = Ok ((np, full), path') ->
    Nat.min (G_NUM_POS_DIMS c) (w - G_POS_IDX c) = 3.
Proof.
  intros F SF np_sin np_pi c p path w np full path' Hw Hn Hmain.
  apply main_inv in Hmain as (_ & Hlen & Hthree & Hassign & _).
  assert (Hw' : Forall (fun r => length r = w)
                       (firstn (length path - 1) path)).
  { apply Forall_forall. intros r Hr. rewrite Forall_forall in Hw.
    apply Hw. rewrite <- (firstn_skipn (length path - 1) path).
    apply in_or_app. left. exact Hr. }
  assert (Hrows : length (positions np)
                  = length (firstn (length path - 1) path))
    by (rewrite length_firstn; lia).
  destruct (@assign_cols_inv F SF (G_POS_IDX c)
              (G_POS_IDX c + G_NUM_POS_DIMS c) w
              (firstn (length path - 1) path) full np Hw' Hthree Hrows
              Hassign) as [_ Hrow].
  destruct path as [|r0 rest]; [simpl in Hn; lia|].
  assert (H0 : nth_error (firstn (length (r0 :: rest) - 1) (r0 :: rest)) 0
               = Some r0).
  { destruct rest as [|r1 rest]; [simpl in Hn; lia|]. reflexivity. }
  destruct (Hrow 0 r0 H0) as (x & Hx & Hlx & _).
  rewrite Forall_forall in Hthree.
  rewrite (Hthree x (nth_error_In _ _ Hx)) in Hlx.
  rewrite slice_length in Hlx.
  rewrite (Forall_inv Hw) in Hlx. lia.
Qed.

(** The two-sample path, of width 10 with the position in the columns 7
    to 9. *)
Lemma main_needs_three_position_columns_witness :
  Nat.min (G_NUM_POS_DIMS two_gates) (10 - G_POS_IDX two_gates) = 3.
Proof.
  destruct (@main_ok R real_scalar Rtrigo_def.sin PI two_gates source_params
              (two_sample_path 0 1) [0; 2] (two_sample_wf 0 1)
              (two_sample_segments 0 1)
              (@two_sample_in_range 0%R 1%R))
    as (np & full & Hmain & _).
  apply (@main_needs_three_position_columns R real_scalar Rtrigo_def.sin PI
           two_gates source_params (two_sample_path 0 1) 10 np full
           (two_sample_path 0 1)).
  - repeat constructor.
  - simpl. lia.
  - exact Hmain.
Defined.

(** * The order of binary64 and the first minimum *)

(** ** The comparison of binary64 values *)

Section SpecOrder.

Lemma SFcompare_none (a b : spec_float) :
  SFcompare a b = None <-> a = S754_nan \/ b = S754_nan.
Proof.
  split.
  - destruct a as [sa|sa| |sa ma ea], b as [sb|sb| |sb mb eb]; simpl;
      intros H; try discriminate; auto.
  - intros [-> | ->]; [reflexivity|]. destruct a; reflexivity.
Qed.

Lemma SFcompare_opp (a b : spec_float) :
  SFcompare b a = option_map CompOpp (SFcompare a b).
Proof.
  destruct a as [sa|sa| |sa ma ea], b as [sb|sb| |sb mb eb]; simpl;
    try reflexivity;
    try (destruct sa; reflexivity);
    try (destruct sb; reflexivity);
    try (destruct sa, sb; reflexivity).
  f_equal.
  change (Pos.compare_cont Eq mb ma) with (Pos.compare mb ma).
  change (Pos.compare_cont Eq ma mb) with (Pos.compare ma mb).
  rewrite (Z.compare_antisym ea eb), (Pos.compare_antisym ma mb).
  destruct sa, sb; try reflexivity;
    destruct (Z.compare ea eb); simpl; try reflexivity;
    destruct (Pos.compare ma mb); reflexivity.
Qed.

End SpecOrder.

Section SpecOrder2.

Lemma finite_le_pos (e1 e2 : Z) (m1 m2 : positive) :
  match (match Z.compare e1 e2 with
         | Lt => Lt
         | Gt => Gt
         | Eq => Pos.compare_cont Eq m1 m2
         end) with
  | Lt | Eq => true
  | Gt => false
  end = true
  <-> (e1 < e2)%Z \/ (e1 = e2 /\ (m1 <= m2)%positive).
Proof.
  change (Pos.compare_cont Eq m1 m2) with (Pos.compare m1 m2).
  destruct (Z.compare_spec e1 e2); destruct (Pos.compare_spec m1 m2);
    split; intros H'; try reflexivity; try discriminate; lia.
Qed.

Lemma finite_le_neg (e1 e2 : Z) (m1 m2 : positive) :
  match (match Z.compare e1 e2 with
         | Lt => Gt
         | Gt => Lt
         | Eq => CompOpp (Pos.compare_cont Eq m1 m2)
         end) with
  | Lt | Eq => true
  | Gt => false
  end = true
  <-> (e2 < e1)%Z \/ (e1 = e2 /\ (m2 <= m1)%positive).
Proof.
  change (Pos.compare_cont Eq m1 m2) with (Pos.compare m1 m2).
  destruct (Z.compare_spec e1 e2); destruct (Pos.compare_spec m1 m2);
    simpl; split; intros H'; try reflexivity; try discriminate; lia.
Qed.

Lemma SFleb_trans (a b c : spec_float) :
  SFleb a b = true -> SFleb b c = true -> SFleb a c = true.
Proof.
  unfold SFleb.
  destruct a as [sa|sa| |sa ma ea], b as [sb|sb| |sb mb eb],
           c as [sc|sc| |sc mc ec];
    cbn [SFcompare];
    try discriminate; try reflexivity;
    try (destruct sa, sb, sc; simpl; intros; try discriminate; reflexivity);
    try (destruct sa, sb; simpl; intros; try discriminate; reflexivity);
    try (destruct sa, sc; simpl; intros; try discriminate; reflexivity);
    try (destruct sb, sc; simpl; intros; try discriminate; reflexivity);
    try (destruct sa; simpl; intros; try discriminate; reflexivity);
    try (destruct sb; simpl; intros; try discriminate; reflexivity);
    try (destruct sc; simpl; intros; try discriminate; reflexivity).
  all: destruct sa, sb, sc; try (intros; discriminate);
    try (intros; reflexivity);
    rewrite ?finite_le_pos, ?finite_le_neg; intros; lia.
Qed.

Lemma SFleb_refl (a : spec_float) : a <> S754_nan -> SFleb a a = true.
Proof.
  unfold SFleb. destruct a as [sa|sa| |sa ma ea]; cbn [SFcompare];
    intros Hn; try reflexivity; try contradiction.
  - destruct sa; reflexivity.
  - destruct sa; [rewrite finite_le_neg | rewrite finite_le_pos]; lia.
Qed.

Lemma SFleb_total (a b : spec_float) :
  a <> S754_nan -> b <> S754_nan -> SFleb a b = false -> SFleb b a = true.
Proof.
  intros Ha Hb. unfold SFleb. rewrite (SFcompare_opp a b).
  destruct (SFcompare a b) as [[| |]|] eqn:E; simpl; try discriminate;
    try reflexivity.
  apply SFcompare_none in E. destruct E; contradiction.
Qed.

End SpecOrder2.

Section FloatOrder.

Lemma is_nan_spec (x : float) :
  is_nan x = true <-> Prim2SF x = S754_nan.
Proof.
  unfold is_nan. rewrite FloatAxioms.eqb_spec. unfold SFeqb.
  destruct (SFcompare (Prim2SF x) (Prim2SF x)) as [cmp|] eqn:E.
  - split.
    + intros H. exfalso.
      assert (Hn : Prim2SF x <> S754_nan).
      { intros Hn. rewrite Hn in E. discriminate. }
      pose proof (@SFleb_refl _ Hn) as Hr. unfold SFleb in Hr.
      rewrite E in Hr.
      pose proof (SFcompare_opp (Prim2SF x) (Prim2SF x)) as Ho.
      rewrite E in Ho. simpl in Ho. injection Ho as Ho.
      destruct cmp; simpl in *; discriminate.
    + intros Hn. rewrite Hn in E. discriminate.
  - split; [|reflexivity]. intros _.
    apply SFcompare_none in E. destruct E; assumption.
Qed.

Lemma is_nan_false (x : float) :
  is_nan x = false <-> Prim2SF x <> S754_nan.
Proof.
  rewrite <- is_nan_spec. destruct (is_nan x); split; congruence.
Qed.

Lemma float_leb_refl (x : float) : is_nan x = false -> PrimFloat.leb x x = true.
Proof.
  intros H. rewrite FloatAxioms.leb_spec. apply SFleb_refl. apply is_nan_false. exact H.
Qed.

Lemma float_leb_total (x y : float) :
  is_nan x = false -> is_nan y = false ->
  PrimFloat.leb x y = false -> PrimFloat.leb y x = true.
Proof.
  intros Hx Hy. rewrite !FloatAxioms.leb_spec.
  apply SFleb_total; apply is_nan_false; assumption.
Qed.

Lemma float_leb_trans (x y z : float) :
  PrimFloat.leb x y = true -> PrimFloat.leb y z = true ->
  PrimFloat.leb x z = true.
Proof. rewrite !FloatAxioms.leb_spec. apply SFleb_trans. Qed.

Lemma float_leb_nan (x y : float) :
  is_nan y = true -> PrimFloat.leb x y = false.
Proof.
  intros H. apply is_nan_spec in H. rewrite FloatAxioms.leb_spec, H. unfold SFleb.
  destruct (Prim2SF x); reflexivity.
Qed.

End FloatOrder.

(** ** [np.argmin] under a total order with NaN *)

Section ArgminOrder.

Context {F : Type} {SF : Scalar F}.

Hypothesis fleb_refl : forall x : F, fisnan x = false -> fleb x x = true.
Hypothesis fleb_total :
  forall x y : F, fisnan x = false -> fisnan y = false ->
                  fleb x y = false -> fleb y x = true.
Hypothesis fleb_trans :
  forall x y z : F, fleb x y = true -> fleb y z = true -> fleb x z = true.
Hypothesis fleb_nan : forall x y : F, fisnan y = true -> fleb x y = false.

Lemma argmin_from_ordered (rest : @ndarray F) :
  forall (pre : @ndarray F) (min_ind : nat) (mp : F),
    Forall (fun x => fisnan x = false) pre ->
    min_ind < length pre ->
    nth min_ind pre fzero = mp ->
    (forall j, j < length pre -> fleb mp (nth j pre fzero) = true) ->
    (forall j, j < min_ind -> fleb (nth j pre fzero) mp = false) ->
    argmin_from rest (length pre) min_ind mp < length (pre ++ rest)
    /\ (Forall (fun x => fisnan x = false) rest ->
        (forall j, j < length (pre ++ rest) ->
                   fleb (nth (argmin_from rest (length pre) min_ind mp)
                             (pre ++ rest) fzero)
                        (nth j (pre ++ rest) fzero) = true)
        /\ (forall j, j < argmin_from rest (length pre) min_ind mp ->
                      fleb (nth j (pre ++ rest) fzero)
                           (nth (argmin_from rest (length pre) min_ind mp)
                                (pre ++ rest) fzero) = false))
    /\ (Exists (fun x => fisnan x = true) rest ->
        fisnan (nth (argmin_from rest (length pre) min_ind mp)
                    (pre ++ rest) fzero) = true
        /\ forall j, j < argmin_from rest (length pre) min_ind mp ->
                     fisnan (nth j (pre ++ rest) fzero) = false).
Proof.
  induction rest as [|x rest IH];
    intros pre min_ind mp Hpre Hmin Hmp Hle Hfirst.
  - cbn [argmin_from]. rewrite app_nil_r.
    split; [lia|]. split.
    + intros _. rewrite Hmp. split; [exact Hle|].
      intros j Hj. apply Hfirst. exact Hj.
    + intros Hex. inversion Hex.
  - assert (Hmpn : fisnan mp = false).
    { rewrite Forall_forall in Hpre. apply Hpre. rewrite <- Hmp.
      apply nth_In. exact Hmin. }
    assert (Happ : (pre ++ [x]) ++ rest = pre ++ x :: rest)
      by (rewrite <- app_assoc; reflexivity).
    assert (Hlen : length (pre ++ [x]) = S (length pre))
      by (rewrite length_app; simpl; lia).
    cbn [argmin_from].
    destruct (fisnan x) eqn:Enan.
    + (* the scan stops at the first NaN *)
      rewrite (fleb_nan mp x Enan). cbn [negb].
      split; [rewrite length_app; simpl; lia|]. split.
      * intros Hall. apply Forall_inv in Hall. congruence.
      * intros _. split.
        -- rewrite app_nth2 by lia. rewrite Nat.sub_diag. exact Enan.
        -- intros j Hj. rewrite app_nth1 by exact Hj.
           rewrite Forall_forall in Hpre. apply Hpre. apply nth_In. exact Hj.
    + assert (Hpre' : Forall (fun y => fisnan y = false) (pre ++ [x])).
      { apply Forall_app. split; [exact Hpre|]. constructor; [exact Enan|].
        constructor. }
      assert (Hnthx : nth (length pre) (pre ++ [x]) fzero = x).
      { rewrite app_nth2 by lia. rewrite Nat.sub_diag. reflexivity. }
      destruct (fleb mp x) eqn:Ele; cbn [negb].
      * (* the minimum is kept *)
        specialize (IH (pre ++ [x]) min_ind mp Hpre').
        rewrite Hlen, Happ in IH.
        destruct IH as (Hk & Hnonan & Hnanc).
        -- lia.
        -- rewrite app_nth1 by exact Hmin. exact Hmp.
        -- intros j Hj.
           destruct (Nat.eq_dec j (length pre)) as [->|Hne].
           ++ rewrite Hnthx. exact Ele.
           ++ rewrite app_nth1 by lia. apply Hle. lia.
        -- intros j Hj. rewrite app_nth1 by lia. apply Hfirst. exact Hj.
        -- split; [exact Hk|]. split.
           ++ intros Hall. apply Hnonan. apply Forall_inv_tail in Hall.
              exact Hall.
           ++ intros Hex. apply Hnanc. inversion Hex as [? ? Hx|? ? Hx];
                subst; [congruence | exact Hx].
      * (* a new minimum *)
        assert (Hxmp : fleb x mp = true)
          by (apply fleb_total; assumption).
        specialize (IH (pre ++ [x]) (length pre) x Hpre').
        rewrite Hlen, Happ in IH.
        destruct IH as (Hk & Hnonan & Hnanc).
        -- lia.
        -- exact Hnthx.
        -- intros j Hj.
           destruct (Nat.eq_dec j (length pre)) as [->|Hne].
           ++ rewrite Hnthx. apply fleb_refl. exact Enan.
           ++ rewrite app_nth1 by lia.
              apply fleb_trans with mp; [exact Hxmp|]. apply Hle. lia.
        -- intros j Hj. rewrite app_nth1 by lia.
           destruct (fleb (nth j pre fzero) x) eqn:E; [|reflexivity].
           rewrite (fleb_trans mp (nth j pre fzero) x (Hle j Hj) E) in Ele.
           discriminate.
        -- split; [exact Hk|]. split.
           ++ intros Hall. apply Hnonan. apply Forall_inv_tail in Hall.
              exact Hall.
           ++ intros Hex. apply Hnanc. inversion Hex as [? ? Hx|? ? Hx];
                subst; [congruence | exact Hx].
Qed.

(** [np.argmin]: the first NaN when there is one, and otherwise the first
    of the least elements. *)
Lemma np_argmin_ordered (xs : @ndarray F) (k : nat) :
  np_argmin xs = Ok k ->
  k < length xs
  /\ (Forall (fun x => fisnan x = false) xs ->
      (forall j, j < length xs ->
                 fleb (nth k xs fzero) (nth j xs fzero) = true)
      /\ (forall j, j < k -> fleb (nth j xs fzero) (nth k xs fzero) = false))
  /\ (Exists (fun x => fisnan x = true) xs ->
      fisnan (nth k xs fzero) = true
      /\ forall j, j < k -> fisnan (nth j xs fzero) = false).
Proof.
  destruct xs as [|x rest]; [discriminate|].
  cbn [np_argmin]. destruct (fisnan x) eqn:Enan; intros [= <-].
  - split; [simpl; lia|]. split.
    + intros Hall. apply Forall_inv in Hall. congruence.
    + intros _. split; [exact Enan|]. intros j Hj. lia.
  - destruct (@argmin_from_ordered rest [x] 0 x) as (Hk & Hnonan & Hnanc).
    + constructor; [exact Enan | constructor].
    + simpl. lia.
    + reflexivity.
    + intros j Hj. simpl in Hj. assert (j = 0) by lia. subst j.
      apply fleb_refl. exact Enan.
    + intros j Hj. lia.
    + cbn [length app] in Hk, Hnonan, Hnanc.
      split; [exact Hk|]. split.
      * intros Hall. apply Hnonan. apply Forall_inv_tail in Hall. exact Hall.
      * intros Hex. apply Hnanc. inversion Hex as [? ? Hx|? ? Hx]; subst;
          [congruence | exact Hx].
Qed.

End ArgminOrder.

(** ** The distances that [_detect_segments] compares *)

Section ComputedDistances.

Context {F : Type} {SF : Scalar F}.

Lemma cdist_col0_rows (XA XB : @matrix F) (dist : @ndarray F) :
  cdist_col0 XA XB = Ok dist ->
  exists b0 rest,
    XB = b0 :: rest /\ dist = map (fun a => euclidean a b0) XA.
Proof.
  unfold cdist_col0. destruct (ncols XA =? ncols XB); [|discriminate].
  destruct XB as [|b0 rest]; [discriminate|].
  intros [= <-]. eauto.
Qed.

(** The segment end of a gate that is not the last is the [np.argmin] of
    the distances [gate_distance]. *)
Lemma gate_segment_end_argmin (c : constants) (data : @matrix F)
      (g k : nat) :
  g <> G_NUM_GATES c - 1 ->
  gate_segment_end c data g = Ok k ->
  np_argmin (map (gate_distance c data g) (seq 0 (length data))) = Ok k.
Proof.
  intros Hg H. unfold gate_segment_end in H.
  destruct (Nat.eqb_spec g (G_NUM_GATES c - 1)); [contradiction|].
  apply rbind_inv in H as (dist & Hd & H).
  apply cdist_col0_rows in Hd as (b0 & rest & Hb & ->).
  assert (Hb0 : b0 = slice (G_GATE_IDX c + g * 3)
                           (G_GATE_IDX c + g * 3 + G_NUM_GATE_DIMS c)
                           (nth 0 data [])).
  { destruct data as [|r0 data]; [discriminate|].
    cbn [map] in Hb. injection Hb as <- _. reflexivity. }
  rewrite map_map in H. rewrite <- H. f_equal.
  unfold gate_distance. rewrite <- Hb0.
  apply (map_nth_seq (fun r => euclidean (skipn (G_POS_IDX c) r) b0)).
Qed.

Lemma nth_distances (c : constants) (data : @matrix F) (g j : nat) :
  j < length data ->
  nth j (map (gate_distance c data g) (seq 0 (length data))) fzero
  = gate_distance c data g j.
Proof.
  intros Hj.
  rewrite (nth_indep _ fzero (gate_distance c data g 0))
    by (rewrite length_map, length_seq; assumption).
  rewrite map_nth, seq_nth by assumption. reflexivity.
Qed.

End ComputedDistances.

(** C9: in the arithmetic of the program, the segment end that
    [_detect_segments] returns for a gate that is not the last one is the
    index of a sample.  When no computed distance is a NaN, the computed
    distance of that sample is the least, and every sample whose computed
    distance is as small has the same or a higher index: among the samples
    that attain the least computed distance it is the one of lowest index.
    When a computed distance is a NaN, it is the first sample with such a
    distance. *)
Theorem segment_end_first_computed_minimum :
  forall (c : constants) (data : @matrix float) (segs : list nat)
         (g k : nat),
    _detect_segments c data = Ok segs ->
    g + 1 < G_NUM_GATES c ->
    nth_error segs g = Some k ->
    k < length data
    /\ ((forall j, j < length data ->
                   is_nan (gate_distance c data g j) = false) ->
        (forall j, j < length data ->
                   PrimFloat.leb (gate_distance c data g k)
                                 (gate_distance c data g j) = true)
        /\ (forall j, j < length data ->
                      PrimFloat.leb (gate_distance c data g j)
                                    (gate_distance c data g k) = true ->
                      k <= j))
    /\ (forall j0, j0 < length data ->
                   is_nan (gate_distance c data g j0) = true ->
                   is_nan (gate_distance c data g k) = true
                   /\ forall j, j < k ->
                                is_nan (gate_distance c data g j) = false).
Proof.
  intros c data segs g k Hsegs Hg Hk.
  destruct (detect_segments_ends c data Hsegs) as [_ Hends].
  apply Hends in Hk.
  apply gate_segment_end_argmin in Hk; [|lia].
  apply (@np_argmin_ordered float float_scalar float_leb_refl
           float_leb_total float_leb_trans float_leb_nan) in Hk
    as (Hlt & Hnonan & Hnanc).
  rewrite length_map, length_seq in Hlt, Hnonan.
  split; [exact Hlt|]. split.
  - intros Hall.
    destruct Hnonan as [Hmin Hfirst].
    { apply Forall_forall. intros x Hx.
      apply in_map_iff in Hx as (j & <- & Hj). apply in_seq in Hj.
      apply Hall. lia. }
    split.
    + intros j Hj. specialize (Hmin j Hj).
      rewrite (nth_distances c data g Hlt) in Hmin.
      rewrite (nth_distances c data g Hj) in Hmin. exact Hmin.
    + intros j Hj Hle.
      destruct (Nat.le_gt_cases k j) as [Hkj|Hgt]; [exact Hkj|].
      specialize (Hfirst j Hgt).
      rewrite (nth_distances c data g Hlt) in Hfirst.
      rewrite (nth_distances c data g Hj) in Hfirst.
      change (@fleb float float_scalar) with PrimFloat.leb in Hfirst.
      congruence.
  - intros j0 Hj0 Hnan.
    destruct Hnanc as [Hknan Hbefore].
    { apply Exists_exists. exists (gate_distance c data g j0).
      split; [|exact Hnan].
      apply in_map_iff. exists j0. split; [reflexivity|].
      apply in_seq. lia. }
    rewrite (nth_distances c data g Hlt) in Hknan.
    split; [exact Hknan|].
    intros j Hj. specialize (Hbefore j Hj).
    rewrite (nth_distances c data g) in Hbefore by lia. exact Hbefore.
Qed.

(** The path with the tie: the computed distances of the samples 1 and 2
    to the first gate are both 1, and the first segment ends at
    sample 1. *)
Lemma segment_end_first_computed_minimum_witness :
  1 < length tie_path
  /\ ((forall j, j < length tie_path ->
                 is_nan (gate_distance two_gates tie_path 0 j) = false) ->
      (forall j, j < length tie_path ->
                 PrimFloat.leb (gate_distance two_gates tie_path 0 1)
                               (gate_distance two_gates tie_path 0 j) = true)
      /\ (forall j, j < length tie_path ->
                    PrimFloat.leb (gate_distance two_gates tie_path 0 j)
                                  (gate_distance two_gates tie_path 0 1)
                    = true ->
                    1 <= j))
  /\ (forall j0, j0 < length tie_path ->
                 is_nan (gate_distance two_gates tie_path 0 j0) = true ->
                 is_nan (gate_distance two_gates tie_path 0 1) = true
                 /\ forall j, j < 1 ->
                              is_nan (gate_distance two_gates tie_path 0 j)
                              = false).
Proof.
  apply (@segment_end_first_computed_minimum two_gates tie_path [1; 3] 0 1).
  - vm_compute. reflexivity.
  - simpl. lia.
  - reflexivity.
Defined.

(** C9 (counterexample): the tooltip positions of the two samples of
    [tie_perm] hold the same coordinates in another order, and the gate is
    at the origin: the Euclidean distances of the recorded values are
    equal, so that both samples attain the least distance and sample 0 is
    the lowest of them.  The distances are computed as
    0.33166247903554003 and 0.33166247903553997, and [_detect_segments]
    returns sample 1 as the end of the first segment. *)
Lemma exact_tie_higher_index_returned :
  @gate_distance R real_scalar two_gates (map (map float_to_R) tie_perm) 0 0
  = @gate_distance R real_scalar two_gates (map (map float_to_R) tie_perm)
                   0 1
  /\ PrimFloat.ltb (gate_distance two_gates tie_perm 0 1)
                   (gate_distance two_gates tie_perm 0 0) = true
  /\ _detect_segments two_gates tie_perm = Ok [1; 2].
Proof.
  split; [|split; vm_compute; reflexivity].
  unfold gate_distance, tie_perm.
  cbv [map nth skipn slice firstn two_gates G_POS_IDX G_GATE_IDX
       G_NUM_GATE_DIMS Nat.add Nat.mul Nat.sub].
  rewrite !euclidean_three. f_equal. ring.
Qed.

(** * The acceleration that a step integrates *)

(** C6: in exact arithmetic, with a bound [a_max] that is not negative: in
    every step of the loop of [main] whose computed acceleration [a_new]
    has a norm that is not zero, the velocity that the step leaves in
    [v_curr] is [v_curr + a * dt] and the position that it appends to
    [new_path] is [x_curr + v_new * dt], for the limited acceleration [a],
    whose norm is at most [a_max]. *)
Theorem reintegrated_acceleration_bounded :
  forall (c : constants) (p : params R) (segments : list nat) (i : nat)
         (st st' : loop_state R) (path path1 path' : @matrix R)
         (k : @kinematics R),
    (0 <= a_max p)%R ->
    step_kinematics Rtrigo_def.sin PI c p segments i st path = Ok (k, path1) ->
    np_linalg_norm (k_a_new k) <> 0%R ->
    correction_step Rtrigo_def.sin PI c p segments i st path
    = Ok (st', path') ->
    (np_linalg_norm (limit_acceleration p (k_a_new k)) <= a_max p)%R
    /\ np_add (v_curr st)
              (np_scale (limit_acceleration p (k_a_new k)) (k_dt k))
       = Ok (v_curr st')
    /\ exists x,
         np_add (k_x_curr k) (np_scale (v_curr st') (k_dt k)) = Ok x
         /\ positions (new_path st') = positions (new_path st) ++ [x].
Proof.
  intros c p segments i st st' path path1 path' k Hmax Hkin Hnorm Hstep.
  split; [apply limited_acceleration_bounded; assumption|].
  unfold correction_step in Hstep.
  rewrite (bind_ok _ _ _ Hkin) in Hstep.
  apply lift_inv in Hstep as [Hupd _].
  unfold step_update in Hupd. cbv zeta in Hupd.
  apply rbind_inv in Hupd as (v_new & Hv & Hupd).
  apply rbind_inv in Hupd as (x_new & Hx & Hupd).
  apply rbind_inv in Hupd as (np' & Hnp & Hupd).
  apply rbind_inv in Hupd as (delta & _ & Hupd).
  apply rbind_inv in Hupd as (offset' & _ & Hupd).
  injection Hupd as <-. cbn [v_curr new_path].
  split; [exact Hv|].
  exists x_new. split; [exact Hx|].
  destruct (new_path st) as [np|].
  - apply np_vstack_positions. exact Hnp.
  - injection Hnp as <-. reflexivity.
Qed.

(** The step of the two-sample path with a gate that does not move. *)
Lemma reintegrated_acceleration_bounded_witness :
  Rle (np_linalg_norm
         (limit_acceleration still_gate_params
            (k_a_new (pure_kinematics Rtrigo_def.sin PI two_gates
                        still_gate_params (two_sample_path 0 1) [0; 2] 0 0
                        initial_state))))
      (a_max still_gate_params)
  /\ np_add (v_curr (@initial_state R real_scalar))
            (np_scale
               (limit_acceleration still_gate_params
                  (k_a_new (pure_kinematics Rtrigo_def.sin PI two_gates
                              still_gate_params (two_sample_path 0 1)
                              [0; 2] 0 0 initial_state)))
               (k_dt (pure_kinematics Rtrigo_def.sin PI two_gates
                        still_gate_params (two_sample_path 0 1) [0; 2] 0 0
                        initial_state)))
     = Ok (v_curr
             (pure_update still_gate_params initial_state
                (pure_kinematics Rtrigo_def.sin PI two_gates
                   still_gate_params (two_sample_path 0 1) [0; 2] 0 0
                   initial_state)))
  /\ exists x,
       np_add (k_x_curr (pure_kinematics Rtrigo_def.sin PI two_gates
                           still_gate_params (two_sample_path 0 1) [0; 2]
                           0 0 initial_state))
              (np_scale
                 (v_curr
                    (pure_update still_gate_params initial_state
                       (pure_kinematics Rtrigo_def.sin PI two_gates
                          still_gate_params (two_sample_path 0 1) [0; 2]
                          0 0 initial_state)))
                 (k_dt (pure_kinematics Rtrigo_def.sin PI two_gates
                          still_gate_params (two_sample_path 0 1) [0; 2]
                          0 0 initial_state)))
       = Ok x
       /\ positions
            (new_path
               (pure_update still_gate_params initial_state
                  (pure_kinematics Rtrigo_def.sin PI two_gates
                     still_gate_params (two_sample_path 0 1) [0; 2] 0 0
                     initial_state)))
          = positions (new_path (@initial_state R real_scalar)) ++ [x].
Proof.
  assert (Hkin :
            step_kinematics Rtrigo_def.sin PI two_gates still_gate_params
                            [0; 2] 0 initial_state (two_sample_path 0 1)
            = Ok (pure_kinematics Rtrigo_def.sin PI two_gates
                    still_gate_params (two_sample_path 0 1) [0; 2] 0 0
                    initial_state, two_sample_path 0 1)).
  { apply (@step_kinematics_ok R real_scalar Rtrigo_def.sin PI two_gates
             still_gate_params (two_sample_path 0 1) (two_sample_wf 0 1)
             [0; 2] 0 0 initial_state).
    - reflexivity.
    - reflexivity.
    - unfold two_sample_path. simpl. lia.
    - reflexivity.
    - unfold two_sample_path. simpl. lia.
    - cbv. lia. }
  apply (@reintegrated_acceleration_bounded two_gates still_gate_params
           [0; 2] 0 initial_state _ (two_sample_path 0 1)
           (two_sample_path 0 1) (two_sample_path 0 1) _).
  - change (a_max (@still_gate_params R real_scalar)) with (100 / 1)%R. lra.
  - exact Hkin.
  - pose proof two_sample_clamp_inactive as Hin.
    cbn [clamp_inactive seq Nat.eqb Nat.sub] in Hin.
    rewrite Hkin in Hin. destruct Hin as (_ & [Hpos _] & _).
    intros E. rewrite E in Hpos. lra.
  - apply (@correction_step_ok R real_scalar Rtrigo_def.sin PI two_gates
             still_gate_params (two_sample_path 0 1) [0; 2] 0 0
             initial_state).
    + apply two_sample_wf.
    + reflexivity.
    + apply initial_state_wf.
    + unfold two_sample_path. simpl. lia.
    + reflexivity.
    + unfold two_sample_path. simpl. lia.
Defined.

(** ** The limitation of an acceleration that is not finite *)

Lemma float_add_nan (x : float) : (x + nan)%float = nan.
Proof.
  apply Prim2SF_inj. rewrite add_spec.
  change (Prim2SF nan) with S754_nan.
  unfold SF64add, SFadd. destruct (Prim2SF x); reflexivity.
Qed.

Lemma norm_with_nan (x y : float) :
  np_linalg_norm [x; y; nan]%float = nan.
Proof.
  unfold np_linalg_norm, sum_squares.
  cbn [fold_left fadd fmul fzero fsqrt float_scalar].
  change (nan * nan)%float with nan.
  rewrite float_add_nan. reflexivity.
Qed.

(** C6 (counterexample): in the arithmetic of the program, on two samples
    with the same timestamp the step of [main] computes, whatever the sine
    is, an acceleration [(inf, y, nan)]; its norm is a NaN, which is not
    zero, the limited acceleration has a norm that is a NaN as well, and
    that norm is not at most [a_max]. *)
Lemma nonfinite_acceleration_not_bounded :
  (forall (np_sin : float -> float) (np_pi : float),
      exists y,
        step_kinematics np_sin np_pi two_gates source_params [0; 2] 0
                        initial_state same_time_path
        = Ok ({| k_x_curr := [0; 0; 0]%float;
                 k_dx := [1; 0; 0]%float;
                 k_dt := 0%float;
                 k_a_new := [infinity; y; nan]%float |}, same_time_path))
  /\ _detect_segments two_gates same_time_path = Ok [0; 2]
  /\ forall y : float,
       PrimFloat.eqb (np_linalg_norm [infinity; y; nan]%float) 0 = false
       /\ PrimFloat.leb
            (np_linalg_norm
               (limit_acceleration source_params [infinity; y; nan]%float))
            (a_max source_params) = false.
Proof.
  split; [|split].
  - intros np_sin np_pi. eexists. vm_compute. reflexivity.
  - vm_compute. reflexivity.
  - intros y. rewrite norm_with_nan. split; [reflexivity|].
    unfold limit_acceleration. rewrite norm_with_nan.
    unfold np_scale. cbn [map].
    change (fmul nan (fdiv (np_clip nan (fopp (a_max source_params))
                                    (a_max source_params)) nan))
      with nan.
    rewrite norm_with_nan. reflexivity.
Qed.
